(** * Quest Resource Monitor: state store, request client and poll orchestrator

    A shallow embedding of the frontend's synchronisation core:
    - [StateManager] (frontend/modules/state-manager.js): the path-addressed
      state tree with its publish/subscribe broadcast;
    - [APIClient] (frontend/modules/api-client.js): the [request] retry loop;
    - [App] (frontend/app.js): the polling loops and the offline/reconnect
      logic, as a step relation over timers and suspended async functions.

    The scripts carry no strict-mode directive and are loaded as classic
    scripts, so they run in sloppy mode: an assignment to a property of a
    primitive value is silently dropped instead of raising. *)

From Stdlib Require Import ZArith Lia Ascii String Sorted.
From stdpp Require Import gmap strings list fin_maps pretty.

Local Open Scope string_scope.
Local Open Scope list_scope.
Local Open Scope nat_scope.

Set Warnings "-register-all".

(** ** JavaScript values and the runtime operations the sources use *)

Module JS.

(** The values that live in the state tree and in response bodies.  Numbers
    are the integers (all the sources compute with); strings are ASCII (all
    keys and literals of the repository are).  An object is a finite map from
    the names of its own properties to their values; an array is the list of
    its elements.  The tree is a tree: no object is reachable along two
    different paths (every value the repository writes is freshly built).

    [VHost name] is a built-in object of the page: a prototype object or a
    built-in function, such as [Object.prototype] or
    [Object.prototype.toString].  The tree does not hold it, but reading a
    member that an object inherits returns it.  The model knows it by its
    name only. *)
Inductive val : Type :=
| VUndefined
| VNull
| VBool (b : bool)
| VNum (n : Z)
| VStr (s : string)
| VArr (items : list val)
| VObj (fields : gmap string val)
| VHost (name : string).

(** What a [throw] carries. [TypeError] is raised by the engine on a property
    access on [undefined]/[null] and by the accessors [caller] and
    [arguments] of the built-in functions; [ErrorObject] is any other error
    object ([new Error(msg)], [SyntaxError], [AbortError], ...); [Thrown] is
    an arbitrary thrown value.  [Unmodelled] marks the operations left
    outside the model: writing a property of an array that is no index or
    an index beyond its length, replacing the prototype of an object, and
    reading or writing a property of a built-in object (but for the reads
    said below). *)
Inductive thrown : Type :=
| TypeError (message : string)
| ErrorObject (name message : string)
| Thrown (payload : val)
| Unmodelled (operation : string).

(** A computation that returns or throws. *)
#[export] Instance result_ret : MRet (sum thrown) := λ A x, inr x.

#[export] Instance result_bind : MBind (sum thrown) := λ A B f r,
  match r with
  | inl e => inl e
  | inr x => f x
  end.

Definition nullish (v : val) : bool :=
  match v with
  | VUndefined | VNull => true
  | _ => false
  end.

Definition describe (v : val) : string :=
  match v with
  | VNull => "null"
  | _ => "undefined"
  end.

Definition digit_of (c : ascii) : option N :=
  let n := N_of_ascii c in
  if ((48 <=? n) && (n <=? 57))%N then Some (n - 48)%N else None.

Fixpoint parse_digits (acc : N) (s : string) : option N :=
  match s with
  | EmptyString => Some acc
  | String c s' =>
      match digit_of c with
      | Some d => parse_digits (acc * 10 + d)%N s'
      | None => None
      end
  end.

(** An array index is the canonical decimal spelling of an integer below
    2^32 - 1: no sign, no leading zero. *)
Definition array_index (k : string) : option nat :=
  match k with
  | EmptyString => None
  | String "0" EmptyString => Some 0
  | String "0" _ => None
  | _ =>
      match parse_digits 0 k with
      | Some n => if (n <? 2 ^ 32 - 1)%N then Some (N.to_nat n) else None
      | None => None
      end
  end.

(** *** The built-in objects

    The page never changes a built-in object (no script of the repository
    touches a prototype), so what the values of the tree inherit is what
    ECMAScript 2024 with its Annex B gives them; the page runs in Electron.
    (The members of [Object.prototype] are those of every edition since the
    fifth; an engine older than the 2024 edition lacks the latest methods of
    arrays and strings.)  Symbol-keyed members cannot be named by a path and
    are left out. *)

(** The members of [Object.prototype] but [constructor] and [__proto__]. *)
Definition object_members : list string :=
  ["__defineGetter__"; "__defineSetter__"; "hasOwnProperty"; "__lookupGetter__";
   "__lookupSetter__"; "isPrototypeOf"; "propertyIsEnumerable"; "toString";
   "valueOf"; "toLocaleString"].

Definition function_members : list string :=
  ["length"; "name"; "arguments"; "caller"; "apply"; "bind"; "call"; "toString"].

Definition array_members : list string :=
  ["at"; "concat"; "copyWithin"; "fill"; "find"; "findIndex"; "findLast";
   "findLastIndex"; "lastIndexOf"; "pop"; "push"; "reverse"; "shift";
   "unshift"; "slice"; "sort"; "splice"; "includes"; "indexOf"; "join";
   "keys"; "entries"; "values"; "forEach"; "filter"; "flat"; "flatMap"; "map";
   "every"; "some"; "reduce"; "reduceRight"; "toLocaleString"; "toString";
   "toReversed"; "toSorted"; "toSpliced"; "with"].

Definition string_members : list string :=
  ["anchor"; "at"; "big"; "blink"; "bold"; "charAt"; "charCodeAt";
   "codePointAt"; "concat"; "endsWith"; "fontcolor"; "fontsize"; "fixed";
   "includes"; "indexOf"; "isWellFormed"; "italics"; "lastIndexOf"; "link";
   "localeCompare"; "match"; "matchAll"; "normalize"; "padEnd"; "padStart";
   "repeat"; "replace"; "replaceAll"; "search"; "slice"; "small"; "split";
   "strike"; "sub"; "substr"; "substring"; "sup"; "startsWith"; "toString";
   "toWellFormed"; "trim"; "trimStart"; "trimLeft"; "trimEnd"; "trimRight";
   "toLocaleLowerCase"; "toLocaleUpperCase"; "toLowerCase"; "toUpperCase";
   "valueOf"].

Definition number_members : list string :=
  ["toExponential"; "toFixed"; "toPrecision"; "toString"; "valueOf";
   "toLocaleString"].

Definition boolean_members : list string := ["toString"; "valueOf"].

(** The properties of the constructors themselves. *)
Definition constructor_members : list string :=
  ["prototype";
   "assign"; "create"; "defineProperties"; "defineProperty"; "entries";
   "freeze"; "fromEntries"; "getOwnPropertyDescriptor";
   "getOwnPropertyDescriptors"; "getOwnPropertyNames";
   "getOwnPropertySymbols"; "getPrototypeOf"; "groupBy"; "hasOwn"; "is";
   "isExtensible"; "isFrozen"; "isSealed"; "keys"; "preventExtensions";
   "seal"; "setPrototypeOf"; "values";
   "from"; "fromAsync"; "isArray"; "of";
   "fromCharCode"; "fromCodePoint"; "raw";
   "EPSILON"; "MAX_SAFE_INTEGER"; "MAX_VALUE"; "MIN_SAFE_INTEGER";
   "MIN_VALUE"; "NaN"; "NEGATIVE_INFINITY"; "POSITIVE_INFINITY"; "isFinite";
   "isInteger"; "isNaN"; "isSafeInteger"; "parseFloat"; "parseInt"].

(** Every name that one of these built-in objects may hold. *)
Definition builtin_names : list string :=
  "__proto__" :: "constructor" :: object_members ++ function_members ++
  array_members ++ string_members ++ number_members ++ boolean_members ++
  constructor_members.

(** The values with a prototype chain, by the chain they have. *)
Inductive kind : Type := KBool | KNum | KStr | KArr | KObj.

Definition prototype_of (κ : kind) : string :=
  match κ with
  | KBool => "Boolean.prototype"
  | KNum => "Number.prototype"
  | KStr => "String.prototype"
  | KArr => "Array.prototype"
  | KObj => "Object.prototype"
  end.

Definition constructor_of (κ : kind) : string :=
  match κ with
  | KBool => "Boolean"
  | KNum => "Number"
  | KStr => "String"
  | KArr => "Array"
  | KObj => "Object"
  end.

Definition members_of (κ : kind) : list string :=
  match κ with
  | KBool => boolean_members
  | KNum => number_members
  | KStr => string_members
  | KArr => array_members
  | KObj => []
  end.

(** What the prototype chain of a value of kind [κ] holds under [k]: the
    prototype itself under [__proto__] (an accessor of [Object.prototype]),
    the constructor, a method of the value's own prototype, or a method of
    [Object.prototype], where every chain ends. *)
Definition inherited (κ : kind) (k : string) : option val :=
  if decide (k = "__proto__") then Some (VHost (prototype_of κ))
  else if decide (k = "constructor") then Some (VHost (constructor_of κ))
  else if decide (k ∈ members_of κ) then Some (VHost (prototype_of κ +:+ "." +:+ k))
  else if decide (k ∈ object_members) then Some (VHost ("Object.prototype." +:+ k))
  else None.

(** A read that finds no own property goes on along the chain. *)
Definition beyond (κ : kind) (k : string) : val :=
  default VUndefined (inherited κ k).

(** The built-in objects that are not functions. *)
Definition plain_prototypes : list string :=
  ["Object.prototype"; "Array.prototype"; "String.prototype";
   "Number.prototype"; "Boolean.prototype"].

Definition is_function (name : string) : bool :=
  bool_decide (name ∉ plain_prototypes).

(** [caller] and [arguments] are accessors of [Function.prototype] that
    throw when read or written on a built-in function. *)
Definition restricted : list string := ["caller"; "arguments"].

Definition restricted_message : string :=
  "'caller', 'callee', and 'arguments' properties may not be accessed on " +:+
  "strict mode functions or the arguments objects for calls to them".

(** A read on a built-in object.  A key that no built-in object holds reads
    as [undefined]; the values of the other properties are not modelled. *)
Definition host_get (name k : string) : thrown + val :=
  if is_function name && bool_decide (k ∈ restricted)
  then inl (TypeError restricted_message)
  else if decide (k ∈ builtin_names)
  then inl (Unmodelled "property of a built-in object")
  else inr VUndefined.

(** [v[k]]: a property read.  An own property wins; otherwise the read goes
    on along the prototype chain.  The own properties of a string and of an
    array are [length] and the indices. *)
Definition js_get (v : val) (k : string) : thrown + val :=
  match v with
  | VUndefined | VNull =>
      inl (TypeError ("Cannot read properties of " +:+ describe v +:+
                      " (reading '" +:+ k +:+ "')"))
  | VBool _ => inr (beyond KBool k)
  | VNum _ => inr (beyond KNum k)
  | VStr s =>
      if decide (k = "length") then inr (VNum (Z.of_nat (String.length s)))
      else match array_index k with
           | Some i =>
               match String.get i s with
               | Some c => inr (VStr (String c EmptyString))
               | None => inr (beyond KStr k)
               end
           | None => inr (beyond KStr k)
           end
  | VArr items =>
      if decide (k = "length") then inr (VNum (Z.of_nat (length items)))
      else match array_index k with
           | Some i => inr (default (beyond KArr k) (items !! i))
           | None => inr (beyond KArr k)
           end
  | VObj fields => inr (default (beyond KObj k) (fields !! k))
  | VHost name => host_get name k
  end.

(** [v?.[k]]: the optional-chaining read. *)
Definition js_get_opt (v : val) (k : string) : thrown + val :=
  if nullish v then inr VUndefined else js_get v k.

(** [typeof x === 'object' || typeof x === 'function'], or [x === null]:
    what the [__proto__] setter accepts as a prototype. *)
Definition is_prototype (x : val) : bool :=
  match x with
  | VNull | VArr _ | VObj _ | VHost _ => true
  | VUndefined | VBool _ | VNum _ | VStr _ => false
  end.

(** [v[k] = x] in sloppy mode; the result is the container afterwards.  On a
    primitive the assignment is dropped.  An array grows by one element when
    the index is its length; further out the assignment leaves holes, which
    the lists of the model do not have.  On an object the
    assignment updates or creates an own property, but for [__proto__] where
    the object has no own property of that name: the assignment then goes to
    the setter that [Object.prototype] holds, which replaces the prototype by
    an object or [null] and ignores any other value. *)
Definition js_set (v : val) (k : string) (x : val) : thrown + val :=
  match v with
  | VUndefined | VNull =>
      inl (TypeError ("Cannot set properties of " +:+ describe v +:+
                      " (setting '" +:+ k +:+ "')"))
  | VBool _ | VNum _ | VStr _ => inr v
  | VArr items =>
      match array_index k with
      | Some i =>
          if decide (i < length items) then inr (VArr (<[i:=x]> items))
          else if decide (i = length items) then inr (VArr (items ++ [x]))
          else inl (Unmodelled "array with holes")
      | None => inl (Unmodelled "array property write")
      end
  | VObj fields =>
      match fields !! k with
      | Some _ => inr (VObj (<[k:=x]> fields))
      | None =>
          if decide (k = "__proto__") then
            if is_prototype x then inl (Unmodelled "prototype replacement")
            else inr v
          else inr (VObj (<[k:=x]> fields))
      end
  | VHost name =>
      if is_function name && bool_decide (k ∈ restricted)
      then inl (TypeError restricted_message)
      else inl (Unmodelled "property write on a built-in object")
  end.

(** After a nested object has been mutated in place, the container that holds
    it sees the mutation: [child'] takes the place of the own property [k].
    A value that was read from the prototype chain is not held by the
    container. *)
Definition js_put_back (v : val) (k : string) (child' : val) : val :=
  match v with
  | VObj fields =>
      match fields !! k with
      | Some _ => VObj (<[k:=child']> fields)
      | None => v
      end
  | VArr items =>
      match array_index k with
      | Some i => VArr (<[i:=child']> items)
      | None => v
      end
  | _ => v
  end.

(** [s.split(sep)] for a one-character separator: never the empty list. *)
Fixpoint split (sep : ascii) (s : string) : list string :=
  match s with
  | EmptyString => [EmptyString]
  | String c s' =>
      if decide (c = sep) then EmptyString :: split sep s'
      else match split sep s' with
           | seg :: rest => String c seg :: rest
           | [] => [String c EmptyString]
           end
  end.

(** [parts.join(sep)]. *)
Fixpoint join (sep : string) (parts : list string) : string :=
  match parts with
  | [] => ""
  | [p] => p
  | p :: rest => p +:+ sep +:+ join sep rest
  end.

(** [hay.includes(needle)]. *)
Fixpoint includes (needle hay : string) : bool :=
  String.prefix needle hay ||
  match hay with
  | EmptyString => false
  | String _ hay' => includes needle hay'
  end.

(** Truthiness, as [||] and [!] test it. *)
Definition truthy (v : val) : bool :=
  match v with
  | VUndefined | VNull => false
  | VBool b => b
  | VNum n => negb (n =? 0)%Z
  | VStr s => negb (String.eqb s "")
  | VArr _ | VObj _ | VHost _ => true
  end.

(** [String(v)], as the [Error] constructor and template literals apply it.
    A number is printed in decimal, as the engine prints the integers below
    10^21 (from there on it prints an exponent; the model does not).  What a
    built-in object prints as depends on the engine; the model prints its
    name (no response body and no key holds one). *)
Fixpoint to_string (v : val) : string :=
  match v with
  | VUndefined => "undefined"
  | VNull => "null"
  | VBool b => if b then "true" else "false"
  | VNum n => pretty n
  | VStr s => s
  | VArr items =>
      join "," (map (fun x => if nullish x then "" else to_string x) items)
  | VObj _ => "[object Object]"
  | VHost name => name
  end.

(** [error.message] of an error object. *)
Definition message_of (e : thrown) : string :=
  match e with
  | TypeError message => message
  | ErrorObject _ message => message
  | Thrown _ | Unmodelled _ => ""
  end.

(** [error.name] of an error object. *)
Definition name_of (e : thrown) : string :=
  match e with
  | TypeError _ => "TypeError"
  | ErrorObject name _ => name
  | Thrown _ | Unmodelled _ => ""
  end.

End JS.

Import JS.

(** ** The state manager (frontend/modules/state-manager.js) *)

Module StateManager.

(** A subscriber is a function object; the [Set]s that hold subscribers
    compare them by identity, which is all the store ever looks at. *)
Definition callback : Type := nat.

(** One call [callback(newValue, oldValue, path)]. *)
Record invocation : Type := Invocation {
  inv_callback : callback;
  inv_newValue : val;
  inv_oldValue : val;
  inv_path : string
}.

(** The closure's variables, and what the outside observes of a run: the
    subscriber calls made, in order, and the lines written by
    [console.error].  [state] is a [const] binding to an object, so the root
    is always an object; a [Set] of callbacks is the list of its members in
    insertion order, which is the order [forEach] visits them in. *)
Record world : Type := World {
  state : gmap string val;
  subscribers : gmap string (list callback);
  calls : list invocation;
  console : list thrown
}.

(** Statements run in a state-and-exception monad: a [throw] keeps the
    mutations made before it. *)
Definition M (A : Type) : Type := world → (thrown + A) * world.

#[export] Instance M_ret : MRet M := λ A x w, (inr x, w).

#[export] Instance M_bind : MBind M := λ A B f m w,
  match m w with
  | (inl e, w') => (inl e, w')
  | (inr x, w') => f x w'
  end.

Definition lift {A} (r : thrown + A) : M A := λ w, (r, w).

Definition try_catch {A} (body : M A) (handler : thrown → M A) : M A := λ w,
  match body w with
  | (inl e, w') => handler e w'
  | (inr x, w') => (inr x, w')
  end.

Definition gets {A} (f : world → A) : M A := λ w, (inr (f w), w).

Definition put_state (st : gmap string val) : M unit := λ w,
  (inr (), World st (subscribers w) (calls w) (console w)).

Definition put_subscribers (subs : gmap string (list callback)) : M unit := λ w,
  (inr (), World (state w) subs (calls w) (console w)).

Definition console_error (e : thrown) : M unit := λ w,
  (inr (), World (state w) (subscribers w) (calls w) (console w ++ [e])).

Fixpoint forEach {A} (l : list A) (f : A → M unit) : M unit :=
  match l with
  | [] => mret ()
  | x :: l' => f x ;; forEach l' f
  end.

(** [Set.prototype.add] and [Set.prototype.delete]. *)
Definition set_add (cb : callback) (s : list callback) : list callback :=
  if decide (cb ∈ s) then s else s ++ [cb].

Definition set_delete (cb : callback) (s : list callback) : list callback :=
  filter (λ c, c ≠ cb) s.

Definition obj (l : list (string * val)) : val := VObj (list_to_map l).

(** The [state] literal. *)
Definition initial_state : gmap string val :=
  list_to_map [
    ("app", obj [("initialized", VBool false); ("online", VBool false);
                 ("lastUpdate", VNull); ("error", VNull)]);
    ("devices", obj [
       ("pc", obj [("status", VStr "disconnected");
                   ("metrics", obj [("cpu", VNull); ("ram", VNull);
                                    ("ram_total", VNull); ("disk", VNull);
                                    ("disk_total", VNull)])]);
       ("quest_3", obj [("status", VStr "disconnected");
                        ("metrics", obj [("cpu", VNull); ("ram", VNull);
                                         ("ram_total", VNull); ("temp", VNull);
                                         ("battery", VNull)])])]);
    ("ui", obj [
       ("graphsOpen", obj [("pc_cpu", VBool false); ("pc_ram", VBool false);
                           ("pc_disk", VBool false); ("quest_cpu", VBool false);
                           ("quest_ram", VBool false); ("quest_temp", VBool false);
                           ("quest_battery", VBool false)]);
       ("recording", obj [("active", VBool false); ("sessionId", VNull);
                          ("elapsed", VNum 0); ("startTime", VNull)]);
       ("diskModalOpen", VBool false)]);
    ("data", obj [
       ("histories", obj [
          ("pc", obj [("cpu", VArr []); ("ram", VArr []); ("disk", VArr [])]);
          ("quest_3", obj [("cpu", VArr []); ("ram", VArr []);
                           ("temp", VArr []); ("battery", VArr [])])]);
       ("disks", VArr [])])
  ].

Definition initial_world : world := World initial_state ∅ [] [].

(** [for (const key of keys) value = value?.[key]]. *)
Fixpoint resolve (value : val) (keys : list string) : thrown + val :=
  match keys with
  | [] => inr value
  | key :: keys' => value' ← js_get_opt value key; resolve value' keys'
  end.

(** [getState(path = null)]: [!path] holds for a missing argument and for
    the empty string. *)
Definition getState (path : option string) : M val :=
  st ← gets state;
  match path with
  | None | Some EmptyString => mret (VObj st)
  | Some p => lift (resolve (VObj st) (split "." p))
  end.

(** The walk and the assignment of [setState].  The loop follows
    [keys[0 .. n-2]] with a plain [obj[key]]; then [obj[lastKey]] is read and
    assigned.  The object reached is mutated in place and every object on the
    way down holds it, so the function returns, with the old value, the object
    it was given as it is after the assignment.  [split] never returns the
    empty list, so the first case is not reached. *)
Fixpoint assign (o : val) (keys : list string) (value : val) : thrown + (val * val) :=
  match keys with
  | [] => inr (VUndefined, o)
  | [lastKey] =>
      oldValue ← js_get o lastKey;
      o' ← js_set o lastKey value;
      mret (oldValue, o')
  | key :: keys' =>
      child ← js_get o key;
      '(oldValue, child') ← assign child keys' value;
      mret (oldValue, js_put_back o key child')
  end.

Section Store.

(** What a subscriber does when it is called: it returns ([None]) or throws.
    Subscribers do not call back into the store (those of dashboard.js only
    update the page). *)
Variable run_callback : callback → val → val → string → option thrown.

Definition invoke (cb : callback) (newValue oldValue : val) (path : string) : M unit := λ w,
  let w' := World (state w) (subscribers w)
                  (calls w ++ [Invocation cb newValue oldValue path]) (console w) in
  match run_callback cb newValue oldValue path with
  | Some e => (inl e, w')
  | None => (inr (), w')
  end.

(** [set.forEach(callback => { try { callback(a, b, path) } catch (e) {
    console.error('Subscriber error:', e) } })]. *)
Definition notify (set : list callback) (a b : val) (path : string) : M unit :=
  forEach set (λ cb, try_catch (invoke cb a b path) (λ e, console_error e)).

Definition broadcastChange (path : string) (newValue oldValue : val) : M unit :=
  (* Exact path subscribers *)
  subs ← gets subscribers;
  match subs !! path with
  | Some set => notify set newValue oldValue path
  | None => mret ()
  end ;;
  (* Parent path subscribers (for nested updates) *)
  let parts := split "." path in
  forEach (seq 1 (length parts - 1)) (λ i,
    let parentPath := join "." (take i parts) in
    subs ← gets subscribers;
    match subs !! parentPath with
    | Some set =>
        parentValue ← getState (Some parentPath);
        notify set parentValue VNull path
    | None => mret ()
    end) ;;
  (* Wildcard subscribers *)
  subs ← gets subscribers;
  match subs !! "*" with
  | Some set => notify set newValue oldValue path
  | None => mret ()
  end.

Definition setState (path : string) (value : val) : M unit :=
  let keys := split "." path in
  st ← gets state;
  '(oldValue, root) ← lift (assign (VObj st) keys value);
  match root with
  | VObj st' => put_state st'
  | _ => mret ()
  end ;;
  (* Broadcast change *)
  broadcastChange path value oldValue.

(** The function [subscribe] returns: [() => subscribers.get(path)?.delete(callback)]. *)
Definition unsubscribe (path : string) (cb : callback) : M unit :=
  subs ← gets subscribers;
  match subs !! path with
  | Some set => put_subscribers (<[path := set_delete cb set]> subs)
  | None => mret ()
  end.

Definition subscribe (path : string) (cb : callback) : M (M unit) :=
  subs ← gets subscribers;
  (if decide (is_Some (subs !! path)) then mret ()
   else put_subscribers (<[path := []]> subs)) ;;
  subs ← gets subscribers;
  match subs !! path with
  | Some set => put_subscribers (<[path := set_add cb set]> subs)
  | None => lift (inl (TypeError "Cannot read properties of undefined (reading 'add')"))
  end ;;
  mret (unsubscribe path cb).

End Store.

End StateManager.

(** ** The API client (frontend/modules/api-client.js) *)

Module APIClient.

Definition API_BASE : string := "http://localhost:5000/api".
Definition TIMEOUT_MS : N := 5000.
Definition MAX_RETRIES : nat := 3.

(** What the network gives one attempt.  [fetch] rejects with an error
    object (a [TypeError] on a network failure, an [AbortError] once the
    controller has aborted) or resolves to a response with a status;
    [response.json()] then rejects (a [SyntaxError] on a malformed body) or
    resolves to the parsed body.  The abort timer itself is real time and is
    not modelled: its effect is an attempt that ends in [AbortError]. *)
Inductive body : Type :=
| JsonRejects (name message : string)
| JsonResolves (data : val).

Inductive attempt_result : Type :=
| FetchRejects (name message : string)
| FetchResolves (status : nat) (b : body).

(** [response.ok]: the status is in the range 200-299. *)
Definition response_ok (status : nat) : bool :=
  ((200 <=? status) && (status <=? 299))%nat.

(** What a call does, as seen from outside. *)
Inductive event : Type :=
| Fetch (attempt : nat)
| Sleep (ms : nat).

(** The [try] block of one iteration: the data returned, or the exception
    that reaches the [catch]. *)
Definition try_block (r : attempt_result) : thrown + val :=
  match r with
  | FetchRejects name message => inl (ErrorObject name message)
  | FetchResolves status (JsonRejects name message) => inl (ErrorObject name message)
  | FetchResolves status (JsonResolves data) =>
      if response_ok status then inr data
      else
        err ← js_get data "error";
        message ← js_get_opt err "message";
        inl (ErrorObject "Error"
               (to_string (if truthy message then message
                           else VStr ("HTTP error " +:+ pretty status))))
  end.

(** The [for] loop over the attempts still to make.  The result is the data
    returned from inside the loop, or the value of [lastError] when the loop
    is left by [break] or by exhaustion. *)
Fixpoint attempts (network : nat → attempt_result) (todo : list nat)
    (lastError : thrown) : list event * (thrown + val) :=
  match todo with
  | [] => ([], inl lastError)
  | attempt :: todo' =>
      match try_block (network attempt) with
      | inr data => ([Fetch attempt], inr data)
      | inl error =>
          (* don't retry on client errors *)
          if includes "HTTP error 4" (message_of error) then
            ([Fetch attempt], inl error)
          (* abort error *)
          else if decide (name_of error = "AbortError") then
            ([Fetch attempt], inl (ErrorObject "Error" "Request timeout"))
          (* retry with backoff *)
          else if decide (attempt < MAX_RETRIES) then
            let '(events, result) := attempts network todo' error in
            (Fetch attempt :: Sleep (2 ^ attempt * 100) :: events, result)
          else
            let '(events, result) := attempts network todo' error in
            (Fetch attempt :: events, result)
      end
  end.

(** [request(endpoint, options)]: [network attempt] is what the [attempt]-th
    fetch of this call meets.  [lastError] starts out [undefined]; what the
    loop leaves in it is thrown. *)
Definition request (network : nat → attempt_result) : list event * (thrown + val) :=
  attempts network (seq 1 MAX_RETRIES) (Thrown VUndefined).

(** The attempts and the delays of a trace of events. *)
Definition fetches (events : list event) : list nat :=
  omap (λ e, match e with Fetch attempt => Some attempt | Sleep _ => None end) events.

Definition delays (events : list event) : list nat :=
  omap (λ e, match e with Sleep ms => Some ms | Fetch _ => None end) events.

(** The exceptions the [catch] block retries on: neither taken for a client
    error nor an abort. *)
Definition retryable (error : thrown) : Prop :=
  includes "HTTP error 4" (message_of error) = false ∧ name_of error ≠ "AbortError".

End APIClient.

(** ** The poll orchestrator (frontend/app.js) *)

Module App.

Definition POLL_INTERVAL : N := 10000.
Definition DEVICE_POLL_INTERVAL : N := 2000.

(** The [APIClient] functions the orchestrator awaits. *)
Inductive endpoint : Type :=
| Health
| Devices
| CurrentMetrics
| NetworkStats
| QuestStorage
| RecordingStatus
| ConnectionStatus
| ConnectionEvents.

(** How an awaited call settles: with the parsed body, or with the error
    [request] threw, of which the orchestrator reads the message only. *)
Inductive reply : Type :=
| Resolves (response : val)
| Rejects (message : string).

(** The functions handed to [setInterval] and [setTimeout], and [init], which
    the page runs once it has loaded. *)
Inductive handler : Type :=
| Init
| MetricsLoop
| DeviceLoop
| RetryConnection.

(** What the orchestrator does to the outside.  Calls into the dashboard, the
    page and the store are recorded and taken to return normally (the store
    paths written are those of the initial tree). *)
Inductive effect : Type :=
| Request (e : endpoint)
| StoreSet (path : string) (value : val)
| StoreSetNow (path : string)
| Collaborator (call : string)
| Console (line : string).

(** The closure's variables and the timers of the page.  A timer id is a
    positive number taken from one counter; [None] is [null]. *)
Record env : Type := Env {
  pollTimer : option nat;
  devicePollTimer : option nat;
  isPolling : bool;
  pollCounter : nat;
  intervals : gmap nat (handler * N);
  timeouts : gmap nat (handler * N);
  next_timer : nat;
  effects : list effect
}.

Definition emit (x : effect) (s : env) : env :=
  Env (pollTimer s) (devicePollTimer s) (isPolling s) (pollCounter s)
      (intervals s) (timeouts s) (next_timer s) (effects s ++ [x]).

Definition setInterval (h : handler) (ms : N) (s : env) : nat * env :=
  (next_timer s,
   Env (pollTimer s) (devicePollTimer s) (isPolling s) (pollCounter s)
       (<[next_timer s := (h, ms)]> (intervals s)) (timeouts s)
       (S (next_timer s)) (effects s)).

Definition clearInterval (id : nat) (s : env) : env :=
  Env (pollTimer s) (devicePollTimer s) (isPolling s) (pollCounter s)
      (delete id (intervals s)) (timeouts s) (next_timer s) (effects s).

Definition setTimeout (h : handler) (ms : N) (s : env) : nat * env :=
  (next_timer s,
   Env (pollTimer s) (devicePollTimer s) (isPolling s) (pollCounter s)
       (intervals s) (<[next_timer s := (h, ms)]> (timeouts s))
       (S (next_timer s)) (effects s)).

Definition set_pollTimer (v : option nat) (s : env) : env :=
  Env v (devicePollTimer s) (isPolling s) (pollCounter s)
      (intervals s) (timeouts s) (next_timer s) (effects s).

Definition set_devicePollTimer (v : option nat) (s : env) : env :=
  Env (pollTimer s) v (isPolling s) (pollCounter s)
      (intervals s) (timeouts s) (next_timer s) (effects s).

Definition set_isPolling (v : bool) (s : env) : env :=
  Env (pollTimer s) (devicePollTimer s) v (pollCounter s)
      (intervals s) (timeouts s) (next_timer s) (effects s).

Definition set_pollCounter (v : nat) (s : env) : env :=
  Env (pollTimer s) (devicePollTimer s) (isPolling s) v
      (intervals s) (timeouts s) (next_timer s) (effects s).

Definition startPolling (s : env) : env :=
  if isPolling s then s
  else
    let s := set_isPolling true s in
    let s := emit (Console "starting loops...") s in
    (* metrics *)
    let '(id, s) := setInterval MetricsLoop POLL_INTERVAL s in
    let s := set_pollTimer (Some id) s in
    (* device status (fast) *)
    let '(id, s) := setInterval DeviceLoop DEVICE_POLL_INTERVAL s in
    set_devicePollTimer (Some id) s.

Definition stopPolling (s : env) : env :=
  let s := match pollTimer s with
           | Some id => set_pollTimer None (clearInterval id s)
           | None => s
           end in
  let s := match devicePollTimer s with
           | Some id => set_devicePollTimer None (clearInterval id s)
           | None => s
           end in
  let s := set_isPolling false s in
  emit (Console "stopping loops") s.

(** An [async] function: synchronous steps on [env] between the points where
    it awaits a call. *)
Inductive proc (A : Type) : Type :=
| Ret (a : A)
| Await (e : endpoint) (k : reply → proc A)
| Sync (f : env → env) (k : proc A)
| Test (c : env → bool) (yes no : proc A).

Arguments Ret {A} a.
Arguments Await {A} e k.
Arguments Sync {A} f k.
Arguments Test {A} c yes no.

Fixpoint bind {A B} (p : proc A) (f : A → proc B) : proc B :=
  match p with
  | Ret a => f a
  | Await e k => Await e (λ r, bind (k r) f)
  | Sync g k => Sync g (bind k f)
  | Test c yes no => Test c (bind yes f) (bind no f)
  end.

#[export] Instance proc_ret : MRet proc := λ A a, Ret a.
#[export] Instance proc_bind : MBind proc := λ A B f p, bind p f.

Definition act (f : env → env) : proc unit := Sync f (Ret ()).

(** [await APIClient.get...()]: the request goes out, then the function is
    suspended until the call settles. *)
Definition call (e : endpoint) : proc reply :=
  Sync (emit (Request e)) (Await e Ret).

(** [response.success && response.data]. *)
Definition success_and_data (response : val) : thrown + bool :=
  success ← js_get response "success";
  if truthy success then data ← js_get response "data"; mret (truthy data)
  else mret false.

(** [response.success && response.data && response.data[field]], and the
    value of the field. *)
Definition success_and_field (field : string) (response : val) : thrown + option val :=
  ok ← success_and_data response;
  if ok : bool then
    data ← js_get response "data";
    x ← js_get data field;
    mret (if truthy x then Some x else None)
  else mret None.

(** [list.forEach(...)] over a value of a response: a [TypeError] when the
    value is no array.  The callback is recorded once per element and, like
    every call into the store and the dashboard, taken to return.  Where it
    throws in the code (on an element that is [null], or a device id that the
    tree does not hold), the loop ends there and the [catch] block of the
    caller runs: the model covers the responses on which it does not. *)
Definition for_each_of (list : val) (what : string) : thrown + (env → env) :=
  match list with
  | VArr items => inr (λ s, foldl (λ s _, emit (Collaborator what) s) s items)
  | _ => inl (TypeError "forEach is not a function")
  end.

(** The outcome of a health probe, given how [getHealth] settled. *)
Definition health_outcome (r : reply) : proc bool :=
  match r with
  | Resolves response =>
      match js_get response "success" with
      | inr success =>
          if truthy success then
            act (emit (Collaborator "Dashboard.showOnlineState")) ;; mret true
          else mret false
      | inl _ => act (emit (Console "Backend health check failed:")) ;; mret false
      end
  | Rejects _ => act (emit (Console "Backend health check failed:")) ;; mret false
  end.

Definition checkBackendHealth : proc bool :=
  r ← call Health; health_outcome r.

Definition pollConnectionEvents : proc unit :=
  r ← call ConnectionEvents;
  match r with
  | Resolves response =>
      match success_and_field "events" response with
      | inr (Some events) =>
          match for_each_of events "handleConnectionEvent" with
          | inr f => act f
          | inl _ => mret ()
          end
      | inr None | inl _ => mret ()
      end
  | Rejects _ => mret ()
  end.

Definition pollConnectionStatus : proc unit :=
  r ← call ConnectionStatus;
  match r with
  | Resolves response =>
      match success_and_data response with
      | inr ok =>
          (if ok then act (emit (Collaborator "updateConnectionIconsEnhanced"))
           else mret ()) ;;
          (* Also poll connection events for notifications *)
          pollConnectionEvents
      | inl _ => mret ()
      end
  | Rejects _ => mret ()
  end.

Definition pollDeviceStatus : proc unit :=
  r ← call Devices;
  match r with
  | Resolves response =>
      match success_and_field "devices" response with
      | inr (Some devices) =>
          match for_each_of devices "updateDeviceStatus" with
          | inr f => act f ;; pollConnectionStatus
          | inl _ => mret ()
          end
      | inr None => pollConnectionStatus
      | inl _ => mret ()
      end
  | Rejects _ => mret ()
  end.

(** The function [pollMetrics] hands to [setTimeout]. *)
Definition retry_connection : proc unit :=
  reconnected ← checkBackendHealth;
  if reconnected : bool then
    act (emit (Collaborator "hideConnectionBanner")) ;;
    act startPolling
  else mret ().

(** What [pollMetrics] does once the backend has been probed. *)
Definition offline_unless (online : bool) : proc unit :=
  if online then mret ()
  else
    act (emit (Collaborator "Dashboard.showOfflineState")) ;;
    act (emit (Collaborator "showConnectionBanner")) ;;
    act stopPolling ;;
    (* Retry connection *)
    act (λ s, snd (setTimeout RetryConnection 5000 s)).

(** The [catch] block of [pollMetrics]. *)
Definition on_polling_error (message : string) : proc unit :=
  act (emit (Console "Polling error:")) ;;
  act (emit (StoreSet "app.error" (VStr message))) ;;
  (* Check if backend is still alive *)
  online ← checkBackendHealth;
  offline_unless online.

Definition pollMetrics : proc unit :=
  r ← call CurrentMetrics;
  match r with
  | Resolves response =>
      match success_and_data response with
      | inr true =>
          act (emit (Collaborator "Dashboard.updateMetrics")) ;;
          act (emit (StoreSetNow "app.lastUpdate")) ;;
          act (emit (StoreSet "app.error" VNull))
      | inr false => mret ()
      | inl error => on_polling_error (message_of error)
      end
  | Rejects message => on_polling_error message
  end.

Definition pollNetworkStats : proc unit :=
  r ← call NetworkStats;
  match r with
  | Resolves response =>
      match success_and_data response with
      | inr true => act (emit (Collaborator "Dashboard.updateNetworkStats"))
      | inr false => mret ()
      | inl _ => act (emit (Console "Network stats poll failed"))
      end
  | Rejects _ => act (emit (Console "Network stats poll failed"))
  end.

Definition pollQuestStorage : proc unit :=
  r ← call QuestStorage;
  match r with
  | Resolves response =>
      match success_and_data response with
      | inr true => act (emit (Collaborator "Dashboard.updateQuestStorage"))
      | inr false => mret ()
      | inl _ => act (emit (Console "Quest storage poll failed"))
      end
  | Rejects _ => act (emit (Console "Quest storage poll failed"))
  end.

(** [pollCounter++; if (pollCounter % 6 === 0) await pollQuestStorage()]. *)
Definition storage_cycle : proc unit :=
  act (λ s, set_pollCounter (S (pollCounter s)) s) ;;
  Test (λ s, pollCounter s mod 6 =? 0) pollQuestStorage (mret ()).

(** The function [startPolling] hands to the first [setInterval]. *)
Definition metrics_loop : proc unit :=
  pollMetrics ;;
  pollNetworkStats ;;
  (* storage (every 60s) *)
  storage_cycle.

(** The function [startPolling] hands to the second [setInterval]. *)
Definition device_loop : proc unit := pollDeviceStatus.

(** [if (devicesResponse.success && devicesResponse.data)
    devicesResponse.data.devices.forEach(...)]. *)
Definition initial_devices (devicesResponse : val) : thrown + (env → env) :=
  ok ← success_and_data devicesResponse;
  if ok : bool then
    data ← js_get devicesResponse "data";
    devices ← js_get data "devices";
    for_each_of devices "updateDeviceStatus"
  else mret (λ s : env, s).

Definition fetchInitialData : proc unit :=
  let failed := act (emit (Console "init fetch failed:")) in
  r ← call Devices;
  match r with
  | Rejects _ => failed
  | Resolves devicesResponse =>
      match initial_devices devicesResponse with
      | inl _ => failed
      | inr f =>
          act f ;;
          pollConnectionStatus ;;
          pollMetrics ;;
          pollNetworkStats ;;
          pollQuestStorage ;;
          r ← call RecordingStatus;
          match r with
          | Rejects _ => failed
          | Resolves recordingResponse =>
              match success_and_data recordingResponse with
              | inr true => act (emit (Collaborator "StateManager.updateRecording"))
              | inr false => mret ()
              | inl _ => failed
              end
          end
      end
  end.

Definition init : proc unit :=
  act (emit (Console "booting...")) ;;
  act (emit (Collaborator "showLoadingOverlay")) ;;
  act (emit (Collaborator "Dashboard.init")) ;;
  online ← checkBackendHealth;
  if online : bool then
    act (emit (Collaborator "updateLoadingText")) ;;
    fetchInitialData ;;
    act (emit (Collaborator "hideLoadingOverlay")) ;;
    act startPolling ;;
    act (emit (Collaborator "setupConnectionTooltip")) ;;
    act (emit (Collaborator "setupSwitchButton")) ;;
    act (emit (StoreSet "app.initialized" (VBool true))) ;;
    act (emit (Console "we are live"))
  else
    act (emit (Collaborator "updateLoadingText")) ;;
    act (emit (Console "backend is dead")) ;;
    act (λ s, snd (setTimeout Init 5000 s)).

Definition handler_proc (h : handler) : proc unit :=
  match h with
  | Init => init
  | MetricsLoop => metrics_loop
  | DeviceLoop => device_loop
  | RetryConnection => retry_connection
  end.

(** *** The event loop *)

(** An [async] function suspended at an [await]. *)
Record suspended : Type := Suspended {
  waits_for : endpoint;
  resume : reply → proc unit
}.

(** The page: the orchestrator's variables and timers, and the functions in
    flight. *)
Record system : Type := System {
  sys_env : env;
  tasks : gmap nat suspended;
  next_task : nat
}.

(** Runs a function up to its next [await]. *)
Fixpoint run (p : proc unit) (s : env) : env * option suspended :=
  match p with
  | Ret _ => (s, None)
  | Await e k => (s, Some (Suspended e k))
  | Sync f k => run k (f s)
  | Test c yes no => if c s then run yes s else run no s
  end.

(** Runs task [id] from [p] on: it stays in flight when it awaits again. *)
Definition settle (id : nat) (p : proc unit) (σ : system) : system :=
  let '(s, t) := run p (sys_env σ) in
  System s
         (match t with
          | Some t => <[id := t]> (tasks σ)
          | None => delete id (tasks σ)
          end)
         (next_task σ).

Definition spawn (h : handler) (σ : system) : system :=
  settle (next_task σ) (handler_proc h)
         (System (sys_env σ) (tasks σ) (S (next_task σ))).

Definition drop_timeout (id : nat) (s : env) : env :=
  Env (pollTimer s) (devicePollTimer s) (isPolling s) (pollCounter s)
      (intervals s) (delete id (timeouts s)) (next_timer s) (effects s).

(** What the event loop can run next: the callback of a live interval timer,
    the callback of a pending timeout, or the continuation of a function whose
    awaited call has settled.  Time is abstracted: any live timer may be the
    next to fire. *)
Inductive label : Type :=
| IntervalFires (id : nat)
| TimeoutFires (id : nat)
| Settles (task : nat) (r : reply).

Definition step (σ : system) (l : label) : option system :=
  match l with
  | IntervalFires id =>
      match intervals (sys_env σ) !! id with
      | Some (h, _) => Some (spawn h σ)
      | None => None
      end
  | TimeoutFires id =>
      match timeouts (sys_env σ) !! id with
      | Some (h, _) =>
          Some (spawn h (System (drop_timeout id (sys_env σ)) (tasks σ) (next_task σ)))
      | None => None
      end
  | Settles t r =>
      match tasks σ !! t with
      | Some task => Some (settle t (resume task r) σ)
      | None => None
      end
  end.

Fixpoint steps (σ : system) (ls : list label) : option system :=
  match ls with
  | [] => Some σ
  | l :: ls' =>
      match step σ l with
      | Some σ' => steps σ' ls'
      | None => None
      end
  end.

(** The page as loaded, and once [init] has been called. *)
Definition loaded : system := System (Env None None false 0 ∅ ∅ 1 []) ∅ 0.

Definition boot : system := spawn Init loaded.

(** The page after the events [ls], counted from the call of [init]. *)
Definition after (ls : list label) : system := default boot (steps boot ls).

Inductive reachable : system → Prop :=
| reachable_boot : reachable boot
| reachable_step σ l σ' : reachable σ → step σ l = Some σ' → reachable σ'.

(** The requests a step sends out: those among the effects it adds. *)
Definition requests_of (es : list effect) : list endpoint :=
  omap (λ x, match x with Request e => Some e | _ => None end) es.

Definition new_effects (σ σ' : system) : list effect :=
  drop (length (effects (sys_env σ))) (effects (sys_env σ')).

(** A probe answers "online" when it resolves with a truthy [success]. *)
Definition health_ok (r : reply) : bool :=
  match r with
  | Resolves response =>
      match js_get response "success" with
      | inr success => truthy success
      | inl _ => false
      end
  | Rejects _ => false
  end.

(** [pollMetrics] waiting for the probe that follows a failed poll.  Both
    callers of [pollMetrics] go on with [pollNetworkStats]; [rest] is what
    they do after that. *)
Definition probe_after_failed_poll (rest : proc unit) : suspended :=
  Suspended Health (λ r,
    (online ← health_outcome r; offline_unless online) ;;
    pollNetworkStats ;;
    rest).

(** The reconnect callback waiting for its probe. *)
Definition reconnect_probe : suspended :=
  Suspended Health (λ r,
    reconnected ← health_outcome r;
    if reconnected : bool then
      act (emit (Collaborator "hideConnectionBanner")) ;;
      act startPolling
    else mret ()).

(** The two poll streams run, and nothing else is on an interval timer. *)
Definition streams_running (s : env) : Prop :=
  ∃ a b, a ≠ b ∧
    pollTimer s = Some a ∧ devicePollTimer s = Some b ∧
    intervals s = {[ a := (MetricsLoop, POLL_INTERVAL);
                     b := (DeviceLoop, DEVICE_POLL_INTERVAL) ]}.

(** No poll stream runs. *)
Definition streams_stopped (s : env) : Prop :=
  pollTimer s = None ∧ devicePollTimer s = None ∧ intervals s = ∅.

(** [isPolling] tells which of the two holds, and timer ids are fresh. *)
Definition consistent (s : env) : Prop :=
  (if isPolling s then streams_running s else streams_stopped s) ∧
  (∀ id, is_Some (intervals s !! id) → id < next_timer s) ∧
  (∀ id, is_Some (timeouts s !! id) → id < next_timer s).

(** Every synchronous step of a function keeps the property [P] of [env]. *)
Inductive preserves (P : env → Prop) {A} : proc A → Prop :=
| preserves_ret a : preserves P (Ret a)
| preserves_await e k : (∀ r, preserves P (k r)) → preserves P (Await e k)
| preserves_sync f k :
    (∀ s, P s → P (f s)) → preserves P k → preserves P (Sync f k)
| preserves_test c yes no :
    preserves P yes → preserves P no → preserves P (Test c yes no).

(** The state of the page is sound: [env] is consistent and the functions in
    flight keep it so. *)
Definition sound (σ : system) : Prop :=
  consistent (sys_env σ) ∧
  ∀ id t, tasks σ !! id = Some t → ∀ r, preserves consistent (resume t r).

End App.

(** ** Reference definitions for the store's broadcast *)

Module StoreSpec.
Import StateManager.

(** The members of the [Set] registered at [path] (none when the [Map] has no
    entry). *)
Definition subscribers_at (w : world) (path : string) : list callback :=
  default [] (subscribers w !! path).

(** Every [Set] holds a function object at most once. *)
Definition sets_ok (w : world) : Prop :=
  ∀ path set, subscribers w !! path = Some set → NoDup set.

(** The non-empty proper prefixes of a list, shortest first. *)
Fixpoint proper_prefixes {A} (l : list A) : list (list A) :=
  match l with
  | [] => []
  | x :: rest =>
      match rest with
      | [] => []
      | _ :: _ => [x] :: map (cons x) (proper_prefixes rest)
      end
  end.

(** The strict ancestors of a path, shallowest first. *)
Definition strict_ancestors (path : string) : list string :=
  map (join ".") (proper_prefixes (split "." path)).

(** The spec's reading of a path, written without [getState]: one step reads
    a property, and gives [undefined] where there is nothing to read from or
    nothing to read. *)
Definition property (v : val) (k : string) : val :=
  match v with
  | VUndefined | VNull => VUndefined
  | _ => match js_get v k with
         | inr x => x
         | inl _ => VUndefined
         end
  end.

(** The tree followed along the segments of [path]. *)
Definition follow (st : gmap string val) (path : string) : val :=
  foldl property (VObj st) (split "." path).

(** The value at [path] in the tree [st]: the whole tree for the empty path
    (which stands for no path), else the tree followed along the segments of
    the path. *)
Definition value_at (st : gmap string val) (path : string) : val :=
  if decide (path = "") then VObj st else follow st path.

(** What [getState(path)] evaluates to, as a function of the tree. *)
Definition read_at (st : gmap string val) (path : string) : thrown + val :=
  if decide (path = "") then inr (VObj st) else resolve (VObj st) (split "." path).

(** The values that hold other values. *)
Definition container (v : val) : bool :=
  match v with
  | VArr _ | VObj _ => true
  | _ => false
  end.

(** The value that a container holds under [k] as a property of its own. *)
Definition held (v : val) (k : string) : option val :=
  match v with
  | VObj fields => fields !! k
  | VArr items => i ← array_index k; items !! i
  | _ => None
  end.

(** One tier of a broadcast: the callbacks of a set, in order, all with the
    same arguments. *)
Definition tier (set : list callback) (a b : val) (path : string) : list invocation :=
  map (λ cb, Invocation cb a b path) set.

Definition exact_tier (w : world) (path : string) (value oldValue : val) : list invocation :=
  tier (subscribers_at w path) value oldValue path.

Definition ancestor_tier (w : world) (path : string) : list invocation :=
  flat_map (λ parent, tier (subscribers_at w parent) (value_at (state w) parent) VNull path)
           (strict_ancestors path).

Definition wildcard_tier (w : world) (path : string) (value oldValue : val) : list invocation :=
  tier (subscribers_at w "*") value oldValue path.

Definition broadcast_calls (w : world) (path : string) (value oldValue : val) : list invocation :=
  exact_tier w path value oldValue ++ ancestor_tier w path ++ wildcard_tier w path value oldValue.

(** The exceptions a sequence of calls raises, in order. *)
Definition errors_of (run : callback → val → val → string → option thrown)
    (invs : list invocation) : list thrown :=
  omap (λ i, run (inv_callback i) (inv_newValue i) (inv_oldValue i) (inv_path i)) invs.

(** The world after the calls [invs] have been made and their exceptions
    logged. *)
Definition after_calls (run : callback → val → val → string → option thrown)
    (invs : list invocation) (w : world) : world :=
  World (state w) (subscribers w) (calls w ++ invs) (console w ++ errors_of run invs).

(** A subscriber that never throws. *)
Definition quiet : callback → val → val → string → option thrown := λ _ _ _ _, None.

(** The calls of one callback within a list of calls. *)
Definition calls_of (cb : callback) (invs : list invocation) : list invocation :=
  filter (λ i, inv_callback i = cb) invs.

(** A segment of [keys] is missing from the tree when the value reached
    before it has no such property. *)
Definition missing_segment (st : gmap string val) (keys : list string) : Prop :=
  ∃ pre key post parent,
    keys = pre ++ key :: post ∧
    resolve (VObj st) pre = inr parent ∧
    js_get_opt parent key = inr VUndefined.


(** The calls a [setState] has added to those of [w]. *)
Definition new_calls (w w' : world) : list invocation :=
  drop (length (calls w)) (calls w').

(** No proper prefix of [keys] leads to a built-in object: the walk reads
    its segments from values of the tree, from [undefined] or from [null]. *)
Definition reads_in_tree (st : gmap string val) (keys : list string) : Prop :=
  ∀ pre post name, keys = pre ++ post → post ≠ [] →
    resolve (VObj st) pre ≠ inr (VHost name).

End StoreSpec.

(** ** The update functions of the state manager *)

Module StateHelpers.
Import StateManager.

(** [{...v}]: the own enumerable properties of a value.  An array and a
    string spread their elements under the index keys; the other primitives,
    [null], [undefined] and the built-in objects (whose own properties are
    not enumerable) spread nothing. *)
Definition spread (v : val) : gmap string val :=
  match v with
  | VObj fields => fields
  | VArr items => list_to_map (imap (λ i x, (pretty i, x)) items)
  | VStr s =>
      list_to_map (imap (λ i c, (pretty i, VStr (String c EmptyString)))
                        (list_ascii_of_string s))
  | VUndefined | VNull | VBool _ | VNum _ | VHost _ => ∅
  end.

(** [a ?? b]: [b] is evaluated only when [a] is [null] or [undefined]. *)
Definition coalesce (a : val) (b : thrown + val) : thrown + val :=
  if nullish a then b else inr a.

(** [s.replace(c, '')] for a one-character pattern: the first occurrence
    goes. *)
Fixpoint remove_first (c : ascii) (s : string) : string :=
  match s with
  | EmptyString => EmptyString
  | String c' s' => if decide (c' = c) then s' else String c' (remove_first c s')
  end.

(** The keys [updateDeviceMetrics] writes, in the order of its object
    literal. *)
Definition metric_keys : list string :=
  ["cpu"; "ram"; "ram_total"; "temp"; "battery"; "disk"; "disk_total"].

(** The properties [key: metrics[key] ?? current[key]] of the object literal,
    added one after the other to the properties spread from [current]. *)
Fixpoint merge_metrics (metrics current : val) (keys : list string)
    (fields : gmap string val) : thrown + gmap string val :=
  match keys with
  | [] => inr fields
  | key :: keys' =>
      m ← js_get metrics key;
      x ← coalesce m (js_get current key);
      merge_metrics metrics current keys' (<[key := x]> fields)
  end.

Section Helpers.

Variable run_callback : callback → val → val → string → option thrown.

Definition updateDeviceMetrics (deviceId : string) (metrics : val) : M unit :=
  if negb (truthy metrics) then mret ()
  else
    let path := "devices." +:+ deviceId +:+ ".metrics" in
    current ← getState (Some path);
    fields ← lift (merge_metrics metrics current metric_keys (spread current));
    setState run_callback path (VObj fields) ;;
    setState run_callback ("devices." +:+ deviceId +:+ ".status") (VStr "connected").

Definition updateDeviceStatus (deviceId : string) (status : val) : M unit :=
  setState run_callback ("devices." +:+ deviceId +:+ ".status") status.

Definition toggleGraph (deviceId metric : string) : M bool :=
  let key := remove_first "_" deviceId +:+ "_" +:+ metric in
  let path := "ui.graphsOpen." +:+ key in
  current ← getState (Some path);
  setState run_callback path (VBool (negb (truthy current))) ;;
  mret (negb (truthy current)).

Definition updateRecording (recording : val) : M unit :=
  current ← getState (Some "ui.recording");
  setState run_callback "ui.recording" (VObj (spread recording ∪ spread current)).

Definition updateHistory (deviceId metric : string) (data : val) : M unit :=
  setState run_callback ("data.histories." +:+ deviceId +:+ "." +:+ metric) data.

Definition updateDisks (disks : val) : M unit :=
  setState run_callback "data.disks" disks.

(** One call into the store from outside. *)
Inductive operation : Type :=
| Subscribe (path : string) (cb : callback)
| Unsubscribe (path : string) (cb : callback)
| SetState (path : string) (value : val)
| UpdateDeviceMetrics (deviceId : string) (metrics : val)
| UpdateDeviceStatus (deviceId : string) (status : val)
| ToggleGraph (deviceId metric : string)
| UpdateRecording (recording : val)
| UpdateHistory (deviceId metric : string) (data : val)
| UpdateDisks (disks : val).

(** The world after the call, whether it returned or threw. *)
Definition perform (op : operation) (w : world) : world :=
  match op with
  | Subscribe path cb => snd (subscribe path cb w)
  | Unsubscribe path cb => snd (unsubscribe path cb w)
  | SetState path value => snd (setState run_callback path value w)
  | UpdateDeviceMetrics deviceId metrics => snd (updateDeviceMetrics deviceId metrics w)
  | UpdateDeviceStatus deviceId status => snd (updateDeviceStatus deviceId status w)
  | ToggleGraph deviceId metric => snd (toggleGraph deviceId metric w)
  | UpdateRecording recording => snd (updateRecording recording w)
  | UpdateHistory deviceId metric data => snd (updateHistory deviceId metric data w)
  | UpdateDisks disks => snd (updateDisks disks w)
  end.

End Helpers.


(** [v[k]] for a value that is neither [null] nor [undefined]. *)
Definition member (v : val) (k : string) : val :=
  match js_get v k with
  | inr x => x
  | inl _ => VUndefined
  end.

(** The properties of an object (none for any other value). *)
Definition fields_of (v : val) : gmap string val :=
  match v with
  | VObj fields => fields
  | _ => ∅
  end.

(** The character [c] does not occur in [s]. *)
Fixpoint free_of (c : ascii) (s : string) : Prop :=
  match s with
  | EmptyString => True
  | String a s' => a ≠ c ∧ free_of c s'
  end.

End StateHelpers.

(** ** Vocabulary for the further properties of the client and the
    orchestrator *)

Module ClientSpec.

(** The exceptions that are error objects, as against arbitrary thrown
    values. *)
Definition is_error (e : thrown) : bool :=
  match e with
  | TypeError _ | ErrorObject _ _ => true
  | Thrown _ | Unmodelled _ => false
  end.

End ClientSpec.

Module AppSpec.
Import App.

(** The variables and timers that steer the polling. *)
Definition control (s : env) :
    option nat * option nat * bool * nat * gmap nat (handler * N) * gmap nat (handler * N) * nat :=
  (pollTimer s, devicePollTimer s, isPolling s, pollCounter s,
   intervals s, timeouts s, next_timer s).

(** The requests sent between [s] and the later [s']. *)
Definition sent_since (s s' : env) : list endpoint :=
  requests_of (drop (length (effects s)) (effects s')).

(** [segment p q]: [q] is what the [async] function [p] has to run from its
    start or from one of its awaits on, whatever the page looked like on the
    way there and however the awaited calls settled. *)
Inductive segment (p : proc unit) : proc unit → Prop :=
| segment_start : segment p p
| segment_resume q s t r :
    segment p q → snd (run q s) = Some t → segment p (resume t r).

End AppSpec.

(** * Verification of the state manager *)

Section StoreFacts.
Import StateManager StoreSpec StateHelpers.

(** ** Paths as strings *)

Lemma split_nonempty sep s : split sep s ≠ [].
Proof.
  destruct s as [|c s]; simpl; [done|].
  case_decide; [done|]. by destruct (split sep s).
Qed.

Lemma append_assoc (a b c : string) : (a +:+ b) +:+ c = a +:+ b +:+ c.
Proof. induction a as [|x a IH]; [done|]. exact (f_equal (String x) IH). Qed.

Lemma join_cons_char sep a seg rest :
  join sep (String a seg :: rest) = String a (join sep (seg :: rest)).
Proof. by destruct rest. Qed.

Lemma join_cons sep p rest :
  rest ≠ [] → join sep (p :: rest) = p +:+ sep +:+ join sep rest.
Proof. by destruct rest. Qed.

Lemma join_app sep l1 l2 :
  l1 ≠ [] → l2 ≠ [] →
  join sep (l1 ++ l2) = join sep l1 +:+ sep +:+ join sep l2.
Proof.
  intros H1 H2. induction l1 as [|p [|q l1] IH]; [done| |].
  - simpl app. by rewrite join_cons.
  - change ((p :: q :: l1) ++ l2) with (p :: (q :: l1) ++ l2).
    rewrite !join_cons by done. rewrite IH by done. by rewrite !append_assoc.
Qed.

(** Joining what [split] returns gives the string back. *)
Lemma join_split c s : join (String c "") (split c s) = s.
Proof.
  induction s as [|a s IH]; [done|]. simpl. case_decide as Ha.
  - subst. rewrite join_cons by apply split_nonempty. by rewrite IH.
  - destruct (split c s) as [|seg rest] eqn:Hs; [by apply split_nonempty in Hs|].
    by rewrite join_cons_char, IH.
Qed.

Lemma split_free c seg : free_of c seg → split c seg = [seg].
Proof.
  induction seg as [|a seg IH]; [done|]. intros [Ha Hseg]. simpl.
  rewrite decide_False by done. by rewrite IH.
Qed.

Lemma split_append c seg rest :
  free_of c seg → split c (seg +:+ String c rest) = seg :: split c rest.
Proof.
  induction seg as [|a seg IH]; simpl.
  - intros _. by rewrite decide_True.
  - intros [Ha Hseg]. rewrite decide_False by done. by rewrite IH.
Qed.

(** The segments [split] returns are free of the separator. *)
Lemma split_segments_free c s : Forall (free_of c) (split c s).
Proof.
  induction s as [|a s IH]; simpl; [by repeat constructor|].
  case_decide as Ha.
  - by constructor.
  - destruct (split c s) as [|seg rest]; [by repeat constructor|].
    inversion IH; subst. by constructor.
Qed.

(** Splitting the join of separator-free segments gives the segments back. *)
Lemma split_join c parts :
  parts ≠ [] → Forall (free_of c) parts → split c (join (String c "") parts) = parts.
Proof.
  intros Hne Hfree. induction Hfree as [|p [|q rest] Hp Hrest IH]; [done| |].
  - by apply split_free.
  - rewrite join_cons by done. change (String c "" +:+ ?x) with (String c x).
    rewrite split_append by done. by rewrite IH.
Qed.

Lemma take_nonempty {A} (l : list A) i : 0 < i → l ≠ [] → take i l ≠ [].
Proof. destruct i, l; simpl; try done. lia. Qed.

(** A parent path splits into the segments it was joined from. *)
Lemma split_parent path i :
  0 < i → split "." (join "." (take i (split "." path))) = take i (split "." path).
Proof.
  intros Hi. apply split_join.
  - apply take_nonempty; [done|apply split_nonempty].
  - apply Forall_take, split_segments_free.
Qed.

(** ** Property reads *)

Lemma beyond_cases κ k : beyond κ k = VUndefined ∨ ∃ name, beyond κ k = VHost name.
Proof. unfold beyond, inherited. repeat case_decide; simpl; eauto. Qed.

Lemma beyond_loose κ k : container (beyond κ k) = false.
Proof. by destruct (beyond_cases κ k) as [->|[name ->]]. Qed.

Lemma host_get_cases name k :
  host_get name k = inr VUndefined ∨
  host_get name k = inl (TypeError restricted_message) ∨
  host_get name k = inl (Unmodelled "property of a built-in object").
Proof.
  unfold host_get. destruct (is_function name && bool_decide (k ∈ restricted)); [auto|].
  case_decide; auto.
Qed.

Lemma array_index_length : array_index "length" = None.
Proof. reflexivity. Qed.

(** A read on a value of the tree returns. *)
Lemma js_get_tree v k :
  nullish v = false → (∀ name, v ≠ VHost name) → ∃ x, js_get v k = inr x.
Proof.
  intros Hn Hhost. destruct v; try done; simpl; eauto;
    try (repeat (case_decide || case_match); eauto).
  by destruct (Hhost name).
Qed.

Lemma js_get_opt_tree v k :
  (∀ name, v ≠ VHost name) → ∃ x, js_get_opt v k = inr x.
Proof.
  intros Hhost. unfold js_get_opt. destruct (nullish v) eqn:Hn; [eauto|].
  by apply js_get_tree.
Qed.

Lemma js_get_ok_opt o k x : js_get o k = inr x → js_get_opt o k = inr x.
Proof. unfold js_get_opt. by destruct o. Qed.

Lemma js_get_nullish o k : nullish o = true → ∃ msg, js_get o k = inl (TypeError msg).
Proof. destruct o; try done; simpl; eauto. Qed.

Lemma js_get_not_nullish o k x : js_get o k = inr x → nullish o = false.
Proof. by destruct o. Qed.


Lemma js_get_own fields k x : fields !! k = Some x → js_get (VObj fields) k = inr x.
Proof. intros Hk. simpl. by rewrite Hk. Qed.

Lemma property_read v k x : js_get_opt v k = inr x → property v k = x.
Proof.
  unfold js_get_opt, property. destruct v; simpl; try (by intros [= <-]);
    by intros ->.
Qed.

(** What a container holds is what it reads. *)
Lemma held_get o k c : held o k = Some c → js_get o k = inr c.
Proof.
  destruct o; try done; simpl.
  - destruct (array_index k) as [i|] eqn:Hi; [|done]. simpl. intros Hc.
    rewrite decide_False by (intros ->; by rewrite array_index_length in Hi).
    by rewrite Hc.
  - by intros ->.
Qed.

Lemma held_put_back o k c c' :
  held o k = Some c → js_get (js_put_back o k c') k = inr c'.
Proof.
  destruct o; try done; simpl.
  - destruct (array_index k) as [i|] eqn:Hi; [|done]. simpl. intros Hc.
    rewrite decide_False by (intros ->; by rewrite array_index_length in Hi).
    rewrite Hi, list_lookup_insert_eq; [done|]. by eapply lookup_lt_Some.
  - intros ->. simpl. by rewrite lookup_insert_eq.
Qed.

Lemma unheld_put_back o k c' : held o k = None → js_put_back o k c' = o.
Proof.
  destruct o; try done; simpl.
  - destruct (array_index k) as [i|]; [|done]. simpl. intros Hnone.
    rewrite list_insert_ge; [done|]. by apply lookup_ge_None.
  - by intros ->.
Qed.

(** What a value reads but does not hold is no container. *)
Lemma unheld_loose o k c : held o k = None → js_get o k = inr c → container c = false.
Proof.
  destruct o; try done; simpl.
  - intros _ [= <-]. apply beyond_loose.
  - intros _ [= <-]. apply beyond_loose.
  - intros _. repeat (case_decide || case_match); intros [= <-];
      done || apply beyond_loose.
  - destruct (array_index k) as [i|]; simpl.
    + intros Hnone. case_decide; [by intros [= <-]|]. rewrite Hnone.
      intros [= <-]. apply beyond_loose.
    + intros _. case_decide; intros [= <-]; [done|apply beyond_loose].
  - intros -> [= <-]. apply beyond_loose.
  - intros _. destruct (host_get_cases name k) as [->|[->| ->]]; [|done..].
    by intros [= <-].
Qed.

(** ** Walks *)

Lemma resolve_step o k keys :
  resolve o (k :: keys) = (value' ← js_get_opt o k; resolve value' keys).
Proof. reflexivity. Qed.

Lemma result_bind_inr {A B} (f : A → thrown + B) x : (inr x ≫= f) = f x.
Proof. reflexivity. Qed.

Lemma result_bind_inl {A B} (f : A → thrown + B) e : (inl e ≫= f) = inl e.
Proof. reflexivity. Qed.

Lemma resolve_app v pre post x :
  resolve v pre = inr x → resolve v (pre ++ post) = resolve x post.
Proof.
  revert v. induction pre as [|k pre IH]; intros v; simpl.
  - by intros [= ->].
  - destruct (js_get_opt v k) as [e|y]; simpl; [done|]. apply IH.
Qed.


Lemma resolve_undefined keys : resolve VUndefined keys = inr VUndefined.
Proof. induction keys as [|k keys IH]; simpl; [done|]. apply IH. Qed.

Lemma resolve_nullish v keys :
  nullish v = true → keys ≠ [] → resolve v keys = inr VUndefined.
Proof.
  intros Hn Hk. destruct keys as [|k keys]; [done|]. simpl.
  unfold js_get_opt. rewrite Hn. simpl. apply resolve_undefined.
Qed.

Lemma resolve_object_step fields k keys :
  resolve (VObj fields) (k :: keys) =
    resolve (default (beyond KObj k) (fields !! k)) keys.
Proof. reflexivity. Qed.

Lemma resolve_own fields k keys x :
  fields !! k = Some x → resolve (VObj fields) (k :: keys) = resolve x keys.
Proof. intros Hk. by rewrite resolve_object_step, Hk. Qed.

(** A walk that reads from values of the tree only returns. *)
Lemma resolve_in_tree keys : ∀ v,
  (∀ pre post name, keys = pre ++ post → post ≠ [] → resolve v pre ≠ inr (VHost name)) →
  ∃ x, resolve v keys = inr x.
Proof.
  induction keys as [|k keys IH]; intros v Htree; [by exists v|].
  rewrite resolve_step.
  destruct (js_get_opt_tree v k) as [x Hx].
  { intros name ->. by apply (Htree [] (k :: keys) name). }
  rewrite Hx, result_bind_inr. apply IH. intros pre post name Heq Hpost.
  specialize (Htree (k :: pre) post name). rewrite resolve_step, Hx in Htree.
  apply Htree; [by rewrite Heq|done].
Qed.

(** A walk throws only where it reads from a built-in object. *)
Lemma resolve_throws keys : ∀ v e,
  resolve v keys = inl e →
  ∃ pre key post name,
    keys = pre ++ key :: post ∧ resolve v pre = inr (VHost name) ∧
    host_get name key = inl e.
Proof.
  induction keys as [|k keys IH]; intros v e; [done|].
  rewrite resolve_step.
  destruct (js_get_opt v k) as [e'|x] eqn:Hx.
  - intros [= <-]. unfold js_get_opt in Hx.
    destruct (nullish v) eqn:Hn; [done|].
    destruct v; try done; simpl in Hx;
      try (repeat (case_decide || case_match); done).
    by exists [], k, keys, name.
  - rewrite result_bind_inr. intros He.
    destruct (IH _ _ He) as (pre & key & post & name & -> & Hpre & Hhost).
    exists (k :: pre), key, post, name. split_and!; [done| |done].
    by rewrite resolve_step, Hx.
Qed.

Lemma resolve_follow keys : ∀ v x, resolve v keys = inr x → foldl property v keys = x.
Proof.
  induction keys as [|k keys IH]; intros v x; simpl; [by intros [= ->]|].
  destruct (js_get_opt v k) as [e|y] eqn:Hy; [done|].
  rewrite result_bind_inr, (property_read _ _ _ Hy). apply IH.
Qed.

(** ** [getState] *)

Lemma getState_read w path : getState (Some path) w = (read_at (state w) path, w).
Proof. unfold getState, read_at. destruct path; reflexivity. Qed.

Lemma getState_world path w : snd (getState path w) = w.
Proof.
  destruct path as [path|]; [|done]. by rewrite getState_read.
Qed.

Lemma read_at_value st path x : read_at st path = inr x → x = value_at st path.
Proof.
  unfold read_at, value_at, follow. case_decide; [by intros [= <-]|].
  intros Hres. symmetry. by apply resolve_follow.
Qed.

Lemma getState_value_at w path x w' :
  getState (Some path) w = (inr x, w') → x = value_at (state w) path ∧ w' = w.
Proof.
  rewrite getState_read. intros [= Hread <-]. split; [|done].
  by apply read_at_value.
Qed.

(** ** The broadcast *)

Lemma after_calls_nil run w : after_calls run [] w = w.
Proof. destruct w. unfold after_calls. simpl. by rewrite !app_nil_r. Qed.

Lemma after_calls_app run l1 l2 w :
  after_calls run l2 (after_calls run l1 w) = after_calls run (l1 ++ l2) w.
Proof.
  unfold after_calls, errors_of. simpl. by rewrite omap_app, !app_assoc.
Qed.

Lemma subscribers_at_after_calls run l w path :
  subscribers_at (after_calls run l w) path = subscribers_at w path.
Proof. reflexivity. Qed.

(** One guarded call: the call is recorded, and logged when it throws. *)
Lemma guarded_invoke run cb a b path w :
  try_catch (invoke run cb a b path) (λ e, console_error e) w =
    (inr (), after_calls run [Invocation cb a b path] w).
Proof.
  unfold try_catch, invoke, console_error, after_calls, errors_of. simpl.
  destruct (run cb a b path); simpl; [done|]. by rewrite app_nil_r.
Qed.

Lemma notify_spec run set a b path w :
  notify run set a b path w = (inr (), after_calls run (tier set a b path) w).
Proof.
  unfold notify. revert w. induction set as [|cb set IH]; intros w; simpl.
  - by rewrite after_calls_nil.
  - unfold mbind, M_bind. rewrite guarded_invoke, IH, after_calls_app. done.
Qed.

Lemma proper_prefixes_take {A} (l : list A) :
  proper_prefixes l = map (λ i, take i l) (seq 1 (length l - 1)).
Proof.
  induction l as [|x [|y rest] IH]; [done..|].
  change (proper_prefixes (x :: y :: rest))
    with ([x] :: map (cons x) (proper_prefixes (y :: rest))).
  rewrite IH. clear IH.
  replace (length (x :: y :: rest) - 1) with (S (length (y :: rest) - 1))
    by (simpl; lia).
  generalize (length (y :: rest) - 1) as m. intros m.
  change (seq 1 (S m)) with (1 :: seq 2 m).
  rewrite <- (seq_shift m 1). cbn [map]. f_equal.
  rewrite !map_map. reflexivity.
Qed.

Lemma strict_ancestors_take path parent :
  parent ∈ strict_ancestors path ↔
  ∃ i, 0 < i < length (split "." path) ∧ parent = join "." (take i (split "." path)).
Proof.
  unfold strict_ancestors. rewrite proper_prefixes_take, map_map, list_elem_of_fmap.
  split.
  - intros (i & -> & Hi). apply elem_of_seq in Hi. exists i. split; [lia|done].
  - intros (i & Hi & ->). exists i. split; [done|]. apply elem_of_seq. lia.
Qed.

(** The loop over the parent paths, for any list of indices whose parent
    paths can be read. *)
Lemma parents_loop_spec run path (indices : list nat) w :
  let parts := split "." path in
  (∀ i, i ∈ indices → ∃ x, read_at (state w) (join "." (take i parts)) = inr x) →
  forEach indices (λ i,
    let parentPath := join "." (take i parts) in
    subs ← gets subscribers;
    match subs !! parentPath with
    | Some set =>
        parentValue ← getState (Some parentPath);
        notify run set parentValue VNull path
    | None => mret ()
    end) w =
  (inr (), after_calls run
     (flat_map (λ parent, tier (subscribers_at w parent) (value_at (state w) parent) VNull path)
               (map (λ i, join "." (take i parts)) indices)) w).
Proof.
  intros parts. revert w. induction indices as [|i indices IH]; intros w Hread; simpl.
  - by rewrite after_calls_nil.
  - unfold mbind at 1, M_bind at 1. unfold mbind at 1, M_bind at 1.
    unfold gets at 1. simpl.
    unfold subscribers_at at 1.
    destruct (Hread i) as [x Hx]; [by left|].
    pose proof (read_at_value _ _ _ Hx) as ->.
    destruct (subscribers w !! join "." (take i parts)) as [set|] eqn:Hset; simpl.
    + unfold mbind at 1, M_bind at 1. rewrite getState_read, Hx.
      rewrite notify_spec, IH; [|intros j Hj; apply Hread; by right].
      simpl. by rewrite after_calls_app.
    + unfold mret, M_ret. rewrite IH; [done|]. intros j Hj. apply Hread. by right.
Qed.

Lemma broadcastChange_spec run path value oldValue w :
  (∀ parent, parent ∈ strict_ancestors path → ∃ x, read_at (state w) parent = inr x) →
  broadcastChange run path value oldValue w =
    (inr (), after_calls run (broadcast_calls w path value oldValue) w).
Proof.
  intros Hread.
  unfold broadcastChange, broadcast_calls, exact_tier, ancestor_tier, wildcard_tier.
  unfold mbind at 1, M_bind at 1. unfold mbind at 1, M_bind at 1.
  unfold gets at 1. simpl.
  assert (Hexact : (match subscribers w !! path with
                    | Some set => notify run set value oldValue path
                    | None => mret ()
                    end) w =
                   (inr (), after_calls run (tier (subscribers_at w path) value oldValue path) w)).
  { unfold subscribers_at. destruct (subscribers w !! path); simpl.
    - apply notify_spec.
    - unfold mret, M_ret. by rewrite after_calls_nil. }
  rewrite Hexact. clear Hexact.
  unfold mbind at 1, M_bind at 1.
  rewrite (parents_loop_spec run path).
  2:{ intros i Hi. apply Hread, strict_ancestors_take. exists i. split; [|done].
      apply elem_of_seq in Hi. lia. }
  simpl.
  unfold mbind at 1, M_bind at 1. unfold gets at 1. simpl.
  unfold strict_ancestors. rewrite proper_prefixes_take, map_map.
  destruct (subscribers w !! "*") as [set|] eqn:Hw; simpl.
  - rewrite notify_spec, !after_calls_app.
    unfold subscribers_at. simpl. rewrite Hw. simpl.
    by rewrite <- ?app_assoc.
  - unfold mret, M_ret. rewrite !after_calls_app.
    unfold subscribers_at. simpl. rewrite Hw. simpl.
    by rewrite <- ?app_assoc, ?app_nil_r.
Qed.

(** ** The assignment *)

Lemma assign_last o k value :
  assign o [k] value =
    (oldValue ← js_get o k; o' ← js_set o k value; mret (oldValue, o')).
Proof. reflexivity. Qed.

Lemma assign_step o k k2 rest value :
  assign o (k :: k2 :: rest) value =
    (child ← js_get o k;
     '(oldValue, child') ← assign child (k2 :: rest) value;
     mret (oldValue, js_put_back o k child')).
Proof. reflexivity. Qed.

(** The steps of a walk that went through. *)
Lemma assign_step_inv o k k2 rest value old o' :
  assign o (k :: k2 :: rest) value = inr (old, o') →
  ∃ child child',
    js_get o k = inr child ∧
    assign child (k2 :: rest) value = inr (old, child') ∧
    o' = js_put_back o k child'.
Proof.
  rewrite assign_step. destruct (js_get o k) as [e|child]; [done|].
  rewrite result_bind_inr.
  destruct (assign child (k2 :: rest) value) as [e|[old1 c1]] eqn:Hrec;
    [by rewrite result_bind_inl|].
  rewrite result_bind_inr. unfold mret, result_ret. intros [= <- <-].
  by eexists _, _.
Qed.

Lemma assign_last_inv o k value old o' :
  assign o [k] value = inr (old, o') →
  js_get o k = inr old ∧ js_set o k value = inr o'.
Proof.
  rewrite assign_last. destruct (js_get o k) as [e|x]; [done|].
  rewrite result_bind_inr. destruct (js_set o k value) as [e|y]; [done|].
  rewrite result_bind_inr. unfold mret, result_ret. by intros [= <- <-].
Qed.

(** When the assignment goes through, the old value it captured is what the
    path resolved to before. *)
Lemma assign_resolve keys : ∀ o value old o',
  keys ≠ [] → assign o keys value = inr (old, o') → resolve o keys = inr old.
Proof.
  induction keys as [|k [|k2 rest] IH]; intros o value old o' Hne Ha; [done| |].
  - apply assign_last_inv in Ha as [Hg _].
    by rewrite resolve_step, (js_get_ok_opt _ _ _ Hg).
  - apply assign_step_inv in Ha as (child & child' & Hg & Hrec & _).
    rewrite resolve_step, (js_get_ok_opt _ _ _ Hg), result_bind_inr. by eapply IH.
Qed.

Lemma js_set_object fields k value o' :
  js_set (VObj fields) k value = inr o' →
  o' = VObj (<[k := value]> fields) ∨ o' = VObj fields.
Proof.
  simpl. destruct (fields !! k); [intros [= <-]; by left|].
  case_decide; [|intros [= <-]; by left].
  destruct (is_prototype value); [done|]. intros [= <-]. by right.
Qed.

(** An assignment of a name other than [__proto__] is stored. *)
Lemma js_set_stored fields k value :
  k ≠ "__proto__" → js_set (VObj fields) k value = inr (VObj (<[k := value]> fields)).
Proof.
  intros Hk. simpl. destruct (fields !! k); [done|]. by rewrite decide_False.
Qed.

Lemma assign_root st keys value old o' :
  assign (VObj st) keys value = inr (old, o') → ∃ st', o' = VObj st'.
Proof.
  destruct keys as [|k [|k2 rest]]; intros Ha.
  - inversion Ha. eauto.
  - apply assign_last_inv in Ha as [_ Hs].
    apply js_set_object in Hs as [-> | ->]; eauto.
  - apply assign_step_inv in Ha as (child & child' & _ & _ & ->).
    simpl. destruct (st !! k); eauto.
Qed.

(** A walk from [undefined] or [null] throws. *)
Lemma assign_from_nullish c post value :
  nullish c = true → post ≠ [] → ∃ msg, assign c post value = inl (TypeError msg).
Proof.
  intros Hc Hpost. destruct (js_get_nullish c) with (k := hd "" post) as [msg Hmsg];
    [done|].
  destruct post as [|k [|k2 rest]]; [done| |]; simpl in Hmsg.
  - rewrite assign_last, Hmsg. eauto.
  - rewrite assign_step, Hmsg. eauto.
Qed.

(** A walk from a built-in object does not go through. *)
Lemma assign_from_host name post value :
  post ≠ [] → ∃ e, assign (VHost name) post value = inl e.
Proof.
  intros Hpost. destruct post as [|k [|k2 rest]]; [done| |].
  - rewrite assign_last. simpl js_get.
    destruct (host_get_cases name k) as [->|[->| ->]]; [|eauto..].
    rewrite result_bind_inr. simpl.
    destruct (is_function name && bool_decide (k ∈ restricted)); eauto.
  - rewrite assign_step. simpl js_get.
    destruct (host_get_cases name k) as [->|[->| ->]]; [|eauto..].
    rewrite result_bind_inr.
    destruct (assign_from_nullish VUndefined (k2 :: rest) value) as [msg ->]; [done..|].
    eauto.
Qed.

(** A walk from a value that is no container leaves the value as it is. *)
Lemma assign_loose c keys value old c' :
  container c = false → assign c keys value = inr (old, c') → c' = c.
Proof.
  intros Hc. destruct keys as [|k [|k2 rest]].
  - by intros [= _ <-].
  - intros Ha. apply assign_last_inv in Ha as [_ Hs].
    destruct c; try done; simpl in Hs; try (by injection Hs as <-).
    by destruct (is_function name && bool_decide (k ∈ restricted)).
  - intros Ha. apply assign_step_inv in Ha as (child & child' & _ & _ & ->).
    by destruct c.
Qed.

(** After the assignment, the container reads the child as it has become. *)
Lemma put_back_read o k child child' keys value old :
  js_get o k = inr child →
  assign child keys value = inr (old, child') →
  js_get_opt (js_put_back o k child') k = inr child'.
Proof.
  intros Hg Ha. destruct (held o k) as [c|] eqn:Hheld.
  - pose proof (held_put_back o k c child' Hheld) as Hread.
    by apply js_get_ok_opt.
  - rewrite (unheld_put_back _ _ _ Hheld).
    pose proof (unheld_loose _ _ _ Hheld Hg) as Hloose.
    rewrite (assign_loose _ _ _ _ _ Hloose Ha). by apply js_get_ok_opt.
Qed.

(** After an assignment that went through, every proper prefix of the path
    can be read. *)
Lemma assign_prefix keys : ∀ o value old o' pre post,
  assign o keys value = inr (old, o') →
  keys = pre ++ post → post ≠ [] →
  ∃ x, resolve o' pre = inr x.
Proof.
  induction keys as [|k [|k2 rest] IH]; intros o value old o' pre post Ha Heq Hpost.
  - by destruct pre, post.
  - destruct pre as [|p pre]; [by exists o'|].
    destruct pre, post; done.
  - destruct pre as [|p pre]; [by exists o'|].
    injection Heq as <- Heq.
    apply assign_step_inv in Ha as (child & child' & Hg & Hrec & ->).
    rewrite resolve_step, (put_back_read _ _ _ _ _ _ _ Hg Hrec), result_bind_inr.
    by eapply IH.
Qed.

(** After an assignment that went through, the parent paths can be read. *)
Lemma assign_ancestors st path value old st' :
  assign (VObj st) (split "." path) value = inr (old, VObj st') →
  ∀ parent, parent ∈ strict_ancestors path → ∃ x, read_at st' parent = inr x.
Proof.
  intros Ha parent (i & Hi & ->)%strict_ancestors_take.
  unfold read_at. case_decide; [eauto|].
  rewrite split_parent by lia.
  eapply (assign_prefix _ _ _ _ _ (take i (split "." path)) (drop i (split "." path)));
    [exact Ha|by rewrite take_drop|].
  intros Hdrop. apply (f_equal length) in Hdrop.
  rewrite length_drop in Hdrop. simpl in Hdrop. lia.
Qed.

(** [setState], unfolded: either the walk throws and nothing has happened, or
    the tree is updated and the broadcast runs on the updated tree. *)
Lemma setState_spec run path value w :
  setState run path value w =
    match assign (VObj (state w)) (split "." path) value with
    | inl e => (inl e, w)
    | inr (oldValue, VObj st') =>
        let w1 := World st' (subscribers w) (calls w) (console w) in
        (inr (), after_calls run (broadcast_calls w1 path value oldValue) w1)
    | inr (oldValue, _) =>
        (inr (), after_calls run (broadcast_calls w path value oldValue) w)
    end.
Proof.
  unfold setState. unfold mbind at 1, M_bind at 1. unfold gets at 1. simpl.
  unfold mbind at 1, M_bind at 1. unfold lift at 1.
  destruct (assign (VObj (state w)) (split "." path) value) as [e|[old o']] eqn:Ha;
    [done|].
  destruct (assign_root _ _ _ _ _ Ha) as [st' ->].
  unfold mbind, M_bind, put_state. simpl. apply broadcastChange_spec.
  simpl. by eapply assign_ancestors.
Qed.

(** The outcome of [setState] in the shape the claims use. *)
Lemma setState_returns run path value w w' :
  setState run path value w = (inr (), w') →
  ∃ oldValue st',
    assign (VObj (state w)) (split "." path) value = inr (oldValue, VObj st') ∧
    w' = after_calls run
           (broadcast_calls (World st' (subscribers w) (calls w) (console w))
                            path value oldValue)
           (World st' (subscribers w) (calls w) (console w)).
Proof.
  rewrite setState_spec.
  destruct (assign (VObj (state w)) (split "." path) value) as [e|[old o']] eqn:Ha;
    [done|].
  destruct (assign_root _ _ _ _ _ Ha) as [st' ->].
  intros [= <-]. eauto.
Qed.

Lemma setState_subscribers run path value w :
  subscribers (snd (setState run path value w)) = subscribers w.
Proof.
  rewrite setState_spec.
  destruct (assign (VObj (state w)) (split "." path) value) as [e|[old o']] eqn:Ha;
    [done|].
  by destruct (assign_root _ _ _ _ _ Ha) as [st' ->].
Qed.


Lemma assign_through_nullish pre : ∀ o post value c,
  pre ≠ [] → post ≠ [] → resolve o pre = inr c → nullish c = true →
  ∃ msg, assign o (pre ++ post) value = inl (TypeError msg).
Proof.
  induction pre as [|k pre IH]; intros o post value c Hpre Hpost Hres Hc; [done|].
  destruct (pre ++ post) as [|k2 rest] eqn:Htail.
  { apply app_eq_nil in Htail as [_ ->]. done. }
  change ((k :: pre) ++ post) with (k :: (pre ++ post)). rewrite Htail, assign_step.
  rewrite resolve_step in Hres.
  destruct (nullish o) eqn:Ho.
  { destruct (js_get_nullish o k Ho) as [msg ->]. eauto. }
  unfold js_get_opt in Hres. rewrite Ho in Hres.
  destruct (js_get o k) as [e|child]; [done|].
  rewrite result_bind_inr in *. rewrite <- Htail.
  destruct pre as [|k3 pre'].
  - injection Hres as ->. change ([] ++ post) with post.
    destruct (assign_from_nullish c post value) as [msg ->]; [done..|]. eauto.
  - destruct (IH child post value c) as [msg ->]; [done..|]. eauto.
Qed.


(** ** Sets of subscribers *)

Lemma calls_of_tier_absent cb set a b path :
  cb ∉ set → calls_of cb (tier set a b path) = [].
Proof.
  unfold calls_of, tier. induction set as [|x set IH]; intros Hin; [done|].
  simpl. rewrite filter_cons. simpl.
  apply not_elem_of_cons in Hin as [Hne Hin].
  rewrite decide_False by done. by apply IH.
Qed.

Lemma calls_of_tier cb set a b path :
  NoDup set → cb ∈ set → calls_of cb (tier set a b path) = [Invocation cb a b path].
Proof.
  unfold calls_of, tier. induction 1 as [|x set Hx Hnd IH]; intros Hin.
  - by apply elem_of_nil in Hin.
  - simpl. rewrite filter_cons. simpl. apply elem_of_cons in Hin as [<-|Hin].
    + rewrite decide_True by done. f_equal.
      by apply (calls_of_tier_absent cb set a b path).
    + rewrite decide_False by (intros ->; done). by apply IH.
Qed.

Lemma set_add_NoDup cb set : NoDup set → NoDup (set_add cb set).
Proof.
  unfold set_add. intros Hnd. case_decide; [done|].
  apply NoDup_app. split_and!; [done| |apply NoDup_singleton].
  intros x Hx Hx'. apply list_elem_of_singleton in Hx'. by subst.
Qed.

Lemma set_add_elem cb set : cb ∈ set_add cb set.
Proof.
  unfold set_add. case_decide; [done|]. apply elem_of_app. right.
  by apply list_elem_of_singleton.
Qed.

Lemma set_add_idem cb set : set_add cb (set_add cb set) = set_add cb set.
Proof.
  unfold set_add at 1. rewrite decide_True; [done|]. apply set_add_elem.
Qed.

Lemma set_delete_not_elem cb set : cb ∉ set_delete cb set.
Proof. unfold set_delete. rewrite list_elem_of_filter. by intros [Hne _]. Qed.

Lemma set_delete_absent cb set : cb ∉ set → set_delete cb set = set.
Proof.
  unfold set_delete. induction set as [|x set IH]; intros Hin; [done|].
  apply not_elem_of_cons in Hin as [Hne Hin].
  rewrite filter_cons, decide_True by done. f_equal. by apply IH.
Qed.

Lemma subscribe_spec path cb w :
  subscribe path cb w =
    (inr (unsubscribe path cb),
     World (state w) (<[path := set_add cb (subscribers_at w path)]> (subscribers w))
           (calls w) (console w)).
Proof.
  unfold subscribe, subscribers_at, mbind, M_bind, gets, put_subscribers, lift, mret, M_ret.
  simpl. destruct (subscribers w !! path) as [set|] eqn:Hset; simpl.
  - by rewrite Hset.
  - by rewrite lookup_insert_eq, insert_insert_eq.
Qed.

Lemma unsubscribe_spec path cb w :
  unsubscribe path cb w =
    (inr (),
     match subscribers w !! path with
     | Some set => World (state w) (<[path := set_delete cb set]> (subscribers w))
                         (calls w) (console w)
     | None => w
     end).
Proof.
  unfold unsubscribe, mbind, M_bind, gets, put_subscribers, mret, M_ret. simpl.
  by destruct (subscribers w !! path).
Qed.

(** The [Set] invariant holds at start and every operation keeps it. *)
Lemma sets_ok_initial : sets_ok initial_world.
Proof. intros path set Hset. simpl in Hset. by apply lookup_empty_Some in Hset. Qed.

Lemma sets_ok_subscribe path cb w :
  sets_ok w → sets_ok (snd (subscribe path cb w)).
Proof.
  intros Hok. rewrite subscribe_spec. simpl. intros p set. simpl.
  rewrite lookup_insert. case_decide as Hp.
  - intros [= <-]. apply set_add_NoDup. unfold subscribers_at.
    destruct (subscribers w !! path) as [s|] eqn:Hs; simpl; [by eapply Hok|].
    apply NoDup_nil_2.
  - apply Hok.
Qed.

Lemma sets_ok_unsubscribe path cb w :
  sets_ok w → sets_ok (snd (unsubscribe path cb w)).
Proof.
  intros Hok. rewrite unsubscribe_spec. simpl.
  destruct (subscribers w !! path) as [s|] eqn:Hs; [|done].
  intros p set. simpl. rewrite lookup_insert. case_decide as Hp; [|apply Hok].
  intros [= <-]. apply NoDup_filter. by eapply Hok.
Qed.

Lemma sets_ok_setState run path value w :
  sets_ok w → sets_ok (snd (setState run path value w)).
Proof.
  intros Hok. intros p set. rewrite setState_subscribers. apply Hok.
Qed.

Lemma sets_ok_at w path : sets_ok w → NoDup (subscribers_at w path).
Proof.
  intros Hok. unfold subscribers_at.
  destruct (subscribers w !! path) as [set|] eqn:Hset; simpl.
  - by eapply Hok.
  - apply NoDup_nil_2.
Qed.

Lemma elem_of_set_add x cb set : x ∈ set_add cb set ↔ x = cb ∨ x ∈ set.
Proof.
  unfold set_add. case_decide as Hin.
  - split; [by right|]. by intros [->|?].
  - rewrite elem_of_app, list_elem_of_singleton. tauto.
Qed.

End StoreFacts.

Section StoreClaims.
Import StateManager StoreSpec.

(** C1. When [setState(path, value)] returns, the subscriber calls it made
    are, in this order: the callbacks registered exactly at [path], in
    registration order, with [(value, oldValue, path)]; then, for each strict
    ancestor of [path] that has subscribers, from the shallowest to the
    deepest, its callbacks with [(current value at the ancestor, null, path)];
    then the ['*'] subscribers with [(value, oldValue, path)].  [oldValue] is
    what the tree held along the segments of the path before the assignment,
    and the value at an ancestor is what the tree holds there after it; both
    are stated by [follow] and [value_at], which do not go through
    [getState]. *)
Theorem setState_broadcast_order run path value w w' :
  setState run path value w = (inr (), w') →
  subscribers w' = subscribers w ∧
  calls w' = calls w ++
    tier (subscribers_at w path) value (follow (state w) path) path ++
    flat_map (λ parent,
                tier (subscribers_at w parent) (value_at (state w') parent) VNull path)
             (strict_ancestors path) ++
    tier (subscribers_at w "*") value (follow (state w) path) path.
Proof.
  intros Hset. apply setState_returns in Hset as (oldValue & st' & Ha & ->).
  apply assign_resolve in Ha; [|apply split_nonempty].
  apply resolve_follow in Ha. unfold follow. rewrite Ha. by split.
Qed.

Lemma setState_broadcast_order_witness :
  let w := World initial_state
             (<["devices" := [1]]> (<["*" := [2]]> {["devices.pc.status" := [3]]}))
             [] [] in
  let path := "devices.pc.status" in
  ∃ w', setState quiet path (VStr "connected") w = (inr (), w') ∧
    calls w' =
      [Invocation 3 (VStr "connected") (VStr "disconnected") path;
       Invocation 1
         (obj [("pc", obj [("status", VStr "connected");
                           ("metrics", obj [("cpu", VNull); ("ram", VNull);
                                            ("ram_total", VNull); ("disk", VNull);
                                            ("disk_total", VNull)])]);
               ("quest_3", obj [("status", VStr "disconnected");
                                ("metrics", obj [("cpu", VNull); ("ram", VNull);
                                                 ("ram_total", VNull); ("temp", VNull);
                                                 ("battery", VNull)])])])
         VNull path;
       Invocation 2 (VStr "connected") (VStr "disconnected") path].
Proof.
  intros w path.
  pose (w' := snd (setState quiet path (VStr "connected") w)).
  assert (Hset : setState quiet path (VStr "connected") w = (inr (), w'))
    by (vm_compute; reflexivity).
  exists w'. split; [exact Hset|].
  destruct (setState_broadcast_order quiet path (VStr "connected") w w' Hset)
    as [_ Hcalls].
  rewrite Hcalls. vm_compute. reflexivity.
Defined.

(** C6. Whatever the subscribers do when called, [setState] makes the same
    calls, leaves the same tree and gives the same result as when no
    subscriber throws: every exception a callback raises is caught and
    written to the console, in the order raised, the callbacks after it in
    the same tier and in the later tiers are still called, and the only
    exception [setState] can raise is the one of its own path walk, raised
    before the tree is touched and before any callback runs. *)
Theorem subscriber_errors_are_isolated run path value w :
  let r := setState run path value w in
  let r0 := setState quiet path value w in
  fst r = fst r0 ∧
  state (snd r) = state (snd r0) ∧
  subscribers (snd r) = subscribers (snd r0) ∧
  (∃ invs, calls (snd r) = calls w ++ invs ∧
           calls (snd r0) = calls w ++ invs ∧
           console (snd r) = console w ++ errors_of run invs) ∧
  (∀ e, fst r = inl e → snd r = w).
Proof.
  simpl. rewrite !setState_spec.
  destruct (assign (VObj (state w)) (split "." path) value) as [e|[old o']] eqn:Ha.
  - simpl. split_and!; try done.
    exists []. by rewrite !app_nil_r.
  - destruct (assign_root _ _ _ _ _ Ha) as [st' ->]. simpl.
    split_and!; try done. eauto.
Qed.

(** C7 fails as stated: a segment that names an inherited member is read
    from the prototype chain, and the accessor [caller] that the built-in
    functions inherit throws.  [state.app.constructor] is the function
    [Object], and [getState] throws a [TypeError] when it reads [caller] from
    it. *)
Lemma getState_of_an_accessor_counterexample :
  getState (Some "app.constructor") initial_world = (inr (VHost "Object"), initial_world) ∧
  ∃ msg, getState (Some "app.constructor.caller") initial_world =
           (inl (TypeError msg), initial_world).
Proof. split; [|eexists]; vm_compute; reflexivity. Qed.

(** C7, amended. Without a path (or with the empty string, which [!path]
    treats alike) [getState] returns the whole tree.  With a path whose
    segments are read from values of the tree, from [undefined] or from
    [null], it returns the value at the path; that value is [undefined] as
    soon as one segment of the path is missing, be it under an object, under
    [null] or [undefined], or under a leaf that is no object.  [getState]
    throws only where a segment is read from a built-in object (which an
    earlier segment has reached by naming an inherited member), and then the
    exception is the one that read throws. *)
Theorem getState_never_throws_in_the_tree w :
  getState None w = (inr (VObj (state w)), w) ∧
  getState (Some "") w = (inr (VObj (state w)), w) ∧
  (∀ path, reads_in_tree (state w) (split "." path) →
           getState (Some path) w = (inr (value_at (state w) path), w)) ∧
  (∀ path, path ≠ "" → missing_segment (state w) (split "." path) →
           getState (Some path) w = (inr VUndefined, w)) ∧
  (∀ path e w', getState (Some path) w = (inl e, w') →
     w' = w ∧
     ∃ pre key post name,
       split "." path = pre ++ key :: post ∧
       resolve (VObj (state w)) pre = inr (VHost name) ∧
       host_get name key = inl e).
Proof.
  split_and!; [done|done| | |].
  - intros path Htree. rewrite getState_read.
    destruct (resolve_in_tree _ _ Htree) as [x Hx].
    assert (Hread : read_at (state w) path = inr (value_at (state w) path)).
    { unfold read_at, value_at. case_decide; [done|].
      rewrite Hx. f_equal. symmetry. by apply resolve_follow. }
    by rewrite Hread.
  - intros path Hpath (pre & key & post & parent & Hkeys & Hpre & Hkey).
    rewrite getState_read. unfold read_at. rewrite decide_False by done. f_equal.
    rewrite Hkeys, (resolve_app _ _ _ _ Hpre), resolve_step, Hkey.
    apply resolve_undefined.
  - intros path e w'. rewrite getState_read. intros [= Hread <-]. split; [done|].
    unfold read_at in Hread. case_decide; [done|]. by apply resolve_throws.
Qed.

Lemma getState_never_throws_in_the_tree_witness :
  getState (Some "devices.pc.status.length") initial_world =
    (inr (VNum 12), initial_world) ∧
  getState (Some "devices.tv.status.code") initial_world = (inr VUndefined, initial_world) ∧
  ∃ pre key post message,
    split "." "app.constructor.caller" = pre ++ key :: post ∧
    resolve (VObj initial_state) pre = inr (VHost "Object") ∧
    host_get "Object" key = inl (TypeError message).
Proof.
  destruct (getState_never_throws_in_the_tree initial_world)
    as (_ & _ & Hvalue & Hmissing & Hthrows).
  split_and!.
  - rewrite (Hvalue "devices.pc.status.length"); [vm_compute; reflexivity|].
    intros pre post name Hsplit Hpost.
    change (split "." "devices.pc.status.length")
      with ["devices"; "pc"; "status"; "length"] in Hsplit.
    destruct pre as [|k1 [|k2 [|k3 [|k4 [|k5 pre]]]]]; simplify_eq/=;
      vm_compute; discriminate.
  - apply Hmissing; [done|].
    exists ["devices"], "tv", ["status"; "code"]. eexists. split_and!.
    + vm_compute. reflexivity.
    + vm_compute. reflexivity.
    + vm_compute. reflexivity.
  - destruct (Hthrows "app.constructor.caller" (TypeError restricted_message) initial_world)
      as (_ & pre & key & post & name & Hsplit & Hpre & Hkey); [vm_compute; reflexivity|].
    change (split "." "app.constructor.caller")
      with ["app"; "constructor"; "caller"] in Hsplit.
    exists pre, key, post, restricted_message.
    destruct pre as [|k1 [|k2 [|k3 pre]]]; simplify_eq/=.
    vm_compute in Hpre. injection Hpre as <-.
    split_and!; [done|vm_compute; reflexivity|done].
Defined.




(** C9 fails as stated: an intermediate segment that resolves to a string is
    no object, yet [setState] does not throw; the assignment to a property of
    the string is dropped, the tree stays as it was, and the broadcast still
    runs, calling the subscribers with a change that did not happen. *)
Lemma setState_under_a_string_counterexample :
  let w := World initial_state {["*" := [1]]} [] [] in
  let path := "devices.pc.status.label" in
  split "." path = ["devices"; "pc"; "status"] ++ ["label"] ∧
  resolve (VObj (state w)) ["devices"; "pc"; "status"] = inr (VStr "disconnected") ∧
  setState quiet path (VStr "x") w =
    (inr (), World initial_state {["*" := [1]]}
                   [Invocation 1 (VStr "x") VUndefined path] []).
Proof. vm_compute. done. Qed.

(** C9, amended. When a proper, non-empty prefix of the path resolves to
    [undefined] or [null] (an intermediate segment is missing or holds
    [null]), [setState] throws a [TypeError]; the tree, the subscriptions and
    the console are as before and no subscriber has been called. *)
Theorem setState_through_missing_throws run path value w pre post :
  split "." path = pre ++ post → pre ≠ [] → post ≠ [] →
  (resolve (VObj (state w)) pre = inr VUndefined ∨
   resolve (VObj (state w)) pre = inr VNull) →
  ∃ msg, setState run path value w = (inl (TypeError msg), w).
Proof.
  intros Hsplit Hpre Hpost Hres. rewrite setState_spec, Hsplit.
  destruct Hres as [Hres|Hres];
    destruct (assign_through_nullish pre (VObj (state w)) post value _ Hpre Hpost Hres)
      as [msg ->]; eauto.
Qed.

Lemma setState_through_missing_throws_witness :
  ∃ msg, setState quiet "devices.tv.status" (VStr "connected")
                  (World initial_state {["*" := [1]]} [] []) =
         (inl (TypeError msg), World initial_state {["*" := [1]]} [] []).
Proof.
  apply (setState_through_missing_throws quiet "devices.tv.status" (VStr "connected")
           (World initial_state {["*" := [1]]} [] []) ["devices"; "tv"] ["status"]);
    [reflexivity|done|done|].
  left. vm_compute. reflexivity.
Defined.

(** C10. A callback subscribed to ['*'] is called exactly twice by
    [setState('*', v)]: the calls made are the exact-path tier followed by the
    wildcard tier, both over the set registered at ['*'], and the callback
    occurs once in each. *)
Theorem setState_star_calls_wildcard_twice run value w cb :
  sets_ok w → cb ∈ subscribers_at w "*" →
  ∃ oldValue w',
    setState run "*" value w = (inr (), w') ∧
    calls w' = calls w ++ tier (subscribers_at w "*") value oldValue "*"
                       ++ tier (subscribers_at w "*") value oldValue "*" ∧
    calls_of cb (drop (length (calls w)) (calls w')) =
      [Invocation cb value oldValue "*"; Invocation cb value oldValue "*"].
Proof.
  intros Hok Hcb.
  assert (Hnd : NoDup (subscribers_at w "*")).
  { unfold subscribers_at in *. destruct (subscribers w !! "*") eqn:Hs; simpl in *.
    - by eapply Hok.
    - by apply elem_of_nil in Hcb. }
  assert (Ha : assign (VObj (state w)) (split "." "*") value =
                 inr (default VUndefined (state w !! "*"),
                      VObj (<["*" := value]> (state w)))).
  { change (split "." "*") with ["*"]. rewrite assign_last.
    by rewrite js_set_stored. }
  exists (default VUndefined (state w !! "*")). eexists. split; [|split].
  - rewrite setState_spec, Ha. reflexivity.
  - reflexivity.
  - simpl. rewrite drop_app_length.
    change (broadcast_calls _ "*" value ?old)
      with (tier (subscribers_at w "*") value old "*" ++ [] ++
            tier (subscribers_at w "*") value old "*").
    unfold calls_of. rewrite filter_app. simpl app.
    fold (calls_of cb (tier (subscribers_at w "*") value
                         (default VUndefined (state w !! "*")) "*")).
    by rewrite calls_of_tier.
Qed.

Lemma setState_star_calls_wildcard_twice_witness :
  let w := World initial_state {["*" := [5]]} [] [] in
  ∃ oldValue w',
    setState quiet "*" (VNum 1) w = (inr (), w') ∧
    calls w' = calls w ++ tier (subscribers_at w "*") (VNum 1) oldValue "*"
                       ++ tier (subscribers_at w "*") (VNum 1) oldValue "*" ∧
    calls_of 5 (drop (length (calls w)) (calls w')) =
      [Invocation 5 (VNum 1) oldValue "*"; Invocation 5 (VNum 1) oldValue "*"].
Proof.
  apply setState_star_calls_wildcard_twice.
  - intros path set. simpl. rewrite lookup_singleton. case_decide; [|done].
    intros [= <-]. apply NoDup_singleton.
  - vm_compute. left.
Defined.

End StoreClaims.

Section SubscriptionClaims.
Import StateManager StoreSpec.

(** A parent path is not the path. *)
Lemma strict_ancestor_ne path parent : parent ∈ strict_ancestors path → parent ≠ path.
Proof.
  intros (i & Hi & ->)%strict_ancestors_take Heq.
  apply (f_equal (split ".")) in Heq. rewrite split_parent in Heq by lia.
  apply (f_equal length) in Heq. rewrite length_take in Heq. lia.
Qed.

Lemma flat_map_agree {A B} (f g : A → list B) l :
  (∀ x, x ∈ l → f x = g x) → flat_map f l = flat_map g l.
Proof.
  induction l as [|x l IH]; intros Hfg; [done|]. simpl.
  rewrite (Hfg x) by (by left). rewrite IH; [done|].
  intros y Hy. apply Hfg. by right.
Qed.

(** The calls of a [setState] when the set registered at its path is
    another one: the exact-path tier is that of the other set, the rest is
    the same. *)
Lemma setState_with_other_set run path value w w0 :
  path ≠ "*" →
  setState run path value w = (inr (), w0) →
  ∃ rest,
    calls w0 = calls w ++
      tier (subscribers_at w path) value (follow (state w) path) path ++ rest ∧
    ∀ set', ∃ w0',
      setState run path value
               (World (state w) (<[path := set']> (subscribers w)) (calls w) (console w)) =
        (inr (), w0') ∧
      calls w0' = calls w ++ tier set' value (follow (state w) path) path ++ rest ∧
      state w0' = state w0.
Proof.
  intros Hstar Hset. apply setState_returns in Hset as (oldValue & st' & Ha & ->).
  pose proof (assign_resolve _ _ _ _ _ (split_nonempty _ _) Ha) as Hold.
  apply resolve_follow in Hold. unfold follow. rewrite Hold.
  exists (ancestor_tier (World st' (subscribers w) (calls w) (console w)) path ++
          wildcard_tier (World st' (subscribers w) (calls w) (console w)) path
                        value oldValue).
  split; [done|]. intros set'. eexists. split.
  { rewrite setState_spec. simpl state. rewrite Ha. reflexivity. }
  split; [|done]. simpl. f_equal. unfold broadcast_calls. f_equal.
  { unfold exact_tier, subscribers_at. simpl. by rewrite lookup_insert_eq. }
  f_equal.
  - unfold ancestor_tier. apply flat_map_agree. intros parent Hparent.
    apply strict_ancestor_ne in Hparent.
    unfold subscribers_at. simpl. by rewrite lookup_insert_ne.
  - unfold wildcard_tier, subscribers_at. simpl. by rewrite lookup_insert_ne.
Qed.

Lemma set_delete_add cb set : set_delete cb (set_add cb set) = set_delete cb set.
Proof.
  unfold set_add, set_delete. case_decide; [done|].
  rewrite filter_app, filter_cons, decide_False by (by intros []).
  by rewrite filter_nil, app_nil_r.
Qed.

Lemma calls_of_app cb l1 l2 : calls_of cb (l1 ++ l2) = calls_of cb l1 ++ calls_of cb l2.
Proof. unfold calls_of. apply filter_app. Qed.

Lemma calls_of_tier_other cb other set a b path :
  other ≠ cb →
  calls_of other (tier (set_delete cb set) a b path) = calls_of other (tier set a b path).
Proof.
  intros Hne. unfold calls_of, tier, set_delete.
  induction set as [|x set IH]; [done|].
  destruct (decide (x = cb)) as [->|Hx].
  - rewrite (filter_cons_False (λ c, c ≠ cb)) by (by intros []).
    simpl. rewrite filter_cons. simpl. by rewrite decide_False.
  - rewrite (filter_cons_True (λ c, c ≠ cb)) by done.
    simpl. rewrite !filter_cons. simpl. by rewrite IH.
Qed.

(** C3 fails as stated: subscribers are kept in a [Set], so registering the
    same callback a second time at the same path adds nothing.  A [setState]
    at the path then calls it once, not twice, and the function returned by
    the first [subscribe] call removes the only registration there is: the
    next [setState] calls nobody. *)
Lemma subscribe_twice_counterexample :
  ∃ unsub1 unsub2 w1 w2 w3,
    subscribe "app.error" 7 initial_world = (inr unsub1, w1) ∧
    subscribe "app.error" 7 w1 = (inr unsub2, w2) ∧
    calls (snd (setState quiet "app.error" (VStr "boom") w2)) =
      [Invocation 7 (VStr "boom") VNull "app.error"] ∧
    unsub1 w2 = (inr (), w3) ∧
    calls (snd (setState quiet "app.error" (VStr "boom") w3)) = [].
Proof.
  eexists _, _, _, _, _. split_and!.
  - rewrite subscribe_spec. reflexivity.
  - rewrite subscribe_spec. reflexivity.
  - vm_compute. reflexivity.
  - rewrite unsubscribe_spec. reflexivity.
  - vm_compute. reflexivity.
Qed.

(** C3, amended. Registering a callback twice at a path (other than ['*'])
    leaves one registration: the second [subscribe] changes nothing and
    returns the same function as the first.  A [setState] at the path then
    makes the calls it would have made before, but for the exact-path tier,
    which it makes over the set registered at the path, which now holds the
    callback: among the calls of that tier the callback occurs exactly once.  The function returned
    removes the registration: the same [setState] after it makes the
    exact-path tier without the callback, with the calls of every other
    callback as before; calling the function again changes nothing. *)
Theorem subscribe_twice_is_one_registration run path cb value w w0 :
  sets_ok w → path ≠ "*" →
  setState run path value w = (inr (), w0) →
  let oldValue := follow (state w) path in
  ∃ w1 w2 w1' w2' exact1 exact2 rest,
    subscribe path cb w = (inr (unsubscribe path cb), w1) ∧
    subscribe path cb w1 = (inr (unsubscribe path cb), w1) ∧
    new_calls w w0 = tier (subscribers_at w path) value oldValue path ++ rest ∧
    setState run path value w1 = (inr (), w1') ∧
    exact1 = tier (subscribers_at w1 path) value oldValue path ∧
    new_calls w w1' = exact1 ++ rest ∧
    calls_of cb exact1 = [Invocation cb value oldValue path] ∧
    unsubscribe path cb w1 = (inr (), w2) ∧
    setState run path value w2 = (inr (), w2') ∧
    exact2 = tier (subscribers_at w2 path) value oldValue path ∧
    new_calls w w2' = exact2 ++ rest ∧
    calls_of cb exact2 = [] ∧
    (∀ other, other ≠ cb →
       calls_of other exact2 =
       calls_of other (tier (subscribers_at w path) value oldValue path) ∧
       calls_of other exact1 = calls_of other exact2) ∧
    unsubscribe path cb w2 = (inr (), w2).
Proof.
  intros Hok Hstar Hset oldValue. pose proof (sets_ok_at w path Hok) as Hnd.
  set (S0 := subscribers_at w path) in *.
  destruct (setState_with_other_set run path value w w0 Hstar Hset)
    as (rest & Hcalls0 & Hother).
  destruct (Hother (set_add cb S0)) as (w1' & Hset1 & Hcalls1 & _).
  destruct (Hother (set_delete cb S0)) as (w2' & Hset2 & Hcalls2 & _).
  set (w1 := World (state w) (<[path := set_add cb S0]> (subscribers w))
                   (calls w) (console w)) in *.
  set (w2 := World (state w) (<[path := set_delete cb S0]> (subscribers w))
                   (calls w) (console w)) in *.
  exists w1, w2, w1', w2'.
  exists (tier (set_add cb S0) value oldValue path),
         (tier (set_delete cb S0) value oldValue path), rest.
  assert (Hdrop : ∀ l, drop (length (calls w)) (calls w ++ l) = l)
    by (intros l; apply drop_app_length).
  split_and!.
  - apply subscribe_spec.
  - rewrite subscribe_spec. unfold w1, subscribers_at at 1. simpl.
    rewrite lookup_insert_eq. simpl. fold S0.
    by rewrite set_add_idem, insert_insert_eq.
  - unfold new_calls. by rewrite Hcalls0, Hdrop.
  - exact Hset1.
  - unfold w1, subscribers_at at 1. simpl. by rewrite lookup_insert_eq.
  - unfold new_calls. by rewrite Hcalls1, Hdrop.
  - apply calls_of_tier; [by apply set_add_NoDup|apply set_add_elem].
  - rewrite unsubscribe_spec. unfold w1. simpl. rewrite lookup_insert_eq.
    by rewrite set_delete_add, insert_insert_eq.
  - exact Hset2.
  - unfold w2, subscribers_at at 1. simpl. by rewrite lookup_insert_eq.
  - unfold new_calls. by rewrite Hcalls2, Hdrop.
  - apply calls_of_tier_absent, set_delete_not_elem.
  - intros other Hother'. split; [by apply calls_of_tier_other|].
    rewrite <- (set_delete_add cb S0).
    symmetry. by apply calls_of_tier_other.
  - rewrite unsubscribe_spec. unfold w2. simpl. rewrite lookup_insert_eq.
    rewrite (set_delete_absent cb (set_delete cb _)) by apply set_delete_not_elem.
    by rewrite insert_insert_eq.
Qed.

Lemma subscribe_twice_is_one_registration_witness :
  let w := World {[ "app" := VObj {[ "error" := VNull ]} ]} {[ "app.error" := [4] ]} [] [] in
  let oldValue := follow (state w) "app.error" in
  ∃ w1 w2 w1' w2' exact1 exact2 rest,
    subscribe "app.error" 7 w = (inr (unsubscribe "app.error" 7), w1) ∧
    subscribe "app.error" 7 w1 = (inr (unsubscribe "app.error" 7), w1) ∧
    new_calls w (snd (setState quiet "app.error" (VStr "boom") w)) =
      tier (subscribers_at w "app.error") (VStr "boom") oldValue "app.error" ++ rest ∧
    setState quiet "app.error" (VStr "boom") w1 = (inr (), w1') ∧
    exact1 = tier (subscribers_at w1 "app.error") (VStr "boom") oldValue "app.error" ∧
    new_calls w w1' = exact1 ++ rest ∧
    calls_of 7 exact1 = [Invocation 7 (VStr "boom") oldValue "app.error"] ∧
    unsubscribe "app.error" 7 w1 = (inr (), w2) ∧
    setState quiet "app.error" (VStr "boom") w2 = (inr (), w2') ∧
    exact2 = tier (subscribers_at w2 "app.error") (VStr "boom") oldValue "app.error" ∧
    new_calls w w2' = exact2 ++ rest ∧
    calls_of 7 exact2 = [] ∧
    (∀ other, other ≠ 7 →
       calls_of other exact2 =
       calls_of other (tier (subscribers_at w "app.error") (VStr "boom") oldValue
                            "app.error") ∧
       calls_of other exact1 = calls_of other exact2) ∧
    unsubscribe "app.error" 7 w2 = (inr (), w2).
Proof.
  intros w.
  apply (subscribe_twice_is_one_registration quiet "app.error" 7 (VStr "boom") w
           (snd (setState quiet "app.error" (VStr "boom") w))).
  - intros path set. simpl. rewrite lookup_singleton. case_decide; [|done].
    intros [= <-]. apply NoDup_singleton.
  - done.
  - vm_compute. reflexivity.
Defined.

End SubscriptionClaims.

(** * Verification of the API client *)

Section ClientClaims.
Import APIClient.

Lemma attempts_retry network attempt todo lastError error :
  try_block (network attempt) = inl error → retryable error →
  attempts network (attempt :: todo) lastError =
    (Fetch attempt ::
       (if decide (attempt < MAX_RETRIES) then [Sleep (2 ^ attempt * 100)] else []) ++
       fst (attempts network todo error),
     snd (attempts network todo error)).
Proof.
  intros Htry [Hmsg Hname]. simpl. rewrite Htry, Hmsg.
  rewrite decide_False by done.
  destruct (attempts network todo error) as [events result].
  by case_decide.
Qed.

(** A status of the 4xx class spells out as a text that the [catch] block
    recognises. *)
Lemma client_error_text status :
  400 ≤ status ≤ 499 →
  includes "HTTP error 4" ("HTTP error " +:+ pretty status) = true.
Proof.
  intros Hstatus.
  assert (Hall : forallb (λ n, includes "HTTP error 4" ("HTTP error " +:+ pretty n))
                         (seq 400 100) = true) by (vm_compute; reflexivity).
  rewrite forallb_forall in Hall. apply Hall, in_seq. lia.
Qed.

(** A status of the 5xx class spells out as a text that is not taken for a
    client error. *)
Lemma server_error_text status :
  500 ≤ status ≤ 599 →
  includes "HTTP error 4" ("HTTP error " +:+ pretty status) = false.
Proof.
  intros Hstatus.
  assert (Hall : forallb (λ n, negb (includes "HTTP error 4" ("HTTP error " +:+ pretty n)))
                         (seq 500 100) = true) by (vm_compute; reflexivity).
  rewrite forallb_forall in Hall. apply negb_true_iff, Hall, in_seq. lia.
Qed.

(** A 5xx response whose body carries no error message is retried. *)
Lemma server_error_without_message_is_retryable status data err message :
  500 ≤ status ≤ 599 →
  js_get data "error" = inr err →
  js_get_opt err "message" = inr message →
  truthy message = false →
  ∃ error, try_block (FetchResolves status (JsonResolves data)) = inl error ∧
           retryable error.
Proof.
  intros Hstatus Herr Hmessage Hfalsy.
  exists (ErrorObject "Error" ("HTTP error " +:+ pretty status)). split.
  - unfold try_block.
    assert (response_ok status = false) as ->.
    { unfold response_ok. apply andb_false_iff. right. apply Nat.leb_gt. lia. }
    rewrite Herr. unfold mbind at 1, result_bind at 1.
    rewrite Hmessage. unfold mbind, result_bind. by rewrite Hfalsy.
  - split; [by apply server_error_text|done].
Qed.

(** A network failure ([fetch] rejects with a [TypeError]) is retried. *)
Lemma network_failure_is_retryable message :
  includes "HTTP error 4" message = false →
  ∃ error, try_block (FetchRejects "TypeError" message) = inl error ∧ retryable error.
Proof. intros Hmsg. eexists. split; [reflexivity|]. by split. Qed.

(** The path that works: a 4xx response whose body carries no error message
    ends the call at the first attempt, without any delay. *)
Lemma client_error_without_message_fails_at_once network status data err message :
  network 1 = FetchResolves status (JsonResolves data) →
  400 ≤ status ≤ 499 →
  js_get data "error" = inr err →
  js_get_opt err "message" = inr message →
  truthy message = false →
  request network =
    ([Fetch 1], inl (ErrorObject "Error" ("HTTP error " +:+ pretty status))).
Proof.
  intros Hnet Hstatus Herr Hmessage Hfalsy.
  assert (Htry : try_block (network 1) =
                   inl (ErrorObject "Error" ("HTTP error " +:+ pretty status))).
  { rewrite Hnet. unfold try_block.
    assert (response_ok status = false) as ->.
    { unfold response_ok. apply andb_false_iff. right. apply Nat.leb_gt. lia. }
    rewrite Herr. unfold mbind at 1, result_bind at 1.
    rewrite Hmessage. unfold mbind, result_bind. by rewrite Hfalsy. }
  unfold request. change (seq 1 MAX_RETRIES) with [1; 2; 3].
  cbn [attempts]. rewrite Htry. cbn [message_of].
  by rewrite client_error_text.
Qed.

(** C2. The claim is what the comment in the [catch] block intends ("don't
    retry on client errors"), but the block recognises a client error by the
    text ["HTTP error 4"] in the message, and that text is only there when
    the body carried no message of its own.  A 404 whose body says "Device not
    found" is attempted three times, with both backoff delays, before the
    call fails with the server's message. *)
Theorem request_404_with_server_message_is_retried :
  request (λ _, FetchResolves 404
                  (JsonResolves
                     (VObj {[ "success" := VBool false;
                              "error" := VObj {[ "message" := VStr "Device not found" ]} ]}))) =
    ([Fetch 1; Sleep 200; Fetch 2; Sleep 400; Fetch 3],
     inl (ErrorObject "Error" "Device not found")).
Proof. vm_compute. reflexivity. Qed.

(** The backoff as the loop runs it: when every attempt ends in an exception
    that the [catch] block goes on after, [request] makes exactly
    [MAX_RETRIES] = 3 attempts, waits [100 * 2 ^ attempt] ms after attempt 1
    and after attempt 2 (200 ms, then 400 ms: strictly increasing), and fails
    with the exception of the last attempt. *)
Lemma request_retries_with_backoff network e1 e2 e3 :
  try_block (network 1) = inl e1 → retryable e1 →
  try_block (network 2) = inl e2 → retryable e2 →
  try_block (network 3) = inl e3 → retryable e3 →
  fst (request network) = [Fetch 1; Sleep 200; Fetch 2; Sleep 400; Fetch 3] ∧
  fetches (fst (request network)) = seq 1 MAX_RETRIES ∧
  delays (fst (request network)) = [100 * 2 ^ 1; 100 * 2 ^ 2] ∧
  StronglySorted lt (delays (fst (request network))) ∧
  snd (request network) = inl e3.
Proof.
  intros H1 R1 H2 R2 H3 R3.
  assert (Hrun : request network =
                   ([Fetch 1; Sleep 200; Fetch 2; Sleep 400; Fetch 3], inl e3)).
  { unfold request. change (seq 1 MAX_RETRIES) with [1; 2; 3].
    rewrite (attempts_retry _ 1 _ _ e1), (attempts_retry _ 2 _ _ e2),
      (attempts_retry _ 3 _ _ e3) by done.
    reflexivity. }
  rewrite Hrun. simpl. split_and!; try done.
  repeat constructor.
Qed.

Lemma request_retries_with_backoff_witness :
  let network := λ _ : nat, FetchResolves 500 (JsonResolves (VObj {[ "success" := VBool false ]})) in
  fst (request network) = [Fetch 1; Sleep 200; Fetch 2; Sleep 400; Fetch 3] ∧
  fetches (fst (request network)) = seq 1 MAX_RETRIES ∧
  delays (fst (request network)) = [100 * 2 ^ 1; 100 * 2 ^ 2] ∧
  StronglySorted lt (delays (fst (request network))) ∧
  snd (request network) = inl (ErrorObject "Error" "HTTP error 500").
Proof.
  intros network.
  apply (request_retries_with_backoff network
           (ErrorObject "Error" "HTTP error 500")
           (ErrorObject "Error" "HTTP error 500"));
    first [ vm_compute; reflexivity
          | split; [vm_compute; reflexivity | vm_compute; discriminate] ].
Defined.

(** C5. Which exceptions the loop goes on after is decided by the same test
    of the message text as in C2, and the test errs in this direction too.  A
    500 whose body carries no message is retried as the claim has it: three
    attempts, 200 ms and 400 ms between them, and the last error thrown.  A
    500 whose body says that an upstream server answered "HTTP error 404" is
    taken for a client error: the call makes one attempt and fails at once
    with the server's message, without a retry and without a delay, where the
    claim (and the comment in the [catch] block, which exempts client errors
    only) has three attempts. *)
Theorem request_500_with_client_error_text_is_not_retried :
  let plain := VObj {[ "success" := VBool false ]} in
  let marked := VObj {[ "success" := VBool false;
                        "error" := VObj {[ "message" :=
                                             VStr "upstream answered HTTP error 404" ]} ]} in
  response_ok 500 = false ∧
  request (λ _, FetchResolves 500 (JsonResolves plain)) =
    ([Fetch 1; Sleep 200; Fetch 2; Sleep 400; Fetch 3],
     inl (ErrorObject "Error" "HTTP error 500")) ∧
  request (λ _, FetchResolves 500 (JsonResolves marked)) =
    ([Fetch 1], inl (ErrorObject "Error" "upstream answered HTTP error 404")).
Proof. vm_compute. done. Qed.

End ClientClaims.

(** * Verification of the poll orchestrator *)

Section OrchestratorFacts.
Import App.

Lemma preserves_bind (P : env → Prop) {A B} (p : proc A) (f : A → proc B) :
  preserves P p → (∀ a, preserves P (f a)) → preserves P (p ≫= f).
Proof.
  intros Hp Hf. unfold mbind, proc_bind.
  induction Hp; simpl; [apply Hf|constructor; auto..].
Qed.

Lemma preserves_act (P : env → Prop) f :
  (∀ s, P s → P (f s)) → preserves P (act f).
Proof. intros Hf. constructor; [done|constructor]. Qed.

Lemma consistent_emit x s : consistent s → consistent (emit x s).
Proof. done. Qed.

Lemma consistent_emit_all what {X} (items : list X) s :
  consistent s → consistent (foldl (λ s _, emit (Collaborator what) s) s items).
Proof. revert s. induction items as [|x items IH]; intros s Hs; simpl; auto. Qed.

Lemma consistent_set_pollCounter n s : consistent s → consistent (set_pollCounter n s).
Proof. done. Qed.

Lemma consistent_setTimeout h ms s :
  consistent s → consistent (snd (setTimeout h ms s)).
Proof.
  intros (Hstreams & Hi & Ht). split_and!; simpl.
  - destruct (isPolling s); exact Hstreams.
  - intros id Hid. specialize (Hi id Hid). lia.
  - intros id. rewrite lookup_insert. case_decide as Hid.
    + subst. lia.
    + intros Hsome. specialize (Ht id Hsome). lia.
Qed.

Lemma consistent_drop_timeout id s : consistent s → consistent (drop_timeout id s).
Proof.
  intros (Hstreams & Hi & Ht). split_and!; simpl.
  - destruct (isPolling s); exact Hstreams.
  - exact Hi.
  - intros id'. rewrite lookup_delete. case_decide; [by intros [? ?]|apply Ht].
Qed.

(** [stopPolling] leaves no interval timer behind. *)
Lemma stopPolling_stops s :
  consistent s →
  let s' := stopPolling s in
  isPolling s' = false ∧ streams_stopped s' ∧
  timeouts s' = timeouts s ∧ next_timer s' = next_timer s ∧
  pollCounter s' = pollCounter s ∧
  effects s' = effects s ++ [Console "stopping loops"].
Proof.
  intros (Hstreams & _ & _). unfold stopPolling.
  destruct s as [pt dpt polling counter ints touts next effs]. simpl in *.
  destruct polling.
  - destruct Hstreams as (a & b & Hab & Ha & Hb & Hint). simpl in *. subst.
    simpl. split_and!; try done. split_and!; try done. simpl.
    apply map_eq. intros i. rewrite !lookup_delete, lookup_empty.
    repeat case_decide; try done.
    rewrite lookup_insert_ne, lookup_singleton_ne; done.
  - destruct Hstreams as (Ha & Hb & Hint). simpl in *. subst. done.
Qed.

Lemma consistent_stopPolling s : consistent s → consistent (stopPolling s).
Proof.
  intros Hs. destruct (stopPolling_stops s Hs) as (Hp & Hstop & Ht & Hn & _ & _).
  destruct Hs as (_ & _ & Hfresh). split_and!.
  - by rewrite Hp.
  - intros id. destruct Hstop as (_ & _ & ->). rewrite lookup_empty. by intros [? ?].
  - intros id. rewrite Ht, Hn. apply Hfresh.
Qed.

(** [startPolling] leaves exactly the two streams running. *)
Lemma startPolling_starts s :
  consistent s →
  let s' := startPolling s in
  isPolling s' = true ∧ streams_running s' ∧ timeouts s' = timeouts s.
Proof.
  intros (Hstreams & _ & _). unfold startPolling.
  destruct s as [pt dpt polling counter ints touts next effs]. simpl in *.
  destruct polling; [done|].
  destruct Hstreams as (Ha & Hb & Hint). simpl in *. subst. simpl.
  split_and!; try done.
  exists next, (S next). simpl. split_and!; try done; try lia.
  rewrite insert_insert_ne by lia. by rewrite insert_empty.
Qed.

Lemma consistent_startPolling s : consistent s → consistent (startPolling s).
Proof.
  intros Hs. destruct (startPolling_starts s Hs) as (Hp & Hrun & Ht).
  destruct Hs as (Hstreams & Hi & Hfresh). split_and!.
  - by rewrite Hp.
  - unfold startPolling. destruct (isPolling s); [done|]. simpl.
    intros id. rewrite !lookup_insert. repeat case_decide; try lia.
    intros Hsome. specialize (Hi id Hsome). lia.
  - rewrite Ht. unfold startPolling. destruct (isPolling s); [done|]. simpl.
    intros id Hsome. specialize (Hfresh id Hsome). lia.
Qed.

Lemma preserves_call e : preserves consistent (call e).
Proof. constructor; [by intros s Hs|]. constructor. intros r. constructor. Qed.

Lemma preserves_mret {A} (a : A) : preserves consistent (mret a).
Proof. constructor. Qed.

Lemma consistent_for_each list what f s :
  for_each_of list what = inr f → consistent s → consistent (f s).
Proof.
  unfold for_each_of. destruct list; intros [= <-] Hs.
  by apply consistent_emit_all.
Qed.

Lemma consistent_initial_devices response f s :
  initial_devices response = inr f → consistent s → consistent (f s).
Proof.
  unfold initial_devices.
  destruct (success_and_data response) as [e|[|]]; simpl; [done| |by intros [= <-]].
  destruct (js_get response "data") as [e|data]; simpl; [done|].
  destruct (js_get data "devices") as [e|devices]; simpl; [done|].
  apply consistent_for_each.
Qed.

(** Splits a goal [preserves consistent p] along the structure of [p]. *)
Ltac keeps :=
  repeat first
    [ assumption
    | match goal with
      | H : ∀ x, preserves _ _ |- _ => apply H
      | |- preserves _ (mret _) => apply preserves_mret
      | |- preserves _ (call _) => apply preserves_call
      | |- preserves _ (act _) =>
          apply preserves_act; intros ? ?;
          first [ by apply consistent_stopPolling
                | by apply consistent_startPolling
                | by apply consistent_setTimeout
                | by eapply consistent_for_each
                | by eapply consistent_initial_devices
                | done ]
      | |- preserves _ (mbind _ _) => apply preserves_bind; [|intros ?]
      | |- preserves _ (Test _ _ _) => apply preserves_test
      | |- preserves _ (match ?x with _ => _ end) => destruct x eqn:?
      end ].

Lemma preserves_health_outcome r : preserves consistent (health_outcome r).
Proof. unfold health_outcome. keeps. Qed.

Lemma preserves_checkBackendHealth : preserves consistent checkBackendHealth.
Proof.
  pose proof preserves_health_outcome. unfold checkBackendHealth. keeps.
Qed.

Lemma preserves_pollConnectionEvents : preserves consistent pollConnectionEvents.
Proof. unfold pollConnectionEvents. keeps. Qed.

Lemma preserves_pollConnectionStatus : preserves consistent pollConnectionStatus.
Proof.
  pose proof preserves_pollConnectionEvents.
  unfold pollConnectionStatus. keeps.
Qed.

Lemma preserves_pollDeviceStatus : preserves consistent pollDeviceStatus.
Proof.
  pose proof preserves_pollConnectionStatus.
  unfold pollDeviceStatus. keeps.
Qed.

Lemma preserves_offline_unless online : preserves consistent (offline_unless online).
Proof. unfold offline_unless. keeps. Qed.

Lemma preserves_retry_connection : preserves consistent retry_connection.
Proof.
  pose proof preserves_checkBackendHealth.
  unfold retry_connection. keeps.
Qed.

Lemma preserves_on_polling_error message :
  preserves consistent (on_polling_error message).
Proof.
  pose proof preserves_checkBackendHealth. pose proof preserves_offline_unless.
  unfold on_polling_error. keeps.
Qed.

Lemma preserves_pollMetrics : preserves consistent pollMetrics.
Proof. pose proof preserves_on_polling_error. unfold pollMetrics. keeps. Qed.

Lemma preserves_pollNetworkStats : preserves consistent pollNetworkStats.
Proof. unfold pollNetworkStats. keeps. Qed.

Lemma preserves_pollQuestStorage : preserves consistent pollQuestStorage.
Proof. unfold pollQuestStorage. keeps. Qed.

Lemma preserves_metrics_loop : preserves consistent metrics_loop.
Proof.
  pose proof preserves_pollMetrics. pose proof preserves_pollNetworkStats.
  pose proof preserves_pollQuestStorage.
  unfold metrics_loop, storage_cycle. keeps.
Qed.

Lemma preserves_fetchInitialData : preserves consistent fetchInitialData.
Proof.
  pose proof preserves_pollMetrics. pose proof preserves_pollNetworkStats.
  pose proof preserves_pollQuestStorage. pose proof preserves_pollConnectionStatus.
  unfold fetchInitialData. keeps.
Qed.

Lemma preserves_init : preserves consistent init.
Proof.
  pose proof preserves_checkBackendHealth. pose proof preserves_fetchInitialData.
  unfold init. keeps.
Qed.

Lemma preserves_handler h : preserves consistent (handler_proc h).
Proof.
  destruct h; simpl.
  - apply preserves_init.
  - apply preserves_metrics_loop.
  - apply preserves_pollDeviceStatus.
  - apply preserves_retry_connection.
Qed.

(** Running a function up to its next [await] keeps [env] consistent, and
    so will running it on from there. *)
Lemma run_preserves p : ∀ s,
  preserves consistent p → consistent s →
  consistent (fst (run p s)) ∧
  ∀ t, snd (run p s) = Some t → ∀ r, preserves consistent (resume t r).
Proof.
  induction p as [a|e k IH|f k IH|c yes IHyes no IHno]; intros s Hp Hs;
    inversion Hp; subst; simpl.
  - by split.
  - split; [done|]. by intros t [= <-].
  - apply IH; auto.
  - destruct (c s); auto.
Qed.

Lemma settle_sound id p σ :
  sound σ → preserves consistent p → sound (settle id p σ).
Proof.
  intros [Henv Htasks] Hp. unfold settle.
  destruct (run_preserves p (sys_env σ) Hp Henv) as [Henv' Hres].
  destruct (run p (sys_env σ)) as [s' [t|]]; simpl in *.
  - split; [done|]. intros id' t'. simpl. rewrite lookup_insert. case_decide.
    + intros [= <-]. by apply Hres.
    + apply Htasks.
  - split; [done|]. intros id' t'. simpl. rewrite lookup_delete.
    case_decide; [done|apply Htasks].
Qed.

Lemma step_sound σ l σ' : sound σ → step σ l = Some σ' → sound σ'.
Proof.
  intros Hσ. pose proof Hσ as [Henv Htasks]. destruct l as [id|id|t r]; simpl.
  - destruct (intervals (sys_env σ) !! id) as [[h ms]|]; [|done].
    intros [= <-]. apply settle_sound; [done|apply preserves_handler].
  - destruct (timeouts (sys_env σ) !! id) as [[h ms]|]; [|done].
    intros [= <-]. apply settle_sound; [|apply preserves_handler].
    split; [by apply consistent_drop_timeout|done].
  - destruct (tasks σ !! t) as [task|] eqn:Htask; [|done].
    intros [= <-]. apply settle_sound; [done|]. by eapply Htasks.
Qed.

Lemma loaded_sound : sound loaded.
Proof.
  split.
  - split_and!; simpl; [done|intros id|intros id];
      rewrite lookup_empty; by intros [? ?].
  - intros id t. simpl. by rewrite lookup_empty.
Qed.

Lemma reachable_sound σ : reachable σ → sound σ.
Proof.
  induction 1 as [|σ l σ' _ IH Hstep].
  - apply (settle_sound _ _ (System _ _ _)); [apply loaded_sound|apply preserves_init].
  - by eapply step_sound.
Qed.

Lemma steps_reachable ls : ∀ σ σ', reachable σ → steps σ ls = Some σ' → reachable σ'.
Proof.
  induction ls as [|l ls IH]; intros σ σ' Hσ; simpl.
  - by intros [= <-].
  - destruct (step σ l) as [σ1|] eqn:Hstep; [|done].
    apply IH. by eapply reachable_step.
Qed.

Lemma after_reachable ls : reachable (after ls).
Proof.
  unfold after. destruct (steps boot ls) as [σ|] eqn:Hsteps; simpl.
  - eapply steps_reachable; [apply reachable_boot|exact Hsteps].
  - apply reachable_boot.
Qed.

Lemma drop_effects {X} (l more : list X) : drop (length l) (l ++ more) = more.
Proof. apply drop_app_length. Qed.

(** The [catch] block of [pollMetrics] once the probe has failed, and the
    caller going on with [pollNetworkStats]. *)
Lemma run_offline rest s :
  run (offline_unless false ;; pollNetworkStats ;; rest) s =
    (emit (Request NetworkStats)
       (snd (setTimeout RetryConnection 5000
               (stopPolling
                  (emit (Collaborator "showConnectionBanner")
                     (emit (Collaborator "Dashboard.showOfflineState") s))))),
     Some (Suspended NetworkStats
             (λ r, (bind (Ret r) (λ r, match r with
                      | Resolves response =>
                          match success_and_data response with
                          | inr true => act (emit (Collaborator "Dashboard.updateNetworkStats"))
                          | inr false => mret ()
                          | inl _ => act (emit (Console "Network stats poll failed"))
                          end
                      | Rejects _ => act (emit (Console "Network stats poll failed"))
                      end)) ;; rest))).
Proof. reflexivity. Qed.

(** A failed probe: [health_outcome] answers [false], after at most a line
    on the console. *)
Lemma failed_probe_outcome r s :
  health_ok r = false →
  ∃ line,
    requests_of line = [] ∧
    effects (foldr emit s line) = effects s ++ line ∧
    (∀ k : bool → proc unit,
       run (health_outcome r ≫= k) s = run (k false) (foldr emit s line)) ∧
    (∀ (k : bool → proc unit) (k2 : unit → proc unit),
       run ((health_outcome r ≫= k) ≫= k2) s =
         run (k false ≫= k2) (foldr emit s line)).
Proof.
  unfold health_ok, health_outcome. intros Hr.
  destruct r as [response|message].
  - destruct (js_get response "success") as [e|success].
    + exists [Console "Backend health check failed:"]. by split_and!.
    + rewrite Hr. exists []. split_and!; try done. simpl. by rewrite app_nil_r.
  - exists [Console "Backend health check failed:"]. by split_and!.
Qed.

Lemma foldr_emit_fields line s :
  pollTimer (foldr emit s line) = pollTimer s ∧
  devicePollTimer (foldr emit s line) = devicePollTimer s ∧
  isPolling (foldr emit s line) = isPolling s ∧
  intervals (foldr emit s line) = intervals s ∧
  timeouts (foldr emit s line) = timeouts s ∧
  next_timer (foldr emit s line) = next_timer s.
Proof. induction line; simpl; [done|exact IHline]. Qed.

Lemma scheduled_retry_fields s :
  let s1 := emit (Request NetworkStats) (snd (setTimeout RetryConnection 5000 s)) in
  isPolling s1 = isPolling s ∧
  (streams_stopped s → streams_stopped s1) ∧
  timeouts s1 = <[next_timer s := (RetryConnection, 5000%N)]> (timeouts s).
Proof. done. Qed.

Lemma consistent_foldr_emit line s : consistent s → consistent (foldr emit s line).
Proof. induction line; simpl; auto. Qed.

(** An answering probe: [health_outcome] shows the online state and answers
    [true]. *)
Lemma good_probe_outcome r (k : bool → proc unit) s :
  health_ok r = true →
  run (health_outcome r ≫= k) s =
    run (k true) (emit (Collaborator "Dashboard.showOnlineState") s).
Proof.
  unfold health_ok, health_outcome. intros Hr.
  destruct r as [response|message]; [|done].
  destruct (js_get response "success") as [e|success]; [done|].
  by rewrite Hr.
Qed.

(** A tick of the metrics stream sends the metrics request; when that
    request fails, the function sends a health probe and waits for it. *)
Lemma failed_poll_is_probed σ id ms message :
  intervals (sys_env σ) !! id = Some (MetricsLoop, ms) →
  ∃ σ1 σ2,
    step σ (IntervalFires id) = Some σ1 ∧
    requests_of (new_effects σ σ1) = [CurrentMetrics] ∧
    step σ1 (Settles (next_task σ) (Rejects message)) = Some σ2 ∧
    requests_of (new_effects σ1 σ2) = [Health] ∧
    tasks σ2 !! next_task σ = Some (probe_after_failed_poll storage_cycle) ∧
    intervals (sys_env σ2) = intervals (sys_env σ) ∧
    timeouts (sys_env σ2) = timeouts (sys_env σ).
Proof.
  intros Hid. eexists _, _. split.
  { cbn [step]. rewrite Hid. reflexivity. }
  split.
  { unfold new_effects. simpl. by rewrite drop_effects. }
  split.
  { cbn [step]. simpl tasks. rewrite lookup_insert_eq. reflexivity. }
  split.
  { unfold new_effects. simpl.
    set (sent := effects (sys_env σ) ++ [Request CurrentMetrics]).
    by rewrite <- !app_assoc, drop_effects. }
  split; [|done]. simpl. by rewrite lookup_insert_eq.
Qed.

End OrchestratorFacts.

Section OrchestratorClaims.
Import App.

(** C4 fails as stated.  Two ticks of the metrics stream are in flight when
    the backend goes away.  The first poll fails, its probe fails, both
    streams are stopped and the reconnect probe is scheduled; it fires and
    fails, and nothing is scheduled any more: no interval timer, no timeout.
    Then the request of the second tick fails: it sends a probe of its own,
    and when that fails it schedules a further reconnect probe and goes on
    to poll the network statistics, all without anybody touching the page. *)
Lemma reconnect_failure_is_not_final_counterexample :
  let up := Resolves (VObj {[ "success" := VBool true ]}) in
  let down := Rejects "Failed to fetch" in
  let events := replicate 8 (Settles 0 up) ++
                [IntervalFires 1; IntervalFires 1;
                 Settles 1 down; Settles 1 down;
                 TimeoutFires 3; Settles 3 down] in
  let σ := after events in
  let σ' := after (events ++ [Settles 2 down]) in
  let σ'' := after (events ++ [Settles 2 down; Settles 2 down]) in
  isPolling (sys_env σ) = false ∧
  intervals (sys_env σ) = ∅ ∧
  timeouts (sys_env σ) = ∅ ∧
  sys_env <$> step σ (Settles 2 down) = Some (sys_env σ') ∧
  requests_of (new_effects σ σ') = [Health] ∧
  sys_env <$> step σ' (Settles 2 down) = Some (sys_env σ'') ∧
  timeouts (sys_env σ'') = {[ 4 := (RetryConnection, 5000%N) ]} ∧
  requests_of (new_effects σ' σ'') = [NetworkStats].
Proof. vm_compute. repeat split. Qed.

(** C4, amended.  In every reachable state, when the metrics poll has failed
    and the health probe that follows fails too, both interval timers are
    cleared and [isPolling] is off, and one reconnect probe is scheduled on a
    fresh timeout of 5000 ms.  When that timeout fires it is consumed and
    sends one health probe.  If the probe answers, both streams run again
    (2000 ms and 10000 ms); if it fails, the reconnect callback ends without
    touching a timer and without sending anything, and once no timer is live
    and no function is in flight, the page cannot take any step at all.
    (Functions that were in flight before keep running: see the
    counterexample.) *)
Theorem offline_transition_and_reconnect σ t rest r :
  reachable σ →
  tasks σ !! t = Some (probe_after_failed_poll rest) →
  health_ok r = false →
  ∃ σ1 n,
    step σ (Settles t r) = Some σ1 ∧
    isPolling (sys_env σ1) = false ∧
    streams_stopped (sys_env σ1) ∧
    timeouts (sys_env σ) !! n = None ∧
    timeouts (sys_env σ1) = <[n := (RetryConnection, 5000%N)]> (timeouts (sys_env σ)) ∧
    ∀ σ2, reachable σ2 →
      timeouts (sys_env σ2) !! n = Some (RetryConnection, 5000%N) →
      ∃ σ3,
        step σ2 (TimeoutFires n) = Some σ3 ∧
        tasks σ3 = <[next_task σ2 := reconnect_probe]> (tasks σ2) ∧
        timeouts (sys_env σ3) = delete n (timeouts (sys_env σ2)) ∧
        intervals (sys_env σ3) = intervals (sys_env σ2) ∧
        new_effects σ2 σ3 = [Request Health] ∧
        ∀ σ4 u r', reachable σ4 →
          tasks σ4 !! u = Some reconnect_probe →
          ∃ σ5,
            step σ4 (Settles u r') = Some σ5 ∧
            tasks σ5 = delete u (tasks σ4) ∧
            if health_ok r' then
              isPolling (sys_env σ5) = true ∧ streams_running (sys_env σ5)
            else
              isPolling (sys_env σ5) = isPolling (sys_env σ4) ∧
              intervals (sys_env σ5) = intervals (sys_env σ4) ∧
              timeouts (sys_env σ5) = timeouts (sys_env σ4) ∧
              requests_of (new_effects σ4 σ5) = [] ∧
              (intervals (sys_env σ5) = ∅ → timeouts (sys_env σ5) = ∅ →
               tasks σ5 = ∅ → ∀ l, step σ5 l = None).
Proof.
  intros Hreach Htask Hr.
  destruct (reachable_sound σ Hreach) as [Hcons _].
  destruct (failed_probe_outcome r (sys_env σ) Hr) as (line & _ & _ & _ & Hrun).
  destruct (foldr_emit_fields line (sys_env σ)) as (_ & _ & _ & _ & Htouts & Hnext).
  set (s0 := emit (Collaborator "showConnectionBanner")
               (emit (Collaborator "Dashboard.showOfflineState")
                  (foldr emit (sys_env σ) line))).
  assert (Hs0 : consistent s0) by by apply consistent_foldr_emit.
  destruct (stopPolling_stops s0 Hs0) as (Hpolling & Hstopped & Htouts' & Hnext' & _ & _).
  destruct (scheduled_retry_fields (stopPolling s0)) as (Hpolling1 & Hstopped1 & Htouts1).
  eexists _, (next_timer (sys_env σ)). split.
  { cbn [step]. rewrite Htask. unfold settle, probe_after_failed_poll. cbn [resume].
    rewrite (Hrun offline_unless), run_offline. fold s0. reflexivity. }
  cbn [sys_env].
  split; [by rewrite Hpolling1|]. split; [by apply Hstopped1|]. split.
  { destruct Hcons as (_ & _ & Hfresh).
    destruct (timeouts (sys_env σ) !! next_timer (sys_env σ)) eqn:Hn; [|done].
    specialize (Hfresh (next_timer (sys_env σ))). rewrite Hn in Hfresh.
    assert (next_timer (sys_env σ) < next_timer (sys_env σ)) by eauto. lia. }
  split.
  { rewrite Htouts1, Htouts', Hnext'. unfold s0. cbn [timeouts next_timer emit].
    by rewrite Htouts, Hnext. }
  intros σ2 Hreach2 Hpending. eexists. split.
  { simpl. rewrite Hpending. reflexivity. }
  split; [reflexivity|]. split; [reflexivity|]. split; [reflexivity|]. split.
  { unfold new_effects. simpl. apply drop_effects. }
  intros σ4 u r' Hreach4 Hu.
  destruct (reachable_sound σ4 Hreach4) as [Hcons4 _].
  destruct (health_ok r') eqn:Hr'.
  - eexists. split.
    { cbn [step]. rewrite Hu. unfold settle, reconnect_probe. cbn [resume].
      rewrite good_probe_outcome by done. reflexivity. }
    split; [reflexivity|]. simpl.
    set (s4 := emit _ (emit _ (sys_env σ4))).
    assert (Hs4 : consistent s4) by done.
    destruct (startPolling_starts s4 Hs4) as (Hon & Hrunning & _). by split.
  - destruct (failed_probe_outcome r' (sys_env σ4) Hr')
      as (line' & Hquiet & Heffects & Hrun' & _).
    destruct (foldr_emit_fields line' (sys_env σ4))
      as (_ & _ & Hpolling4 & Hints4 & Htouts4 & _).
    eexists. split.
    { cbn [step]. rewrite Hu. unfold settle, reconnect_probe. cbn [resume].
      rewrite Hrun'. reflexivity. }
    split; [reflexivity|]. simpl.
    split_and!; try done.
    + unfold new_effects. simpl. by rewrite Heffects, drop_effects.
    + intros Hints Htouts5 Htasks [id|id|t' r'']; simpl.
      * by rewrite Hints, lookup_empty.
      * by rewrite Htouts5, lookup_empty.
      * by rewrite Htasks, lookup_empty.
Qed.

Lemma offline_transition_and_reconnect_witness :
  let up := Resolves (VObj {[ "success" := VBool true ]}) in
  let down := Rejects "Failed to fetch" in
  let σ := after (replicate 8 (Settles 0 up) ++ [IntervalFires 1; Settles 1 down]) in
  ∃ σ1 n,
    step σ (Settles 1 down) = Some σ1 ∧
    isPolling (sys_env σ1) = false ∧
    streams_stopped (sys_env σ1) ∧
    timeouts (sys_env σ) !! n = None ∧
    timeouts (sys_env σ1) = <[n := (RetryConnection, 5000%N)]> (timeouts (sys_env σ)) ∧
    ∀ σ2, reachable σ2 →
      timeouts (sys_env σ2) !! n = Some (RetryConnection, 5000%N) →
      ∃ σ3,
        step σ2 (TimeoutFires n) = Some σ3 ∧
        tasks σ3 = <[next_task σ2 := reconnect_probe]> (tasks σ2) ∧
        timeouts (sys_env σ3) = delete n (timeouts (sys_env σ2)) ∧
        intervals (sys_env σ3) = intervals (sys_env σ2) ∧
        new_effects σ2 σ3 = [Request Health] ∧
        ∀ σ4 u r', reachable σ4 →
          tasks σ4 !! u = Some reconnect_probe →
          ∃ σ5,
            step σ4 (Settles u r') = Some σ5 ∧
            tasks σ5 = delete u (tasks σ4) ∧
            if health_ok r' then
              isPolling (sys_env σ5) = true ∧ streams_running (sys_env σ5)
            else
              isPolling (sys_env σ5) = isPolling (sys_env σ4) ∧
              intervals (sys_env σ5) = intervals (sys_env σ4) ∧
              timeouts (sys_env σ5) = timeouts (sys_env σ4) ∧
              requests_of (new_effects σ4 σ5) = [] ∧
              (intervals (sys_env σ5) = ∅ → timeouts (sys_env σ5) = ∅ →
               tasks σ5 = ∅ → ∀ l, step σ5 l = None).
Proof.
  intros up down σ.
  apply (offline_transition_and_reconnect σ 1 storage_cycle down).
  - apply after_reachable.
  - vm_compute. reflexivity.
  - reflexivity.
Defined.

End OrchestratorClaims.

(** * Further properties of the state manager *)

Section StoreFurther.
Import StateManager StoreSpec StateHelpers.

(** ** Paths as strings *)

(** X1. Every parent path that [broadcastChange] notifies is the path cut at
    one of its dots: the path is the parent path, a dot, and the remaining
    segments. *)
Theorem parent_paths_cut_at_dots path i :
  0 < i < length (split "." path) →
  path = join "." (take i (split "." path)) +:+ "." +:+
         join "." (drop i (split "." path)).
Proof.
  intros Hi. rewrite <- join_app.
  - by rewrite take_drop, join_split.
  - intros Htake. apply (f_equal length) in Htake.
    rewrite length_take in Htake. simpl in Htake. lia.
  - intros Hdrop. apply (f_equal length) in Hdrop.
    rewrite length_drop in Hdrop. simpl in Hdrop. lia.
Qed.

Lemma parent_paths_cut_at_dots_witness :
  "devices.pc.status" =
    join "." (take 2 (split "." "devices.pc.status")) +:+ "." +:+
    join "." (drop 2 (split "." "devices.pc.status")).
Proof. apply parent_paths_cut_at_dots. vm_compute. lia. Defined.

(** ** What a write changes and what it leaves *)





(** ** The update functions *)

Lemma bind_run {A B} (m : M A) (f : A → M B) w :
  (m ≫= f) w = match m w with
               | (inl e, w') => (inl e, w')
               | (inr x, w') => f x w'
               end.
Proof. reflexivity. Qed.

Lemma devices_path_split id tail :
  free_of "." id →
  split "." ("devices." +:+ id +:+ String "." tail) = "devices" :: id :: split "." tail.
Proof.
  intros Hid.
  change ("devices." +:+ id +:+ String "." tail)
    with ("devices" +:+ String "." (id +:+ String "." tail)).
  rewrite split_append by (by repeat split). by rewrite split_append.
Qed.

(** An assignment to an own property, or of a name other than [__proto__],
    is stored. *)
Lemma js_set_kept fields k value :
  k ≠ "__proto__" ∨ is_Some (fields !! k) →
  js_set (VObj fields) k value = inr (VObj (<[k := value]> fields)).
Proof.
  intros [Hk|[x Hx]]; [by apply js_set_stored|]. simpl. by rewrite Hx.
Qed.

Lemma assign_three st a b c A B value :
  st !! a = Some (VObj A) → A !! b = Some (VObj B) →
  c ≠ "__proto__" ∨ is_Some (B !! c) →
  assign (VObj st) [a; b; c] value =
    inr (default (beyond KObj c) (B !! c),
         VObj (<[a := VObj (<[b := VObj (<[c := value]> B)]> A)]> st)).
Proof.
  intros Ha Hb Hc. rewrite assign_step, (js_get_own _ _ _ Ha), result_bind_inr.
  rewrite assign_step, (js_get_own _ _ _ Hb), result_bind_inr.
  rewrite assign_last, js_set_kept by done. simpl js_get.
  rewrite !result_bind_inr. simpl. by rewrite Hb, Ha.
Qed.

Lemma assign_two st a b A value :
  st !! a = Some (VObj A) →
  b ≠ "__proto__" ∨ is_Some (A !! b) →
  assign (VObj st) [a; b] value =
    inr (default (beyond KObj b) (A !! b), VObj (<[a := VObj (<[b := value]> A)]> st)).
Proof.
  intros Ha Hb. rewrite assign_step, (js_get_own _ _ _ Ha), result_bind_inr.
  rewrite assign_last, js_set_kept by done. simpl js_get.
  rewrite !result_bind_inr. simpl. by rewrite Ha.
Qed.

(** The names that no built-in object holds. *)
Lemma beyond_plain κ k : k ∉ builtin_names → beyond κ k = VUndefined.
Proof.
  intros Hk. unfold beyond, inherited.
  assert (Hsub : ∀ l, l ⊆ builtin_names → k ∉ l) by (intros l Hl Hin; by apply Hk, Hl).
  rewrite decide_False by (intros ->; apply Hk; vm_compute; by left).
  rewrite decide_False
    by (intros ->; apply Hk; vm_compute; apply elem_of_cons; right; by left).
  rewrite decide_False.
  2:{ apply Hsub. destruct κ; intros x Hx; simpl in Hx;
        [| | | |by apply elem_of_nil in Hx];
        unfold builtin_names; do 2 (apply elem_of_cons; right);
        rewrite !elem_of_app; tauto. }
  rewrite decide_False; [done|].
  apply Hsub. intros x Hx. unfold builtin_names. do 2 (apply elem_of_cons; right).
  rewrite !elem_of_app. tauto.
Qed.

Lemma plain_not_restricted k : k ∉ builtin_names → k ∉ restricted.
Proof.
  intros Hk Hin. apply Hk. unfold builtin_names. do 2 (apply elem_of_cons; right).
  rewrite !elem_of_app. right. left.
  apply elem_of_cons in Hin as [->|Hin]; [vm_compute; set_solver|].
  apply elem_of_cons in Hin as [->|Hin]; [vm_compute; set_solver|].
  by apply elem_of_nil in Hin.
Qed.

(** A read of such a name returns, whatever it is read from. *)
Lemma js_get_plain v k :
  nullish v = false → k ∉ builtin_names → js_get v k = inr (member v k).
Proof.
  intros Hn Hk. unfold member. destruct v; try done; simpl;
    try (repeat (case_decide || case_match); done).
  unfold host_get.
  rewrite (bool_decide_eq_false_2 (k ∈ restricted)) by (by apply plain_not_restricted).
  rewrite andb_false_r. by rewrite decide_False.
Qed.

Lemma js_get_plain_object fields k :
  k ∉ builtin_names → js_get (VObj fields) k = inr (default VUndefined (fields !! k)).
Proof. intros Hk. simpl. by rewrite beyond_plain. Qed.

Lemma metric_keys_plain : Forall (λ k, k ∉ builtin_names) metric_keys.
Proof.
  apply (bool_decide_unpack (Forall (λ k, k ∉ builtin_names) metric_keys)).
  vm_compute. exact I.
Qed.

(** The merged metrics: each of the seven keys holds the new reading, or the
    old one where the new reading is [null] or [undefined]; the other keys
    are as spread from [current]. *)
Lemma merge_metrics_spec metrics current keys : ∀ fields,
  nullish metrics = false →
  Forall (λ k, k ∉ builtin_names) keys →
  ∃ merged,
    merge_metrics metrics (VObj current) keys fields = inr merged ∧
    ∀ key, merged !! key =
      if decide (key ∈ keys) then
        Some (if nullish (member metrics key)
              then default VUndefined (current !! key)
              else member metrics key)
      else fields !! key.
Proof.
  intros fields Hm Hplain. revert fields.
  induction Hplain as [|k keys Hk Hkeys IH]; intros fields.
  - exists fields. split; [done|]. intros key.
    rewrite decide_False; [done|]. apply not_elem_of_nil.
  - cbn [merge_metrics].
    rewrite (js_get_plain _ _ Hm Hk), result_bind_inr.
    set (x := if nullish (member metrics k) then default VUndefined (current !! k)
              else member metrics k).
    assert (Hx : coalesce (member metrics k) (js_get (VObj current) k) = inr x).
    { unfold coalesce, x. rewrite js_get_plain_object by done.
      by destruct (nullish (member metrics k)). }
    rewrite Hx, result_bind_inr.
    destruct (IH (<[k := x]> fields)) as (merged & Hmerged & Hlookup).
    exists merged. split; [done|]. intros key. rewrite Hlookup.
    destruct (decide (key = k)) as [->|Hne].
    + rewrite (decide_True (P := k ∈ k :: keys)) by (by left).
      case_decide; [done|]. by rewrite lookup_insert_eq.
    + rewrite lookup_insert_ne by done.
      destruct (decide (key ∈ keys)) as [Hin|Hout].
      * rewrite decide_True; [done|]. by apply elem_of_cons; right.
      * rewrite decide_False; [done|].
        intros [?|?]%elem_of_cons; done.
Qed.

Lemma truthy_not_nullish v : truthy v = true → nullish v = false.
Proof. by destruct v. Qed.

(** X4. For a device of the tree whose metrics are an object,
    [updateDeviceMetrics] with truthy metrics returns; in the tree it
    replaces the metrics of the device by the merged object and sets the
    status of the device to ['connected'], and changes nothing else.  In the
    merged object each of the seven metric keys holds the new reading, or the
    previous value where the new reading is [null] or [undefined], and every
    other key is as before. *)
Theorem updateDeviceMetrics_merges run deviceId metrics w devices device current :
  truthy metrics = true →
  free_of "." deviceId →
  state w !! "devices" = Some (VObj devices) →
  devices !! deviceId = Some (VObj device) →
  device !! "metrics" = Some (VObj current) →
  ∃ merged w',
    updateDeviceMetrics run deviceId metrics w = (inr (), w') ∧
    state w' =
      <["devices" :=
          VObj (<[deviceId :=
                    VObj (<["status" := VStr "connected"]>
                            (<["metrics" := VObj merged]> device))]> devices)]>
        (state w) ∧
    subscribers w' = subscribers w ∧
    ∀ key, merged !! key =
      if decide (key ∈ metric_keys) then
        Some (if nullish (member metrics key)
              then default VUndefined (current !! key)
              else member metrics key)
      else current !! key.
Proof.
  intros Htruthy Hid Hdevices Hdevice Hcurrent.
  destruct (merge_metrics_spec metrics current metric_keys current
              (truthy_not_nullish _ Htruthy) metric_keys_plain)
    as (merged & Hmerge & Hlookup).
  assert (Hpath : ∀ tail, free_of "." tail →
            split "." ("devices." +:+ deviceId +:+ String "." tail) =
              ["devices"; deviceId; tail]).
  { intros tail Htail. by rewrite devices_path_split, split_free. }
  assert (Hvalue : getState (Some ("devices." +:+ deviceId +:+ ".metrics")) w =
                     (inr (VObj current), w)).
  { rewrite getState_read. unfold read_at. rewrite decide_False by done.
    rewrite (Hpath "metrics") by (by repeat split).
    by rewrite (resolve_own _ _ _ _ Hdevices), (resolve_own _ _ _ _ Hdevice),
      (resolve_own _ _ _ _ Hcurrent). }
  exists merged. eexists. split.
  { unfold updateDeviceMetrics. rewrite Htruthy.
    change (negb true) with false. cbv iota.
    rewrite bind_run, Hvalue. cbn [spread].
    rewrite bind_run. unfold lift. rewrite Hmerge. cbv beta iota.
    rewrite bind_run, setState_spec.
    rewrite (Hpath "metrics") by (by repeat split).
    rewrite (assign_three _ _ _ _ _ _ _ Hdevices Hdevice) by (by left).
    cbv beta iota zeta. rewrite setState_spec. cbn [state after_calls].
    rewrite (Hpath "status") by (by repeat split).
    erewrite assign_three; [|apply lookup_insert_eq|apply lookup_insert_eq|by left].
    reflexivity. }
  split; [|split; [done|exact Hlookup]].
  cbn [state after_calls]. by rewrite !insert_insert_eq.
Qed.

Lemma updateDeviceMetrics_merges_witness :
  ∃ (merged : gmap string val) w',
    updateDeviceMetrics quiet "pc" (VObj {[ "cpu" := VNum 42 ]}) initial_world =
      (inr (), w') ∧
    merged !! "cpu" = Some (VNum 42) ∧ merged !! "ram" = Some VNull.
Proof.
  pose (devices := fields_of (member (VObj initial_state) "devices")).
  pose (device := fields_of (member (VObj devices) "pc")).
  pose (current := fields_of (member (VObj device) "metrics")).
  destruct (updateDeviceMetrics_merges quiet "pc" (VObj {[ "cpu" := VNum 42 ]})
              initial_world devices device current)
    as (merged & w' & Hrun & _ & _ & Hmerged).
  - reflexivity.
  - by repeat split.
  - vm_compute. reflexivity.
  - vm_compute. reflexivity.
  - vm_compute. reflexivity.
  - exists merged, w'. split; [exact Hrun|].
    split; rewrite Hmerged; vm_compute; reflexivity.
Defined.

Lemma merge_metrics_throws_TypeError metrics keys : ∀ fields e,
  nullish metrics = false →
  Forall (λ k, k ∉ builtin_names) keys →
  merge_metrics metrics VUndefined keys fields = inl e →
  ∃ msg, e = TypeError msg.
Proof.
  intros fields e Hm Hplain. revert fields.
  induction Hplain as [|k keys Hk Hkeys IH]; intros fields; [done|].
  cbn [merge_metrics].
  rewrite (js_get_plain _ _ Hm Hk), result_bind_inr. unfold coalesce.
  destruct (nullish (member metrics k)).
  - simpl. intros [= <-]. eauto.
  - rewrite result_bind_inr. by apply IH.
Qed.

(** X5. For a device id that the [devices] object neither holds nor
    inherits, [updateDeviceMetrics] with truthy metrics throws a
    [TypeError], whatever the readings are, and leaves the tree, the
    subscriptions and the logs as they were: no subscriber is called. *)
Theorem updateDeviceMetrics_unknown_device run deviceId metrics w devices :
  truthy metrics = true →
  free_of "." deviceId →
  state w !! "devices" = Some (VObj devices) →
  devices !! deviceId = None →
  inherited KObj deviceId = None →
  ∃ msg, updateDeviceMetrics run deviceId metrics w = (inl (TypeError msg), w).
Proof.
  intros Htruthy Hid Hdevices Hdevice Hinherited.
  assert (Hpath : split "." ("devices." +:+ deviceId +:+ ".metrics") =
                    ["devices"; deviceId] ++ ["metrics"]).
  { by rewrite devices_path_split, split_free by (by repeat split). }
  assert (Hmissing : resolve (VObj (state w)) ["devices"; deviceId] = inr VUndefined).
  { rewrite (resolve_own _ _ _ _ Hdevices), resolve_object_step, Hdevice.
    unfold beyond. by rewrite Hinherited. }
  assert (Hvalue : getState (Some ("devices." +:+ deviceId +:+ ".metrics")) w =
                     (inr VUndefined, w)).
  { rewrite getState_read. unfold read_at. rewrite decide_False by done.
    by rewrite Hpath, (resolve_app _ _ _ _ Hmissing). }
  unfold updateDeviceMetrics. rewrite Htruthy.
  change (negb true) with false. cbv iota.
  rewrite bind_run, Hvalue. cbn [spread].
  rewrite bind_run. unfold lift.
  destruct (merge_metrics metrics VUndefined metric_keys ∅) as [e|merged] eqn:Hmerge.
  - destruct (merge_metrics_throws_TypeError _ _ _ _ (truthy_not_nullish _ Htruthy)
                metric_keys_plain Hmerge) as [msg ->]. eauto.
  - cbv beta iota. rewrite bind_run, setState_spec, Hpath.
    destruct (assign_through_nullish ["devices"; deviceId] (VObj (state w)) ["metrics"]
                (VObj merged) VUndefined) as [msg ->]; [done..|]. eauto.
Qed.

Lemma updateDeviceMetrics_unknown_device_witness :
  let w := World {[ "devices" := VObj ∅ ]} ∅ [] [] in
  ∃ msg, updateDeviceMetrics quiet "tv" (VObj {[ "cpu" := VNum 1 ]}) w =
           (inl (TypeError msg), w).
Proof.
  intros w. apply (updateDeviceMetrics_unknown_device quiet "tv" _ w ∅);
    [reflexivity|by repeat split|reflexivity|reflexivity|vm_compute; reflexivity].
Defined.

(** X6. With [ui.graphsOpen] an object that holds the flag as a property of
    its own, or else a flag key that is no name of an inherited member, and
    the key free of dots, [toggleGraph] returns the negation of the
    truthiness of the flag and stores it as a boolean under the key made of
    the device id without its first underscore, an underscore and the metric;
    nothing else in the tree changes.  A second call returns the opposite,
    and when the flag was a boolean to begin with the tree is back as it
    was. *)
Theorem toggleGraph_flips run deviceId metric w ui flags :
  let key := remove_first "_" deviceId +:+ "_" +:+ metric in
  let shown := negb (truthy (default VUndefined (flags !! key))) in
  free_of "." key →
  is_Some (flags !! key) ∨ inherited KObj key = None →
  state w !! "ui" = Some (VObj ui) →
  ui !! "graphsOpen" = Some (VObj flags) →
  ∃ w1 w2,
    toggleGraph run deviceId metric w = (inr shown, w1) ∧
    state w1 =
      <["ui" := VObj (<["graphsOpen" := VObj (<[key := VBool shown]> flags)]> ui)]>
        (state w) ∧
    toggleGraph run deviceId metric w1 = (inr (negb shown), w2) ∧
    (flags !! key = Some (VBool (negb shown)) → state w2 = state w).
Proof.
  intros key shown Hkey Hown Hui Hflags.
  assert (Hpath : split "." ("ui.graphsOpen." +:+ key) = ["ui"; "graphsOpen"; key]).
  { change ("ui.graphsOpen." +:+ key)
      with ("ui" +:+ String "." ("graphsOpen" +:+ String "." key)).
    rewrite !split_append by (by repeat split). by rewrite split_free. }
  assert (Hrun : ∀ w0 ui0 flags0,
            state w0 !! "ui" = Some (VObj ui0) →
            ui0 !! "graphsOpen" = Some (VObj flags0) →
            is_Some (flags0 !! key) ∨ inherited KObj key = None →
            let b := negb (truthy (default VUndefined (flags0 !! key))) in
            ∃ w', toggleGraph run deviceId metric w0 = (inr b, w') ∧
                  state w' =
                    <["ui" := VObj (<["graphsOpen" := VObj (<[key := VBool b]> flags0)]> ui0)]>
                      (state w0)).
  { intros w0 ui0 flags0 Hui0 Hflags0 Hown0 b.
    assert (Hread : default (beyond KObj key) (flags0 !! key) =
                      default VUndefined (flags0 !! key)).
    { destruct Hown0 as [[x Hx]|Hnone]; [by rewrite Hx|].
      unfold beyond. by rewrite Hnone. }
    assert (Hstored : key ≠ "__proto__" ∨ is_Some (flags0 !! key)).
    { destruct Hown0 as [Hsome|Hnone]; [by right|]. left. by intros ->. }
    assert (Hvalue : getState (Some ("ui.graphsOpen." +:+ key)) w0 =
                       (inr (default VUndefined (flags0 !! key)), w0)).
    { rewrite getState_read. unfold read_at. rewrite decide_False by done.
      rewrite Hpath, (resolve_own _ _ _ _ Hui0), (resolve_own _ _ _ _ Hflags0).
      rewrite resolve_object_step. simpl. by rewrite Hread. }
    eexists. split.
    - unfold toggleGraph. fold key.
      rewrite bind_run, Hvalue.
      rewrite bind_run, setState_spec, Hpath.
      rewrite (assign_three _ _ _ _ _ _ _ Hui0 Hflags0 Hstored). reflexivity.
    - reflexivity. }
  destruct (Hrun w ui flags Hui Hflags Hown) as (w1 & Hfirst & Hstate1).
  destruct (Hrun w1 (<["graphsOpen" := VObj (<[key := VBool shown]> flags)]> ui)
              (<[key := VBool shown]> flags)) as (w2 & Hsecond & Hstate2).
  { rewrite Hstate1. apply lookup_insert_eq. }
  { apply lookup_insert_eq. }
  { left. rewrite lookup_insert_eq. eauto. }
  rewrite lookup_insert_eq in Hsecond, Hstate2. simpl in Hsecond, Hstate2.
  exists w1, w2. split_and!; [exact Hfirst|exact Hstate1|exact Hsecond|].
  intros Hbool. rewrite Hstate2, Hstate1, !insert_insert_eq.
  rewrite (insert_id flags key) by done.
  rewrite (insert_id ui "graphsOpen") by done.
  by apply insert_id.
Qed.

Lemma toggleGraph_flips_witness :
  let w := World {[ "ui" := VObj {[ "graphsOpen" := VObj {[ "pc_cpu" := VBool false ]} ]} ]}
                 ∅ [] [] in
  ∃ w1 w2,
    toggleGraph quiet "pc" "cpu" w = (inr true, w1) ∧
    toggleGraph quiet "pc" "cpu" w1 = (inr false, w2) ∧
    state w2 = state w.
Proof.
  intros w.
  destruct (toggleGraph_flips quiet "pc" "cpu" w
              {[ "graphsOpen" := VObj {[ "pc_cpu" := VBool false ]} ]}
              {[ "pc_cpu" := VBool false ]})
    as (w1 & w2 & Hfirst & _ & Hsecond & Hback).
  - by repeat split.
  - left. vm_compute. eauto.
  - reflexivity.
  - reflexivity.
  - exists w1, w2. split_and!; [exact Hfirst|exact Hsecond|].
    apply Hback. reflexivity.
Defined.

(** X7. With [ui] an object, [updateRecording] returns and replaces
    [ui.recording] by an object that holds every property of the update and,
    for the keys the update does not have, the properties of the previous
    recording; nothing else in the tree changes.  Applying the same update a
    second time leaves the tree as the first application left it. *)
Theorem updateRecording_merges run recording w ui :
  state w !! "ui" = Some (VObj ui) →
  let current := default VUndefined (ui !! "recording") in
  let merged := spread recording ∪ spread current in
  ∃ w1 w2,
    updateRecording run recording w = (inr (), w1) ∧
    state w1 = <["ui" := VObj (<["recording" := VObj merged]> ui)]> (state w) ∧
    (∀ key, merged !! key =
       match spread recording !! key with
       | Some x => Some x
       | None => spread current !! key
       end) ∧
    updateRecording run recording w1 = (inr (), w2) ∧
    state w2 = state w1.
Proof.
  intros Hui current merged.
  assert (Hrun : ∀ w0 ui0,
            state w0 !! "ui" = Some (VObj ui0) →
            ∃ w', updateRecording run recording w0 = (inr (), w') ∧
                  state w' =
                    <["ui" := VObj (<["recording" :=
                         VObj (spread recording ∪
                               spread (default VUndefined (ui0 !! "recording")))]> ui0)]>
                      (state w0)).
  { intros w0 ui0 Hui0.
    assert (Hvalue : getState (Some "ui.recording") w0 =
                       (inr (default VUndefined (ui0 !! "recording")), w0)).
    { rewrite getState_read. unfold read_at. rewrite decide_False by done.
      change (split "." "ui.recording") with ["ui"; "recording"].
      by rewrite (resolve_own _ _ _ _ Hui0). }
    eexists. split.
    - unfold updateRecording.
      rewrite bind_run, Hvalue, setState_spec.
      change (split "." "ui.recording") with ["ui"; "recording"].
      rewrite (assign_two _ _ _ _ _ Hui0) by (by left). reflexivity.
    - reflexivity. }
  destruct (Hrun w ui Hui) as (w1 & Hfirst & Hstate1).
  destruct (Hrun w1 (<["recording" := VObj merged]> ui)) as (w2 & Hsecond & Hstate2).
  { rewrite Hstate1. apply lookup_insert_eq. }
  exists w1, w2. split_and!; [exact Hfirst|exact Hstate1| |exact Hsecond|].
  - intros key. unfold merged. rewrite lookup_union.
    destruct (spread recording !! key), (spread current !! key); done.
  - rewrite Hstate2, Hstate1, lookup_insert_eq, !insert_insert_eq. simpl.
    fold current. fold merged.
    replace (spread recording ∪ merged) with merged; [done|].
    unfold merged. by rewrite (assoc_L (∪)), (idemp_L (∪)).
Qed.

Lemma updateRecording_merges_witness :
  let w := World {[ "ui" := VObj {[ "recording" :=
                      VObj {[ "active" := VBool false; "elapsed" := VNum 0 ]} ]} ]}
                 ∅ [] [] in
  ∃ w1, updateRecording quiet (VObj {[ "active" := VBool true ]}) w = (inr (), w1) ∧
        value_at (state w1) "ui.recording.active" = VBool true ∧
        value_at (state w1) "ui.recording.elapsed" = VNum 0.
Proof.
  intros w.
  destruct (updateRecording_merges quiet (VObj {[ "active" := VBool true ]}) w
              {[ "recording" := VObj {[ "active" := VBool false; "elapsed" := VNum 0 ]} ]})
    as (w1 & w2 & Hfirst & Hstate & _).
  - reflexivity.
  - exists w1. split; [exact Hfirst|]. rewrite Hstate. split; vm_compute; reflexivity.
Defined.

(** ** Subscriptions across calls *)

(** X8. Registering a callback that the path (other than ['*']) does not
    hold yet puts it last in the set of that path: a [setState] at the path
    then makes the calls it would have made before, with one more call, of
    the new callback, right after the calls of the callbacks registered at
    the path before.  The sets of the other paths, the tree and the logs are
    untouched by the registration, and nobody is called by it. *)
Theorem subscribe_appends run path cb value w w0 :
  cb ∉ subscribers_at w path →
  path ≠ "*" →
  setState run path value w = (inr (), w0) →
  let oldValue := follow (state w) path in
  ∃ w1 w1' rest,
    subscribe path cb w = (inr (unsubscribe path cb), w1) ∧
    subscribers_at w1 path = subscribers_at w path ++ [cb] ∧
    (∀ other, other ≠ path → subscribers_at w1 other = subscribers_at w other) ∧
    state w1 = state w ∧ calls w1 = calls w ∧ console w1 = console w ∧
    new_calls w w0 = tier (subscribers_at w path) value oldValue path ++ rest ∧
    setState run path value w1 = (inr (), w1') ∧
    new_calls w1 w1' =
      tier (subscribers_at w path) value oldValue path ++
      [Invocation cb value oldValue path] ++ rest.
Proof.
  intros Hnew Hstar Hset oldValue.
  destruct (setState_with_other_set run path value w w0 Hstar Hset)
    as (rest & Hcalls0 & Hother).
  destruct (Hother (set_add cb (subscribers_at w path))) as (w1' & Hset1 & Hcalls1 & _).
  eexists _, w1', rest. split; [apply subscribe_spec|].
  assert (Hat : ∀ q, subscribers_at
                       (World (state w)
                          (<[path := set_add cb (subscribers_at w path)]> (subscribers w))
                          (calls w) (console w)) q =
                     if decide (path = q) then subscribers_at w path ++ [cb]
                     else subscribers_at w q).
  { intros q. unfold subscribers_at at 1. simpl. rewrite lookup_insert.
    case_decide; [|done]. simpl. unfold set_add. by rewrite decide_False. }
  split_and!; try done.
  - by rewrite Hat, decide_True.
  - intros other Hother'. by rewrite Hat, decide_False.
  - unfold new_calls. by rewrite Hcalls0, drop_app_length.
  - unfold new_calls. simpl calls. rewrite Hcalls1, drop_app_length.
    unfold set_add. rewrite decide_False by done.
    unfold tier. by rewrite map_app, <- app_assoc.
Qed.

Lemma subscribe_appends_witness :
  let w := World {[ "app" := VObj {[ "error" := VNull ]} ]} {[ "app.error" := [1; 2] ]}
                 [] [] in
  let w0 := snd (setState quiet "app.error" (VStr "boom") w) in
  let oldValue := follow (state w) "app.error" in
  ∃ w1 w1' rest,
    subscribe "app.error" 3 w = (inr (unsubscribe "app.error" 3), w1) ∧
    subscribers_at w1 "app.error" = subscribers_at w "app.error" ++ [3] ∧
    (∀ other, other ≠ "app.error" → subscribers_at w1 other = subscribers_at w other) ∧
    state w1 = state w ∧ calls w1 = calls w ∧ console w1 = console w ∧
    new_calls w w0 = tier (subscribers_at w "app.error") (VStr "boom") oldValue "app.error"
                     ++ rest ∧
    setState quiet "app.error" (VStr "boom") w1 = (inr (), w1') ∧
    new_calls w1 w1' =
      tier (subscribers_at w "app.error") (VStr "boom") oldValue "app.error" ++
      [Invocation 3 (VStr "boom") oldValue "app.error"] ++ rest.
Proof.
  intros w w0.
  apply (subscribe_appends quiet "app.error" 3 (VStr "boom") w w0).
  - vm_compute. intros Hin. repeat (apply elem_of_cons in Hin as [Hin|Hin]; [done|]).
    by apply elem_of_nil in Hin.
  - done.
  - vm_compute. reflexivity.
Defined.

Lemma sets_ok_same_subscribers w w' :
  subscribers w' = subscribers w → sets_ok w → sets_ok w'.
Proof. unfold sets_ok. by intros ->. Qed.

Lemma run_setState_subscribers run path value w r w' :
  setState run path value w = (r, w') → subscribers w' = subscribers w.
Proof. intros Hrun. by rewrite <- (setState_subscribers run path value w), Hrun. Qed.

Lemma getState_run path w : getState path w = (fst (getState path w), w).
Proof.
  rewrite <- (getState_world path w) at 3. by destruct (getState path w).
Qed.

(** The update functions only go through [getState] and [setState]: they
    leave the subscriptions alone. *)
Lemma update_keeps_subscribers run op w :
  match op with
  | Subscribe _ _ | Unsubscribe _ _ => True
  | _ => subscribers (perform run op w) = subscribers w
  end.
Proof.
  destruct op as [path cb|path cb|path value|deviceId metrics|deviceId status
                 |deviceId metric|recording|deviceId metric data|disks];
    try done; cbn [perform];
    try (unfold updateDeviceStatus, updateHistory, updateDisks;
         by apply setState_subscribers).
  - unfold updateDeviceMetrics. destruct (truthy metrics); [|done].
    change (negb true) with false. cbv iota.
    rewrite bind_run, getState_run.
    destruct (fst (getState _ w)) as [e|current]; [done|].
    rewrite bind_run. unfold lift.
    destruct (merge_metrics _ _ _ _) as [e|fields]; [done|]. cbv beta iota.
    rewrite bind_run.
    destruct (setState run _ (VObj fields) w) as [[e|[]] w1] eqn:Hfirst.
    + by eapply run_setState_subscribers.
    + rewrite setState_subscribers. by eapply run_setState_subscribers.
  - unfold toggleGraph. rewrite bind_run, getState_run.
    destruct (fst (getState _ w)) as [e|current]; [done|].
    rewrite bind_run.
    destruct (setState run _ _ w) as [[e|[]] w1] eqn:Hfirst;
      by eapply run_setState_subscribers.
  - unfold updateRecording. rewrite bind_run, getState_run.
    destruct (fst (getState _ w)) as [e|current]; [done|].
    apply setState_subscribers.
Qed.

(** X9. Whatever sequence of calls the store receives ([subscribe], the
    functions it returned, [setState] and the update functions), returning or
    throwing, no set of subscribers ever holds a callback twice. *)
Theorem sets_stay_duplicate_free run ops w :
  sets_ok w → sets_ok (foldl (λ w op, perform run op w) w ops).
Proof.
  revert w. induction ops as [|op ops IH]; intros w Hok; [done|].
  simpl. apply IH.
  pose proof (update_keeps_subscribers run op w) as Hkeep.
  destruct op; try (by eapply sets_ok_same_subscribers).
  - by apply sets_ok_subscribe.
  - by apply sets_ok_unsubscribe.
Qed.

Lemma sets_stay_duplicate_free_witness :
  sets_ok (foldl (λ w op, perform quiet op w) (World ∅ ∅ [] [])
                 [Subscribe "a" 1; Subscribe "a" 1; SetState "a" VNull; Unsubscribe "a" 1]).
Proof.
  apply sets_stay_duplicate_free.
  intros path set Hset. simpl in Hset. by apply lookup_empty_Some in Hset.
Defined.

(** X10. Only [subscribe] and the functions it returns change the
    subscriptions, and they change nothing else and call nobody; [setState]
    and the update functions never add or remove a subscriber. *)
Theorem subscriptions_and_tree_are_separate run op w :
  match op with
  | Subscribe _ _ | Unsubscribe _ _ =>
      state (perform run op w) = state w ∧
      calls (perform run op w) = calls w ∧
      console (perform run op w) = console w
  | _ => subscribers (perform run op w) = subscribers w
  end.
Proof.
  pose proof (update_keeps_subscribers run op w) as Hkeep.
  destruct op; try exact Hkeep; cbn [perform].
  - by rewrite subscribe_spec.
  - rewrite unsubscribe_spec. simpl. by destruct (subscribers w !! path).
Qed.

End StoreFurther.

(** * Further properties of the API client *)

Section ClientFurther.
Import APIClient ClientSpec.

Lemma attempts_success network attempt todo lastError data :
  try_block (network attempt) = inr data →
  attempts network (attempt :: todo) lastError = ([Fetch attempt], inr data).
Proof. intros Htry. simpl. by rewrite Htry. Qed.

Lemma attempts_abort network attempt todo lastError error :
  try_block (network attempt) = inl error →
  includes "HTTP error 4" (message_of error) = false →
  name_of error = "AbortError" →
  attempts network (attempt :: todo) lastError =
    ([Fetch attempt], inl (ErrorObject "Error" "Request timeout")).
Proof. intros Htry Hmsg Hname. simpl. rewrite Htry, Hmsg. by rewrite decide_True. Qed.

Lemma attempts_client_error network attempt todo lastError error :
  try_block (network attempt) = inl error →
  includes "HTTP error 4" (message_of error) = true →
  attempts network (attempt :: todo) lastError = ([Fetch attempt], inl error).
Proof. intros Htry Hmsg. simpl. by rewrite Htry, Hmsg. Qed.

(** What reaches the [catch] block is an error object: [error] and [message]
    are names of no inherited member, so that reading them throws only on
    [undefined] and [null]. *)
Lemma error_and_message_plain :
  ("error" ∉ builtin_names) ∧ ("message" ∉ builtin_names).
Proof.
  assert (Hplain : Forall (λ k, k ∉ builtin_names) ["error"; "message"]).
  { apply (bool_decide_unpack (Forall (λ k, k ∉ builtin_names) ["error"; "message"])).
    vm_compute. exact I. }
  rewrite !Forall_cons in Hplain. tauto.
Qed.

Lemma js_get_plain_throws v k e :
  k ∉ builtin_names → js_get v k = inl e → ∃ message, e = TypeError message.
Proof.
  intros Hk. destruct (nullish v) eqn:Hv.
  - destruct v; try done; simpl; intros [= <-]; eauto.
  - by rewrite js_get_plain.
Qed.

Lemma js_get_opt_plain v k :
  k ∉ builtin_names → ∃ x, js_get_opt v k = inr x.
Proof.
  intros Hk. unfold js_get_opt. destruct (nullish v) eqn:Hv; [by eexists|].
  rewrite js_get_plain by done. by eexists.
Qed.

Lemma try_block_error r e :
  try_block r = inl e → is_error e = true.
Proof.
  destruct error_and_message_plain as [Herror Hmessage].
  destruct r as [name message|status [name message|data]]; simpl.
  - by intros [= <-].
  - by intros [= <-].
  - destruct (response_ok status); [done|].
    destruct (js_get data "error") as [e'|err] eqn:Herr; simpl.
    + intros [= <-]. by destruct (js_get_plain_throws _ _ _ Herror Herr) as [m ->].
    + destruct (js_get_opt_plain err "message" Hmessage) as [m ->]. simpl.
      by intros [= <-].
Qed.

(** X11. Whatever the network does, [request] makes between one and
    [MAX_RETRIES] fetches, numbered from 1 without a gap, and waits only
    between two fetches: 200 ms after the first, 400 ms after the second.  When
    it fails it throws an error object, never [undefined]. *)
Theorem request_is_bounded network :
  ∃ n, 1 ≤ n ≤ MAX_RETRIES ∧
       fetches (fst (request network)) = seq 1 n ∧
       delays (fst (request network)) = take (n - 1) [200; 400] ∧
       ∀ e, snd (request network) = inl e → is_error e = true.
Proof.
  unfold request. change (seq 1 MAX_RETRIES) with [1; 2; 3].
  assert (Hstep : ∀ attempt todo lastError,
            (∃ data, attempts network (attempt :: todo) lastError = ([Fetch attempt], inr data)) ∨
            (∃ e, is_error e = true ∧
               attempts network (attempt :: todo) lastError = ([Fetch attempt], inl e)) ∨
            (∃ e, is_error e = true ∧
               attempts network (attempt :: todo) lastError =
                 (Fetch attempt ::
                    (if decide (attempt < MAX_RETRIES) then [Sleep (2 ^ attempt * 100)] else []) ++
                    fst (attempts network todo e),
                  snd (attempts network todo e)))).
  { intros attempt todo lastError.
    destruct (try_block (network attempt)) as [e|data] eqn:Htry.
    - right. pose proof (try_block_error _ _ Htry) as He.
      destruct (includes "HTTP error 4" (message_of e)) eqn:Hmsg.
      + left. exists e. split; [done|]. simpl. by rewrite Htry, Hmsg.
      + destruct (decide (name_of e = "AbortError")) as [Hname|Hname].
        * left. exists (ErrorObject "Error" "Request timeout").
          split; [done|]. by apply (attempts_abort _ _ _ _ e).
        * right. exists e. split; [done|]. by apply attempts_retry.
    - left. exists data. by apply attempts_success. }
  assert (HM : MAX_RETRIES = 3) by done.
  destruct (Hstep 1 [2; 3] (Thrown VUndefined))
    as [(d & ->)|[(e & He & ->)|(e1 & He1 & ->)]].
  { exists 1. split_and!; [lia|lia|done|done|done]. }
  { exists 1. split_and!; [lia|lia|done|done|]. by intros e' [= <-]. }
  destruct (Hstep 2 [3] e1)
    as [(d & ->)|[(e & He & ->)|(e2 & He2 & ->)]].
  { exists 2. split_and!; [lia|lia|done|done|done]. }
  { exists 2. split_and!; [lia|lia|done|done|].
    by intros e' [= <-]. }
  destruct (Hstep 3 [] e2)
    as [(d & ->)|[(e & He & ->)|(e3 & He3 & ->)]].
  { exists 3. split_and!; [lia|lia|done|done|done]. }
  { exists 3. split_and!; [lia|lia|done|done|]. by intros e' [= <-]. }
  exists 3. split_and!; [lia|lia|done|done|]. simpl. by intros e' [= <-].
Qed.

(** X12. When the attempts before the [k]-th end in exceptions that are
    retried on and the [k]-th gets a 2xx response with a body that parses,
    [request] returns that body as it is, after exactly [k] fetches and the
    backoff waits between them. *)
Theorem request_returns_first_success network k data :
  1 ≤ k ≤ MAX_RETRIES →
  (∀ j, 1 ≤ j < k → ∃ e, try_block (network j) = inl e ∧ retryable e) →
  try_block (network k) = inr data →
  fetches (fst (request network)) = seq 1 k ∧
  delays (fst (request network)) = take (k - 1) [200; 400] ∧
  snd (request network) = inr data.
Proof.
  intros Hk Hfail Hok. unfold request. change (seq 1 MAX_RETRIES) with [1; 2; 3].
  unfold MAX_RETRIES in Hk.
  destruct k as [|[|[|[|k]]]]; try lia.
  - by rewrite (attempts_success _ _ _ _ _ Hok).
  - destruct (Hfail 1) as (e1 & H1 & R1); [lia|].
    rewrite (attempts_retry _ 1 _ _ e1), (attempts_success _ _ _ _ _ Hok) by done.
    done.
  - destruct (Hfail 1) as (e1 & H1 & R1); [lia|].
    destruct (Hfail 2) as (e2 & H2 & R2); [lia|].
    rewrite (attempts_retry _ 1 _ _ e1), (attempts_retry _ 2 _ _ e2),
      (attempts_success _ _ _ _ _ Hok) by done.
    done.
Qed.

Lemma request_returns_first_success_witness :
  let body := VObj {[ "success" := VBool false ]} in
  let network := λ attempt : nat,
    if decide (attempt = 2) then FetchResolves 200 (JsonResolves body)
    else FetchRejects "TypeError" "Failed to fetch" in
  fetches (fst (request network)) = seq 1 2 ∧
  delays (fst (request network)) = take (2 - 1) [200; 400] ∧
  snd (request network) = inr body.
Proof.
  intros body network. apply request_returns_first_success.
  - unfold MAX_RETRIES. lia.
  - intros j Hj. assert (j = 1) as -> by lia.
    eexists. split; [reflexivity|]. split; [reflexivity|discriminate].
  - reflexivity.
Defined.

(** X13. An attempt that ends in an [AbortError] (the timeout has aborted
    the fetch) is not retried, also after earlier attempts were: [request]
    fails with the error ["Request timeout"] right after that fetch. *)
Theorem request_timeout_is_not_retried network k error :
  1 ≤ k ≤ MAX_RETRIES →
  (∀ j, 1 ≤ j < k → ∃ e, try_block (network j) = inl e ∧ retryable e) →
  try_block (network k) = inl error →
  includes "HTTP error 4" (message_of error) = false →
  name_of error = "AbortError" →
  fetches (fst (request network)) = seq 1 k ∧
  snd (request network) = inl (ErrorObject "Error" "Request timeout").
Proof.
  intros Hk Hfail Htry Hmsg Hname. unfold request.
  change (seq 1 MAX_RETRIES) with [1; 2; 3]. unfold MAX_RETRIES in Hk.
  destruct k as [|[|[|[|k]]]]; try lia.
  - by rewrite (attempts_abort _ _ _ _ _ Htry).
  - destruct (Hfail 1) as (e1 & H1 & R1); [lia|].
    rewrite (attempts_retry _ 1 _ _ e1), (attempts_abort _ _ _ _ _ Htry) by done.
    done.
  - destruct (Hfail 1) as (e1 & H1 & R1); [lia|].
    destruct (Hfail 2) as (e2 & H2 & R2); [lia|].
    rewrite (attempts_retry _ 1 _ _ e1), (attempts_retry _ 2 _ _ e2),
      (attempts_abort _ _ _ _ _ Htry) by done.
    done.
Qed.

Lemma request_timeout_is_not_retried_witness :
  let network := λ _ : nat, FetchRejects "AbortError" "The user aborted a request." in
  fetches (fst (request network)) = seq 1 1 ∧
  snd (request network) = inl (ErrorObject "Error" "Request timeout").
Proof.
  intros network.
  apply (request_timeout_is_not_retried network 1
           (ErrorObject "AbortError" "The user aborted a request.")).
  - unfold MAX_RETRIES. lia.
  - intros j Hj. lia.
  - reflexivity.
  - reflexivity.
  - reflexivity.
Defined.

(** X14. An attempt whose error message contains ["HTTP error 4"] ends
    the call, also after earlier attempts were retried: no further fetch is
    made, no delay follows, and that error is thrown as it is. *)
Theorem request_stops_at_client_error network k error :
  1 ≤ k ≤ MAX_RETRIES →
  (∀ j, 1 ≤ j < k → ∃ e, try_block (network j) = inl e ∧ retryable e) →
  try_block (network k) = inl error →
  includes "HTTP error 4" (message_of error) = true →
  fetches (fst (request network)) = seq 1 k ∧
  delays (fst (request network)) = take (k - 1) [200; 400] ∧
  snd (request network) = inl error.
Proof.
  intros Hk Hfail Htry Hmsg. unfold request.
  change (seq 1 MAX_RETRIES) with [1; 2; 3]. unfold MAX_RETRIES in Hk.
  destruct k as [|[|[|[|k]]]]; try lia.
  - by rewrite (attempts_client_error _ _ _ _ _ Htry).
  - destruct (Hfail 1) as (e1 & H1 & R1); [lia|].
    rewrite (attempts_retry _ 1 _ _ e1), (attempts_client_error _ _ _ _ _ Htry) by done.
    done.
  - destruct (Hfail 1) as (e1 & H1 & R1); [lia|].
    destruct (Hfail 2) as (e2 & H2 & R2); [lia|].
    rewrite (attempts_retry _ 1 _ _ e1), (attempts_retry _ 2 _ _ e2),
      (attempts_client_error _ _ _ _ _ Htry) by done.
    done.
Qed.

Lemma request_stops_at_client_error_witness :
  let network := λ attempt : nat,
    if decide (attempt = 2)
    then FetchResolves 404 (JsonResolves (VObj {[ "success" := VBool false ]}))
    else FetchRejects "TypeError" "Failed to fetch" in
  fetches (fst (request network)) = seq 1 2 ∧
  delays (fst (request network)) = take (2 - 1) [200; 400] ∧
  snd (request network) = inl (ErrorObject "Error" "HTTP error 404").
Proof.
  intros network. apply request_stops_at_client_error.
  - unfold MAX_RETRIES. lia.
  - intros j Hj. assert (j = 1) as -> by lia.
    eexists. split; [reflexivity|]. split; [reflexivity|discriminate].
  - reflexivity.
  - reflexivity.
Defined.

(** X15. When every attempt ends in an exception that is retried on, the
    call makes [MAX_RETRIES] fetches with a wait of 200 ms and one of 400 ms
    between them and none after the last, and what it throws is the error of
    the last attempt, not of the first. *)
Theorem request_throws_the_last_error network :
  (∀ j, 1 ≤ j ≤ MAX_RETRIES → ∃ e, try_block (network j) = inl e ∧ retryable e) →
  ∃ e, try_block (network MAX_RETRIES) = inl e ∧
       request network =
         ([Fetch 1; Sleep 200; Fetch 2; Sleep 400; Fetch 3], inl e).
Proof.
  intros Hfail. unfold request. change (seq 1 MAX_RETRIES) with [1; 2; 3].
  destruct (Hfail 1) as (e1 & H1 & R1); [unfold MAX_RETRIES; lia|].
  destruct (Hfail 2) as (e2 & H2 & R2); [unfold MAX_RETRIES; lia|].
  destruct (Hfail 3) as (e3 & H3 & R3); [unfold MAX_RETRIES; lia|].
  exists e3. split; [exact H3|].
  by rewrite (attempts_retry _ 1 _ _ e1), (attempts_retry _ 2 _ _ e2),
    (attempts_retry _ 3 _ _ e3).
Qed.

Lemma request_throws_the_last_error_witness :
  let network := λ attempt : nat,
    if decide (attempt = 3) then FetchResolves 503 (JsonRejects "SyntaxError" "Unexpected token")
    else FetchRejects "TypeError" "Failed to fetch" in
  ∃ e, try_block (network MAX_RETRIES) = inl e ∧
       request network =
         ([Fetch 1; Sleep 200; Fetch 2; Sleep 400; Fetch 3], inl e).
Proof.
  intros network. apply request_throws_the_last_error.
  intros j Hj. unfold MAX_RETRIES in Hj. unfold network.
  destruct (decide (j = 3)) as [->|Hj3].
  - eexists. split; [reflexivity|]. split; [reflexivity|discriminate].
  - eexists. split; [reflexivity|]. split; [reflexivity|discriminate].
Defined.

End ClientFurther.

(** * Further properties of the poll orchestrator *)

(** Splits a goal [preserves P p] along the structure of [p]; [tac] settles
    what a synchronous step has to keep. *)
Ltac keeping tac :=
  repeat first
    [ assumption
    | match goal with
      | H : ∀ x, App.preserves _ _ |- _ => apply H
      | |- App.preserves _ (mret _) => constructor
      | |- App.preserves _ (App.act _) =>
          constructor; [intros ? ?; tac|constructor]
      | |- App.preserves _ (App.call _) =>
          constructor; [intros ? ?; tac|constructor; intros ?; constructor]
      | |- App.preserves _ (mbind _ _) => apply preserves_bind; [|intros ?]
      | |- App.preserves _ (App.Test _ _ _) => apply App.preserves_test
      | |- App.preserves _ (match ?x with _ => _ end) => destruct x eqn:?
      end ].

Section OrchestratorFurther.
Import App AppSpec.

(** ** Properties kept by every synchronous step *)

Lemma run_keeps (P : env → Prop) p : ∀ s,
  preserves P p → P s → P (fst (run p s)).
Proof.
  induction p as [a|e k IH|f k IH|c yes IHyes no IHno]; intros s Hp Hs;
    inversion Hp; subst; simpl; auto.
  destruct (c s); auto.
Qed.

Lemma run_resume_keeps (P : env → Prop) p : ∀ s t r,
  preserves P p → snd (run p s) = Some t → preserves P (resume t r).
Proof.
  induction p as [a|e k IH|f k IH|c yes IHyes no IHno]; intros s t r Hp;
    inversion Hp; subst; simpl.
  - done.
  - by intros [= <-].
  - by apply IH.
  - destruct (c s); [by apply IHyes|by apply IHno].
Qed.

Lemma segment_keeps (P : env → Prop) p q :
  preserves P p → segment p q → preserves P q.
Proof. intros Hp. induction 1; [done|]. by eapply run_resume_keeps. Qed.

Lemma settle_env id p σ : sys_env (settle id p σ) = fst (run p (sys_env σ)).
Proof. unfold settle. by destruct (run p (sys_env σ)). Qed.

Lemma settle_tasks_keep (P : env → Prop) id p σ :
  (∀ id t r, tasks σ !! id = Some t → preserves P (resume t r)) →
  preserves P p →
  ∀ id' t r, tasks (settle id p σ) !! id' = Some t → preserves P (resume t r).
Proof.
  intros Htasks Hp id' t r. unfold settle.
  destruct (run p (sys_env σ)) as [s' [t'|]] eqn:Hrun; simpl.
  - rewrite lookup_insert. case_decide.
    + intros [= <-]. eapply run_resume_keeps; [exact Hp|]. by rewrite Hrun.
    + apply Htasks.
  - rewrite lookup_delete. case_decide; [done|apply Htasks].
Qed.

Lemma step_tasks_keep (P : env → Prop) σ l σ' :
  (∀ h, preserves P (handler_proc h)) →
  (∀ id t r, tasks σ !! id = Some t → preserves P (resume t r)) →
  step σ l = Some σ' →
  ∀ id t r, tasks σ' !! id = Some t → preserves P (resume t r).
Proof.
  intros Hh Htasks. destruct l as [id|id|t r]; simpl.
  - destruct (intervals (sys_env σ) !! id) as [[h ms]|]; [|done].
    intros [= <-]. by apply settle_tasks_keep.
  - destruct (timeouts (sys_env σ) !! id) as [[h ms]|]; [|done].
    intros [= <-]. by apply settle_tasks_keep.
  - destruct (tasks σ !! t) as [task|] eqn:Htask; [|done].
    intros [= <-]. apply settle_tasks_keep; [done|]. by eapply Htasks.
Qed.

Lemma reachable_tasks_keep (P : env → Prop) σ :
  (∀ h, preserves P (handler_proc h)) →
  reachable σ →
  ∀ id t r, tasks σ !! id = Some t → preserves P (resume t r).
Proof.
  intros Hh. induction 1 as [|σ l σ' _ IH Hstep].
  - apply (settle_tasks_keep P _ _ (System _ _ _)); [|apply (Hh Init)].
    intros id t r. simpl. by rewrite lookup_empty.
  - by eapply step_tasks_keep.
Qed.

Section Keeping.
Variable P : env → Prop.
Variable ok : effect → Prop.
Hypothesis keep_emit : ∀ x s, ok x → P s → P (emit x s).
Hypothesis ok_collaborator : ∀ c, ok (Collaborator c).
Hypothesis ok_console : ∀ line, ok (Console line).

Lemma keep_emit_all what {X} (items : list X) s :
  P s → P (foldl (λ s _, emit (Collaborator what) s) s items).
Proof. revert s. induction items as [|x items IH]; intros s Hs; simpl; auto. Qed.

Lemma keep_for_each list what f s : for_each_of list what = inr f → P s → P (f s).
Proof.
  unfold for_each_of. destruct list; intros [= <-] Hs. by apply keep_emit_all.
Qed.

Lemma keep_initial_devices response f s :
  initial_devices response = inr f → P s → P (f s).
Proof.
  unfold initial_devices.
  destruct (success_and_data response) as [e|[|]]; simpl; [done| |by intros [= <-]].
  destruct (js_get response "data") as [e|data]; simpl; [done|].
  destruct (js_get data "devices") as [e|devices]; simpl; [done|].
  apply keep_for_each.
Qed.

Local Ltac quiet :=
  keeping ltac:(first [ by eapply keep_for_each
                      | by eapply keep_initial_devices
                      | by apply keep_emit ]).

Lemma keep_health_outcome r : preserves P (health_outcome r).
Proof. unfold health_outcome. quiet. Qed.

Lemma keep_checkBackendHealth :
  ok (Request Health) → preserves P checkBackendHealth.
Proof. intros ?. pose proof keep_health_outcome. unfold checkBackendHealth. quiet. Qed.

Lemma keep_pollConnectionEvents :
  ok (Request ConnectionEvents) → preserves P pollConnectionEvents.
Proof. intros ?. unfold pollConnectionEvents. quiet. Qed.

Lemma keep_pollConnectionStatus :
  ok (Request ConnectionStatus) → ok (Request ConnectionEvents) →
  preserves P pollConnectionStatus.
Proof.
  intros ? Hevents. pose proof (keep_pollConnectionEvents Hevents).
  unfold pollConnectionStatus. quiet.
Qed.

Lemma keep_pollDeviceStatus :
  ok (Request Devices) → ok (Request ConnectionStatus) →
  ok (Request ConnectionEvents) →
  preserves P pollDeviceStatus.
Proof.
  intros ? Hstatus Hevents. pose proof (keep_pollConnectionStatus Hstatus Hevents).
  unfold pollDeviceStatus. quiet.
Qed.

Lemma keep_pollNetworkStats : ok (Request NetworkStats) → preserves P pollNetworkStats.
Proof. intros ?. unfold pollNetworkStats. quiet. Qed.

Lemma keep_pollQuestStorage : ok (Request QuestStorage) → preserves P pollQuestStorage.
Proof. intros ?. unfold pollQuestStorage. quiet. Qed.

Section Handlers.
Hypothesis ok_all : ∀ x, ok x.
Hypothesis keep_startPolling : ∀ s, P s → P (startPolling s).
Hypothesis keep_stopPolling : ∀ s, P s → P (stopPolling s).
Hypothesis keep_setTimeout : ∀ h ms s, P s → P (snd (setTimeout h ms s)).
Hypothesis keep_count : ∀ s, P s → P (set_pollCounter (S (pollCounter s)) s).

Local Ltac steering :=
  keeping ltac:(first [ by apply keep_startPolling
                      | by apply keep_stopPolling
                      | by apply keep_setTimeout
                      | by apply keep_count
                      | by eapply keep_for_each
                      | by eapply keep_initial_devices
                      | by apply keep_emit ]).

Lemma keep_pollMetrics : preserves P pollMetrics.
Proof.
  pose proof (keep_checkBackendHealth (ok_all _)).
  unfold pollMetrics, on_polling_error, offline_unless. steering.
Qed.

Lemma keep_handler h : preserves P (handler_proc h).
Proof.
  pose proof (keep_checkBackendHealth (ok_all _)).
  pose proof keep_pollMetrics.
  pose proof (keep_pollNetworkStats (ok_all _)).
  pose proof (keep_pollQuestStorage (ok_all _)).
  pose proof (keep_pollConnectionStatus (ok_all _) (ok_all _)).
  pose proof (keep_pollDeviceStatus (ok_all _) (ok_all _) (ok_all _)).
  destruct h; simpl.
  - unfold init, fetchInitialData. steering.
  - unfold metrics_loop, storage_cycle. steering.
  - done.
  - unfold retry_connection. steering.
Qed.

End Handlers.
End Keeping.

(** ** The streams and the flag *)

(** X16. In every state the page can reach, [isPolling] tells the truth
    about the interval timers: when it is on, exactly two are live, the
    metrics stream at 10000 ms and the device stream at 2000 ms, held in
    [pollTimer] and [devicePollTimer]; when it is off, none is live and both
    variables are [null].  So no stream ever runs twice, and none is left
    running by a stop. *)
Theorem polling_flag_matches_timers σ :
  reachable σ →
  if isPolling (sys_env σ) then streams_running (sys_env σ)
  else streams_stopped (sys_env σ).
Proof. intros Hσ. by destruct (reachable_sound σ Hσ) as [[Hflag _] _]. Qed.

Lemma polling_flag_matches_timers_witness :
  let up := Resolves (VObj {[ "success" := VBool true ]}) in
  let σ := after [Settles 0 up; Settles 0 (Rejects "Failed to fetch")] in
  if isPolling (sys_env σ) then streams_running (sys_env σ)
  else streams_stopped (sys_env σ).
Proof.
  intros up σ. apply (polling_flag_matches_timers σ). apply after_reachable.
Defined.

(** X17. [startPolling] is idempotent: a second call finds [isPolling] set
    and returns before it sets a timer or logs. *)
Theorem startPolling_twice s : startPolling (startPolling s) = startPolling s.
Proof.
  unfold startPolling at 2 3. destruct (isPolling s) eqn:Hflag.
  - unfold startPolling. by rewrite Hflag.
  - reflexivity.
Qed.

(** X18. [stopPolling] undoes [startPolling]: called after it on a page that
    was not polling, with the two timer ids the browser hands out being new,
    it leaves the interval timers as they were before, both variables [null]
    and [isPolling] off; pending timeouts and the cycle counter are not
    touched by either. *)
Theorem stopPolling_undoes_startPolling s :
  isPolling s = false →
  intervals s !! next_timer s = None →
  intervals s !! S (next_timer s) = None →
  let s' := stopPolling (startPolling s) in
  intervals s' = intervals s ∧
  pollTimer s' = None ∧ devicePollTimer s' = None ∧ isPolling s' = false ∧
  timeouts s' = timeouts s ∧ pollCounter s' = pollCounter s.
Proof.
  intros Hflag Hfresh1 Hfresh2. unfold startPolling. rewrite Hflag.
  destruct s as [pt dpt polling counter ints touts next effs]. simpl in *.
  split_and!; try done.
  rewrite delete_insert_ne by lia. rewrite delete_insert_eq.
  rewrite delete_insert_eq. rewrite (delete_id _ next) by done.
  by apply delete_id.
Qed.

Lemma stopPolling_undoes_startPolling_witness :
  let s := sys_env loaded in
  let s' := stopPolling (startPolling s) in
  intervals s' = intervals s ∧
  pollTimer s' = None ∧ devicePollTimer s' = None ∧ isPolling s' = false ∧
  timeouts s' = timeouts s ∧ pollCounter s' = pollCounter s.
Proof.
  intros s. apply (stopPolling_undoes_startPolling s); reflexivity.
Defined.

(** ** The device stream *)

(** X19. The callback of the device stream only polls.  From its start or
    from any of its awaits on, however the calls it awaited have settled
    (rejected, or resolved with whatever body), it leaves the timers,
    [isPolling] and the cycle counter as they are, and the only requests it
    sends are those for the devices, the connection status and the connection
    events: never a health probe. *)
Theorem device_loop_only_polls q s :
  segment device_loop q →
  control (fst (run q s)) = control s ∧
  ∀ e, e ∈ sent_since s (fst (run q s)) →
       e ∈ [Devices; ConnectionStatus; ConnectionEvents].
Proof.
  intros Hq.
  set (allowed := [Devices; ConnectionStatus; ConnectionEvents]).
  set (P := λ s' : env,
         control s' = control s ∧
         ∃ more, effects s' = effects s ++ more ∧
                 ∀ e, e ∈ requests_of more → e ∈ allowed).
  set (ok := λ x : effect, ∀ e, x = Request e → e ∈ allowed).
  assert (Hemit : ∀ x s', ok x → P s' → P (emit x s')).
  { intros x s' Hx [Hcontrol (more & Heff & Hmore)]. split; [exact Hcontrol|].
    exists (more ++ [x]). split.
    - simpl. by rewrite Heff, app_assoc.
    - intros e. unfold requests_of. rewrite omap_app, elem_of_app.
      intros [He|He]; [by apply Hmore|].
      destruct x as [e'| | | |]; simpl in He; try by apply elem_of_nil in He.
      apply list_elem_of_singleton in He. subst e'. by apply Hx. }
  assert (Hloop : preserves P device_loop).
  { apply (keep_pollDeviceStatus P ok Hemit).
    - intros c e. discriminate.
    - intros e [= <-]. subst allowed. apply elem_of_cons. by left.
    - intros e [= <-]. subst allowed. apply elem_of_cons. right.
      apply elem_of_cons. by left.
    - intros e [= <-]. subst allowed. apply elem_of_cons. right.
      apply elem_of_cons. right. apply elem_of_cons. by left. }
  assert (Hs : P s).
  { split; [done|]. exists []. split; [by rewrite app_nil_r|].
    intros e He. by apply elem_of_nil in He. }
  destruct (run_keeps P q s (segment_keeps P _ _ Hloop Hq) Hs)
    as [Hcontrol (more & Heff & Hmore)].
  split; [exact Hcontrol|]. unfold sent_since. rewrite Heff, drop_effects. exact Hmore.
Qed.

Lemma device_loop_only_polls_witness :
  let s := sys_env loaded in
  let r := Resolves (VObj {[ "success" := VBool true; "data" := VObj ∅ ]}) in
  let q := match snd (run device_loop s) with
           | Some t => resume t r
           | None => Ret ()
           end in
  control (fst (run q s)) = control s ∧
  ∀ e, e ∈ sent_since s (fst (run q s)) →
       e ∈ [Devices; ConnectionStatus; ConnectionEvents].
Proof.
  intros s r q.
  apply (device_loop_only_polls q s).
  pose proof (segment_resume device_loop device_loop s _ r
                (segment_start _) eq_refl) as Hq.
  exact Hq.
Defined.

(** ** The cycle counter *)

Lemma counter_kept_by_handlers n h :
  preserves (λ s, n ≤ pollCounter s) (handler_proc h).
Proof.
  apply (keep_handler _ (λ _, True)); try done.
  - intros s Hs. unfold startPolling. destruct (isPolling s); [done|exact Hs].
  - intros s Hs. unfold stopPolling.
    destruct (pollTimer s); simpl; destruct (devicePollTimer s); exact Hs.
  - intros s Hs. simpl. lia.
Qed.

Lemma step_counter σ l σ' :
  (∀ n id t r, tasks σ !! id = Some t →
     preserves (λ s, n ≤ pollCounter s) (resume t r)) →
  step σ l = Some σ' →
  pollCounter (sys_env σ) ≤ pollCounter (sys_env σ').
Proof.
  intros Htasks. destruct l as [id|id|t r]; simpl.
  - destruct (intervals (sys_env σ) !! id) as [[h ms]|]; [|done].
    intros [= <-]. unfold spawn. rewrite settle_env.
    apply (run_keeps (λ s, pollCounter (sys_env σ) ≤ pollCounter s));
      [apply counter_kept_by_handlers|simpl; lia].
  - destruct (timeouts (sys_env σ) !! id) as [[h ms]|]; [|done].
    intros [= <-]. unfold spawn. rewrite settle_env.
    apply (run_keeps (λ s, pollCounter (sys_env σ) ≤ pollCounter s));
      [apply counter_kept_by_handlers|simpl; lia].
  - destruct (tasks σ !! t) as [task|] eqn:Htask; [|done].
    intros [= <-]. rewrite settle_env.
    apply (run_keeps (λ s, pollCounter (sys_env σ) ≤ pollCounter s)); [|lia].
    by eapply Htasks.
Qed.

(** X20. The cycle counter is never reset: along any run of the page it
    only grows, also across an offline period and a reconnect, so the storage
    poll keeps its place in the cycle of six. *)
Theorem pollCounter_never_decreases ls : ∀ σ σ',
  reachable σ → steps σ ls = Some σ' →
  pollCounter (sys_env σ) ≤ pollCounter (sys_env σ').
Proof.
  induction ls as [|l ls IH]; intros σ σ' Hσ; simpl.
  - by intros [= <-].
  - destruct (step σ l) as [σ1|] eqn:Hstep; [|done]. intros Hsteps.
    transitivity (pollCounter (sys_env σ1)).
    + apply (step_counter σ l); [|done]. intros n id t r.
      apply (reachable_tasks_keep _ σ); [|done]. apply counter_kept_by_handlers.
    + apply IH; [|done]. by eapply reachable_step.
Qed.

Lemma pollCounter_never_decreases_witness :
  let up := Resolves (VObj {[ "success" := VBool true ]}) in
  let down := Rejects "Failed to fetch" in
  let σ := after (replicate 8 (Settles 0 up) ++
                  [IntervalFires 1; Settles 1 up; Settles 1 up]) in
  let offline := [IntervalFires 1; Settles 2 down; Settles 2 down; Settles 2 down] in
  let back := [TimeoutFires 3; Settles 3 up; IntervalFires 4; Settles 4 up; Settles 4 up] in
  ∃ σ1 σ',
    steps σ offline = Some σ1 ∧
    isPolling (sys_env σ1) = false ∧ intervals (sys_env σ1) = ∅ ∧
    pollCounter (sys_env σ1) = 2 ∧
    steps σ (offline ++ back) = Some σ' ∧
    isPolling (sys_env σ') = true ∧
    pollCounter (sys_env σ) = 1 ∧ pollCounter (sys_env σ') = 3 ∧
    pollCounter (sys_env σ) ≤ pollCounter (sys_env σ').
Proof.
  intros up down σ offline back.
  assert (Hmid : steps σ offline =
                   Some (after (replicate 8 (Settles 0 up) ++
                                [IntervalFires 1; Settles 1 up; Settles 1 up] ++ offline)))
    by (vm_compute; reflexivity).
  assert (Hend : steps σ (offline ++ back) =
                   Some (after (replicate 8 (Settles 0 up) ++
                                [IntervalFires 1; Settles 1 up; Settles 1 up] ++
                                offline ++ back)))
    by (vm_compute; reflexivity).
  eexists _, _.
  split; [exact Hmid|]. do 3 (split; [vm_compute; reflexivity|]).
  split; [exact Hend|]. do 3 (split; [vm_compute; reflexivity|]).
  apply (pollCounter_never_decreases (offline ++ back) σ _ (after_reachable _) Hend).
Defined.

Lemma storage_cycle_counts s s1 line :
  pollCounter s1 = pollCounter s → intervals s1 = intervals s →
  timeouts s1 = timeouts s → isPolling s1 = isPolling s →
  effects s1 = effects s ++ line → requests_of line = [] →
  let s' := fst (run storage_cycle s1) in
  pollCounter s' = S (pollCounter s) ∧
  sent_since s s' = (if S (pollCounter s) mod 6 =? 0 then [QuestStorage] else []) ∧
  intervals s' = intervals s ∧ timeouts s' = timeouts s ∧
  isPolling s' = isPolling s.
Proof.
  intros Hcount Hint Htout Hflag Heff Hline.
  assert (run storage_cycle s1 =
            if S (pollCounter s1) mod 6 =? 0
            then run pollQuestStorage (set_pollCounter (S (pollCounter s1)) s1)
            else (set_pollCounter (S (pollCounter s1)) s1, None)) as -> by reflexivity.
  rewrite Hcount. unfold sent_since, requests_of in *.
  destruct (S (pollCounter s) mod 6 =? 0); simpl; rewrite Heff.
  - rewrite <- app_assoc, drop_effects, omap_app, Hline. by split_and!.
  - rewrite drop_effects, Hline. by split_and!.
Qed.

(** X21. A tick of the metrics stream whose metrics poll did not throw goes
    on to the network statistics; however that call settles, the counter goes
    up by one and the storage request is sent exactly when the new count is a
    multiple of six.  The timers and [isPolling] are left alone. *)
Theorem storage_poll_every_sixth_cycle s0 t1 response b s1 t2 r s :
  snd (run metrics_loop s0) = Some t1 →
  success_and_data response = inr b →
  snd (run (resume t1 (Resolves response)) s1) = Some t2 →
  let s' := fst (run (resume t2 r) s) in
  waits_for t2 = NetworkStats ∧
  pollCounter s' = S (pollCounter s) ∧
  sent_since s s' = (if S (pollCounter s) mod 6 =? 0 then [QuestStorage] else []) ∧
  intervals s' = intervals s ∧ timeouts s' = timeouts s ∧
  isPolling s' = isPolling s.
Proof.
  pose proof (storage_cycle_counts s) as Hcounts.
  unfold metrics_loop. remember storage_cycle as tail eqn:Htail.
  remember (S (pollCounter s) mod 6 =? 0) as sixth eqn:Hsixth.
  intros [= <-] Hb. simpl. rewrite Hb.
  destruct b; simpl; intros [= <-]; (split; [done|]); cbn [resume];
    destruct r as [resp|m]; simpl;
    try (destruct (success_and_data resp) as [e|[|]]; simpl).
  all: try (apply (Hcounts s []); try reflexivity; symmetry; apply app_nil_r).
  all: eapply Hcounts; reflexivity.
Qed.

Lemma storage_poll_every_sixth_cycle_witness :
  let s0 := sys_env loaded in
  let response := VObj {[ "success" := VBool false ]} in
  let r := Rejects "Failed to fetch" in
  let s := Env (Some 1) (Some 2) true 5
               {[ 1 := (MetricsLoop, POLL_INTERVAL); 2 := (DeviceLoop, DEVICE_POLL_INTERVAL) ]}
               ∅ 3 [] in
  ∃ t1 t2,
    snd (run metrics_loop s0) = Some t1 ∧
    snd (run (resume t1 (Resolves response)) s0) = Some t2 ∧
    let s' := fst (run (resume t2 r) s) in
    waits_for t2 = NetworkStats ∧
    pollCounter s' = S (pollCounter s) ∧
    sent_since s s' = (if S (pollCounter s) mod 6 =? 0 then [QuestStorage] else []) ∧
    intervals s' = intervals s ∧ timeouts s' = timeouts s ∧
    isPolling s' = isPolling s.
Proof.
  intros s0 response r s. eexists. eexists.
  split; [reflexivity|]. split; [reflexivity|].
  exact (storage_poll_every_sixth_cycle s0 _ response false s0 _ r s
           eq_refl eq_refl eq_refl).
Defined.

(** ** Boot *)

(** X22. [init] first probes the backend.  When the probe fails, [init]
    ends there: it sends no request for data, starts no stream, and leaves one
    timeout of 5000 ms that will call [init] again. *)
Theorem failed_boot_retries_later s0 t r s :
  snd (run init s0) = Some t →
  health_ok r = false →
  let s' := fst (run (resume t r) s) in
  waits_for t = Health ∧
  snd (run (resume t r) s) = None ∧
  timeouts s' = <[next_timer s := (Init, 5000%N)]> (timeouts s) ∧
  intervals s' = intervals s ∧ isPolling s' = isPolling s ∧
  pollTimer s' = pollTimer s ∧ devicePollTimer s' = devicePollTimer s ∧
  sent_since s s' = [].
Proof.
  intros [= <-] Hr. cbn [resume waits_for].
  destruct (failed_probe_outcome r s Hr) as (line & Hreq & Heff & Hrun & _).
  match goal with
  | |- context [run (proc_bind bool unit ?k (health_outcome r)) s] =>
      change (run (proc_bind bool unit k (health_outcome r)) s)
        with (run (health_outcome r ≫= k) s); rewrite (Hrun k)
  end.
  destruct (foldr_emit_fields line s) as (Hpt & Hdpt & Hflag & Hint & Htout & Hnext).
  simpl. rewrite Hnext, Htout. split_and!; try done.
  unfold sent_since. simpl. rewrite Heff, <- !app_assoc, drop_effects.
  unfold requests_of in *. rewrite omap_app, Hreq. done.
Qed.

Lemma failed_boot_retries_later_witness :
  let s := sys_env loaded in
  let r := Rejects "Failed to fetch" in
  ∃ t,
    snd (run init s) = Some t ∧
    let s' := fst (run (resume t r) s) in
    waits_for t = Health ∧
    snd (run (resume t r) s) = None ∧
    timeouts s' = <[next_timer s := (Init, 5000%N)]> (timeouts s) ∧
    intervals s' = intervals s ∧ isPolling s' = isPolling s ∧
    pollTimer s' = pollTimer s ∧ devicePollTimer s' = devicePollTimer s ∧
    sent_since s s' = [].
Proof.
  intros s r. eexists. split; [reflexivity|].
  exact (failed_boot_retries_later s _ r s eq_refl eq_refl).
Defined.

Lemma startPolling_sends_nothing s :
  isPolling (startPolling s) = true ∧
  ∃ more, effects (startPolling s) = effects s ++ more ∧ requests_of more = [].
Proof.
  unfold startPolling. destruct (isPolling s) eqn:Hflag.
  - split; [done|]. exists []. by rewrite app_nil_r.
  - split; [done|]. by exists [Console "starting loops..."].
Qed.

(** X23. When the probe of [init] answers, [init] asks for the devices
    first and sends nothing else before that call settles.  If that call
    fails, the initial data are given up as a whole (no further request is
    sent), but the page goes live all the same: the streams are started and
    ["we are live"] is the last line logged. *)
Theorem boot_goes_live_without_initial_data s0 t r s message s1 :
  snd (run init s0) = Some t →
  health_ok r = true →
  ∃ t',
    snd (run (resume t r) s) = Some t' ∧
    waits_for t' = Devices ∧
    sent_since s (fst (run (resume t r) s)) = [Devices] ∧
    let s2 := fst (run (resume t' (Rejects message)) s1) in
    snd (run (resume t' (Rejects message)) s1) = None ∧
    isPolling s2 = true ∧
    sent_since s1 s2 = [] ∧
    last (effects s2) = Some (Console "we are live").
Proof.
  intros [= <-] Hr. cbn [resume].
  match goal with
  | |- context [run (proc_bind bool unit ?k (health_outcome r)) s] =>
      change (run (proc_bind bool unit k (health_outcome r)) s)
        with (run (health_outcome r ≫= k) s);
      rewrite (good_probe_outcome r k s Hr)
  end.
  eexists. split; [reflexivity|]. split; [reflexivity|]. split.
  { unfold sent_since. simpl. by rewrite <- !app_assoc, drop_effects. }
  simpl. split; [done|].
  destruct (startPolling_sends_nothing
              (emit (Collaborator "hideLoadingOverlay")
                 (emit (Console "init fetch failed:") s1)))
    as (Hflag & more & Heff & Hmore).
  split; [exact Hflag|]. split.
  - unfold sent_since. simpl. rewrite Heff. simpl.
    rewrite <- !app_assoc, drop_effects. unfold requests_of in *.
    simpl. by rewrite omap_app, Hmore.
  - by rewrite last_snoc.
Qed.

Lemma boot_goes_live_without_initial_data_witness :
  let s := sys_env loaded in
  let r := Resolves (VObj {[ "success" := VBool true ]}) in
  ∃ t t',
    snd (run init s) = Some t ∧
    snd (run (resume t r) s) = Some t' ∧
    waits_for t' = Devices ∧
    sent_since s (fst (run (resume t r) s)) = [Devices] ∧
    let s2 := fst (run (resume t' (Rejects "Failed to fetch")) s) in
    snd (run (resume t' (Rejects "Failed to fetch")) s) = None ∧
    isPolling s2 = true ∧
    sent_since s s2 = [] ∧
    last (effects s2) = Some (Console "we are live").
Proof.
  intros s r. eexists.
  destruct (boot_goes_live_without_initial_data s _ r s "Failed to fetch" s
              eq_refl eq_refl) as (t' & H).
  exists t'. split; [reflexivity|exact H].
Defined.

End OrchestratorFurther.
